(** * BioQ quiz-session engine: a shallow embedding of [src/pages/Quiz.tsx]

    The development follows the source file top to bottom:
    - [JS]: the JavaScript primitives the code relies on (32-bit integer
      conversions, [Math.imul], products in double precision, arrays written
      by index, [Array.slice]);
    - [Shuffle]: [hash], [prng] and [seededShuffle];
    - [Selector]: the [questions] memo (weekly pick, resume rebuild, practice);
    - [Store]: the [localStorage] entry of the weekly session and JSON;
    - [Session]: the component state and its transitions;
    - [Attempt]: [saveWeeklyAttempt] and the save status of the finish screen;
    - [UrlParams]: the URL parameters [n] and [t];
    - [Progress], [View], [Finish], [Attempts]: what is read off a running
      session, the question screen, the finish screen and retried saves;
    - [Device]: [deviceId];
    - [Calendar]: [isoWeek], over the date functions of ECMAScript;
    - [Fixtures], [Scenarios]: the sample data of the closed examples.

    The properties follow the definitions. *)

From Stdlib Require Import ZArith QArith Qround Lia.
From stdpp Require Import base list gmap strings.

Local Open Scope Z_scope.

(** ** JavaScript primitives *)
Module JS.

(** [x >>> 0] : ToUint32. *)
Definition to_uint32 (x : Z) : Z := x mod 2^32.

(** ToInt32, the conversion every bitwise operator applies to its operands
    and to its result. *)
Definition to_int32 (x : Z) : Z := (x + 2^31) mod 2^32 - 2^31.

(** [a ^ b] on numbers. *)
Definition xor32 (a b : Z) : Z := to_int32 (Z.lxor (to_int32 a) (to_int32 b)).

(** [Math.imul(a, b)]: exact 32-bit product, as a signed integer. *)
Definition imul (a b : Z) : Z := to_int32 (to_int32 a * to_int32 b).

(** [Math.round(x)]: the integer nearest to [x], ties towards +infinity. *)
Definition round (x : Q) : Z := Qfloor (x + (1 # 2)).

(** [Math.floor(x)]. *)
Definition floor (x : Q) : Z := Qfloor x.

(** The double nearest to the whole number [n], for [n] not negative, as a
    whole number: [n] itself below 2^53, and above it [n] rounded to its 53
    leading bits, to the nearest and on a tie to the even one. *)
Definition round_double (n : Z) : Z :=
  let e := Z.log2 n - 52 in
  if e <=? 0 then n
  else
    let q := n / 2 ^ e in
    let r := n mod 2 ^ e in
    let half := 2 ^ (e - 1) in
    (if r <? half then q
     else if half <? r then q + 1
     else if Z.even q then q else q + 1) * 2 ^ e.

(** [x * m] in double precision, for a double [x = k / 2^j] not negative,
    given as the fraction [k # 2^j], and a whole number [m] that a double
    holds: the exact product [k * m / 2^j] rounded to the nearest double.
    Dividing by a power of two does not round, so the result is the rounding
    of [k * m], over [2^j]. *)
Definition mul_double (x : Q) (m : Z) : Q := round_double (Qnum x * m) # Qden x.

(** [arr.slice(0, e)] for an integer [e]: a negative [e] counts from the end. *)
Definition slice0 {A} (arr : list A) (e : Z) : list A :=
  if e <? 0 then take (Z.to_nat (Z.max (Z.of_nat (length arr) + e) 0)) arr
  else take (Z.to_nat e) arr.

(** A JavaScript array whose slots may be empty: [None] is a hole (read as
    [undefined], written as [null] by [JSON.stringify]). *)
Abbreviation jsarr A := (list (option A)).

(** [arr[i]]: [None] stands for [undefined]. *)
Definition get {A} (arr : jsarr A) (i : nat) : option A := mjoin (arr !! i).

(** [arr[i] = v]: inside the array the slot is overwritten; past its end the
    array grows and the slots in between are holes. *)
Definition set {A} (arr : jsarr A) (i : nat) (v : A) : jsarr A :=
  if decide (i < length arr)%nat then <[i := Some v]> arr
  else arr ++ replicate (i - length arr) None ++ [Some v].

(** [Array(n).fill(v)]. *)
Definition fill {A} (n : nat) (v : A) : jsarr A := replicate n (Some v).

End JS.

(** ** [hash], [prng], [seededShuffle] *)
Module Shuffle.
Import JS.

(** A JavaScript string is the sequence of its UTF-16 code units, the values
    [str.charCodeAt(i)] for [i] below [str.length]. *)
Definition code_units := list Z.

(** The code units of a string whose characters are all below 256 (the seed
    strings the component builds are ASCII). *)
Fixpoint units_of (s : string) : code_units :=
  match s with
  | EmptyString => []
  | String c s' => Z.of_N (Ascii.N_of_ascii c) :: units_of s'
  end.

(** One iteration of the loop body of [hash]:
    [h ^= str.charCodeAt(i); h = Math.imul(h, 16777619)]. *)
Definition hash_step (h c : Z) : Z := imul (xor32 h c) 16777619.

(** [function hash(str)] *)
Definition hash (str : code_units) : Z :=
  to_uint32 (fold_left hash_step str (to_uint32 2166136261)).

(** The fold of the specification, written from its words: start from
    2166136261; for each character, XOR the character code into the
    accumulator, then multiply by 16777619 modulo 2^32. *)
Definition fnv1a_spec (str : code_units) : Z :=
  fold_left (fun acc c => (Z.lxor acc c * 16777619) mod 2^32) str 2166136261.

(** [function prng(seed)]: the closure it returns owns one variable [a],
    initialised to [seed >>> 0]. *)
Definition prng_init (seed : Z) : Z := to_uint32 seed.

(** [a = (a * 1664525 + 1013904223) >>> 0].  The product stays below 2^53
    (lemma [lcg_exact]), so the double-precision arithmetic of the source is
    exact and agrees with the integers. *)
Definition lcg_next (a : Z) : Z := to_uint32 (a * 1664525 + 1013904223).

(** One call of the closure: the value returned, [a / 0x100000000], and the
    new [a]. *)
Definition prng_call (a : Z) : Q * Z :=
  let a' := lcg_next a in (a' # 4294967296, a').

(** A store of arrays, for the code that handles arrays by reference. *)
Abbreviation heap T := (gmap positive (list T)).

Section Arrays.
Context {T : Type}.

(** [[copy[i], copy[j]] = [copy[j], copy[i]]].  The loop of [seededShuffle]
    only calls it with [j <= i < copy.length] (lemmas [pick_le] and
    [shuffle_loop_in_range]); both reads then hit a slot. *)
Definition swap (copy : list T) (i j : nat) : list T :=
  match copy !! j, copy !! i with
  | Some cj, Some ci => <[j := ci]> (<[i := cj]> copy)
  | _, _ => copy
  end.

(** [Math.floor(rnd() * (i + 1))] for the value [r] that [rnd()] returned.
    The product is the one of the source, in double precision. *)
Definition pick (r : Q) (i : nat) : nat :=
  Z.to_nat (floor (mul_double r (Z.of_nat i + 1))).

(** [for (let i = copy.length - 1; i > 0; i--) { ... }], by recursion on [i]. *)
Fixpoint shuffle_loop (i : nat) (a : Z) (copy : list T) : list T :=
  match i with
  | O => copy
  | S i' =>
      let '(r, a') := prng_call a in
      shuffle_loop i' a' (swap copy i (pick r i))
  end.

(** The loop again, stopping with [None] as soon as a read of the swap
    misses a slot; lemma [shuffle_loop_in_range] shows that it never does. *)
Fixpoint shuffle_loop_checked (i : nat) (a : Z) (copy : list T)
  : option (list T) :=
  match i with
  | O => Some copy
  | S i' =>
      let '(r, a') := prng_call a in
      match copy !! pick r i, copy !! i with
      | Some cj, Some ci =>
          shuffle_loop_checked i' a' (<[pick r i := ci]> (<[i := cj]> copy))
      | _, _ => None
      end
  end.

(** [function seededShuffle(arr, seedStr)], as a function of the contents of
    [arr]. *)
Definition seededShuffle (arr : list T) (seedStr : code_units) : list T :=
  shuffle_loop (length arr - 1) (prng_init (hash seedStr)) arr.

(** The same function over a store of arrays, where an array is a reference:
    [arr.slice()] allocates the copy, the loop writes to the copy in place,
    and the reference of the copy is returned. *)
Definition alloc (h : heap T) (v : list T) : positive * heap T :=
  let r := fresh (dom h) in (r, <[r := v]> h).

Fixpoint shuffle_loop_ref (i : nat) (a : Z) (copy : positive) (h : heap T)
  : heap T :=
  match i with
  | O => h
  | S i' =>
      let '(r, a') := prng_call a in
      shuffle_loop_ref i' a' copy (alter (fun l => swap l i (pick r i)) copy h)
  end.

Definition seededShuffle_ref (arr : positive) (seedStr : code_units) (h : heap T)
  : option (positive * heap T) :=
  match h !! arr with
  | None => None
  | Some l =>
      let '(copy, h1) := alloc h l in
      Some (copy, shuffle_loop_ref (length l - 1) (prng_init (hash seedStr)) copy h1)
  end.

(** The shuffle of the specification, written from its words, to compare
    [seededShuffle] with: a Fisher-Yates shuffle from the last index to the
    first, which swaps index [i] with [floor (rnd() * (i + 1))]; [rnd()]
    advances the state of the generator, started at the hash of the seed
    string, and returns it over 2^32.  The arithmetic is exact. *)
Definition exchange (items : list T) (i j : nat) : list T :=
  match items !! i, items !! j with
  | Some x, Some y => <[i := y]> (<[j := x]> items)
  | _, _ => items
  end.

Fixpoint fisher_yates_spec (i : nat) (state : Z) (items : list T) : list T :=
  match i with
  | O => items
  | S i' =>
      let state' := (state * 1664525 + 1013904223) mod 2^32 in
      let j := Z.to_nat (state' * (Z.of_nat i + 1) / 2^32) in
      fisher_yates_spec i' state' (exchange items i j)
  end.

Definition seededShuffle_spec (items : list T) (seedString : code_units)
  : list T :=
  fisher_yates_spec (length items - 1) (fnv1a_spec seedString) items.

End Arrays.

End Shuffle.

(** ** The data of the quiz *)
Module Model.
Import JS.

(** [type Question], with [difficulty: "easy" | "medium" | "hard"]. *)
Inductive Difficulty := easy | medium | hard.

Record Question := {
  id : string;
  category : string;
  difficulty : Difficulty;
  prompt : string;
  options : list string;
  correctIndex : Z;
  explanation : option string;
}.

(** [type Status] *)
Inductive Status := unanswered | correct | wrong | penalized.

(** [type WeeklySession].  [statuses] and [timesMs] are arrays written by
    index, so they may hold holes. *)
Record WeeklySession := {
  date : string;
  weekId : string;
  qIds : list string;
  qIndex : nat;
  statuses : jsarr Status;
  timesMs : jsarr Z;
  score : Z;
  seed : string;
  tPerQ : Z;
}.

#[export] Instance Difficulty_eq_dec : EqDecision Difficulty.
Proof. solve_decision. Defined.

#[export] Instance Status_eq_dec : EqDecision Status.
Proof. solve_decision. Defined.

(** The string a difficulty is written as in [questions.json] and in the
    [difficulty] URL parameter. *)
Definition difficulty_name (d : Difficulty) : string :=
  match d with easy => "easy" | medium => "medium" | hard => "hard" end.

End Model.

(** ** The [localStorage] entry of the weekly session *)
Module Store.
Import JS Model.

(** What [JSON.parse] returns.  Numbers are integers: the session record
    holds indices, scores, seconds and milliseconds. *)
#[warnings="-register-all"]
Inductive json :=
| JNull
| JBool (b : bool)
| JNum (z : Z)
| JStr (s : string)
| JArr (l : list json)
| JObj (fields : list (string * json)).

(** The string stored under [sessionKey()], by what [JSON.parse] makes of it:
    [Garbage] is a string on which it throws (the empty string, which the
    source tests first with [!raw], is one), [Text v] a string it parses to
    [v].  The entry itself is an [option item]: [None] when [getItem] returns
    [null].  [setItem] is taken to succeed; where it throws, the source
    swallows the exception and the entry keeps its value. *)
Inductive item :=
| Garbage
| Text (v : json).

Definition status_name (s : Status) : string :=
  match s with
  | unanswered => "unanswered"
  | correct => "correct"
  | wrong => "wrong"
  | penalized => "penalized"
  end.

Definition status_of_name (s : string) : option Status :=
  if decide (s = "unanswered") then Some unanswered
  else if decide (s = "correct") then Some correct
  else if decide (s = "wrong") then Some wrong
  else if decide (s = "penalized") then Some penalized
  else None.

(** A slot of an array: a hole is written as [null]. *)
Definition slot_to_json {A} (f : A -> json) (x : option A) : json :=
  match x with Some a => f a | None => JNull end.

(** [JSON.parse(JSON.stringify(s))] for a session [s]. *)
Definition to_json (s : WeeklySession) : json :=
  JObj [ ("date", JStr (date s));
         ("weekId", JStr (weekId s));
         ("qIds", JArr (JStr <$> qIds s));
         ("qIndex", JNum (Z.of_nat (qIndex s)));
         ("statuses", JArr (slot_to_json (fun x => JStr (status_name x)) <$> statuses s));
         ("timesMs", JArr (slot_to_json JNum <$> timesMs s));
         ("score", JNum (score s));
         ("seed", JStr (seed s));
         ("tPerQ", JNum (tPerQ s)) ].

Fixpoint assoc (k : string) (fields : list (string * json)) : option json :=
  match fields with
  | [] => None
  | (k', v) :: rest => if decide (k = k') then Some v else assoc k rest
  end.

(** [v.k] on a value other than [null]: [None] stands for [undefined], which
    is also what a property of a number, string, boolean or array that JSON
    can produce reads as (apart from [length]). *)
Definition field (k : string) (v : json) : option json :=
  match v with
  | JObj fields => assoc k fields
  | _ => None
  end.

Definition as_str (v : option json) : option string :=
  match v with Some (JStr s) => Some s | _ => None end.

Definition as_num (v : option json) : option Z :=
  match v with Some (JNum z) => Some z | _ => None end.

Definition as_index (v : option json) : option nat :=
  match v with
  | Some (JNum z) => if 0 <=? z then Some (Z.to_nat z) else None
  | _ => None
  end.

Definition as_arr {A} (f : json -> option A) (v : option json) : option (list A) :=
  match v with Some (JArr l) => mapM f l | _ => None end.

Definition id_of_json (v : json) : option string :=
  match v with JStr s => Some s | _ => None end.

Definition status_slot_of_json (v : json) : option (option Status) :=
  match v with
  | JNull => Some None
  | JStr s => Some <$> status_of_name s
  | _ => None
  end.

Definition time_slot_of_json (v : json) : option (option Z) :=
  match v with
  | JNull => Some None
  | JNum z => Some (Some z)
  | _ => None
  end.

(** The typed view of a parsed value: [Some s] when the value has the shape of
    a [WeeklySession], the type the source casts it to without a check. *)
Definition of_json (v : json) : option WeeklySession :=
  d ← as_str (field "date" v);
  w ← as_str (field "weekId" v);
  ids ← as_arr id_of_json (field "qIds" v);
  i ← as_index (field "qIndex" v);
  st ← as_arr status_slot_of_json (field "statuses" v);
  tm ← as_arr time_slot_of_json (field "timesMs" v);
  sc ← as_num (field "score" v);
  sd ← as_str (field "seed" v);
  tq ← as_num (field "tPerQ" v);
  Some {| date := d; weekId := w; qIds := ids; qIndex := i; statuses := st;
          timesMs := tm; score := sc; seed := sd; tPerQ := tq |}.

(** [function readSessionSafe()]: [None] stands for [null]. *)
Definition readSessionSafe (entry : option item) : option json :=
  match entry with
  | None => None
  | Some Garbage => None
  | Some (Text JNull) => None
  | Some (Text v) => Some v
  end.

(** [readSessionSafe()] read at the type it is cast to.  The outer [None]
    marks a stored value that is neither [null] nor a [WeeklySession]: the
    code that goes on to use it leaves the typed model. *)
Definition read_typed (entry : option item) : option (option WeeklySession) :=
  match readSessionSafe entry with
  | None => Some None
  | Some v => Some <$> of_json v
  end.

(** [localStorage.setItem(sessionKey(), JSON.stringify(s))] *)
Definition write (s : WeeklySession) : option item := Some (Text (to_json s)).

(** "Load any in-progress weekly session for today": the value given to
    [setResume] and the entry left in [localStorage].  [today] and [week] are
    [localDateKey()] and [weekIdFor()]. *)
Definition load_resume (today week : string) (entry : option item)
  : option json * option item :=
  match entry with
  | None => (None, entry)
  | Some Garbage => (None, entry)
  | Some (Text JNull) => (None, entry)
  | Some (Text s) =>
      if decide (as_str (field "date" s) = Some today
                 /\ as_str (field "weekId" s) = Some week)
      then (Some s, entry)
      else (None, None)
  end.

End Store.

(** ** The [questions] memo *)
Module Selector.
Import JS Shuffle Model.

(** The seed strings are template literals ending in the date key. *)
Definition seed_of (prefix dateKey : string) : code_units :=
  units_of (prefix +:+ dateKey).

(** [Math.round(target * 0.8)].  The double 0.8 is taken as the rational 4/5:
    [target * 4/5] has a fractional part among 0, .2, .4, .6, .8, never
    within rounding error of one half, so both round to the same integer. *)
Definition need_hard (target : Z) : Z := round (inject_Z target * (4 # 5)).

Definition is_hard (q : Question) : Prop := difficulty q = hard.
Definition is_medium (q : Question) : Prop := difficulty q = medium.
Definition is_other (q : Question) : Prop :=
  difficulty q <> hard /\ difficulty q <> medium.

(** "New weekly pick (80% hard, 20% medium)", for an integer [n]. *)
Definition weekly_pick (bank : list Question) (n : Z) (dateKey : string)
  : list Question :=
  let target := Z.min n (Z.of_nat (length bank)) in
  let hardAll := filter is_hard bank in
  let medAll := filter is_medium bank in
  let others := filter is_other bank in
  let needHard := need_hard target in
  let needMed := target - needHard in
  let hardPick :=
    slice0 (seededShuffle hardAll (seed_of "WEEKLY-HARD-" dateKey)) needHard in
  let medPick :=
    slice0 (seededShuffle medAll (seed_of "WEEKLY-MED-" dateKey)) needMed in
  let picks := hardPick ++ medPick in
  let picks :=
    if Z.of_nat (length picks) <? target then
      let taken : gset string := list_to_set (id <$> picks) in
      let pool :=
        filter (fun q => id q ∉ taken)
          (seededShuffle hardAll (seed_of "WEEKLY-HARD-FILL-" dateKey)
           ++ seededShuffle medAll (seed_of "WEEKLY-MED-FILL-" dateKey)
           ++ seededShuffle others (seed_of "WEEKLY-REST-" dateKey)) in
      picks ++ slice0 pool (target - Z.of_nat (length picks))
    else picks in
  seededShuffle picks (seed_of "WEEKLY-FINAL-" dateKey).

(** [new Map(bank.map(q => [q.id, q]))]: a later question wins over an
    earlier one with the same id. *)
Definition by_id (bank : list Question) : gmap string Question :=
  fold_left (fun m q => <[id q := q]> m) bank ∅.

(** "Resume path: rebuild list from saved qIds":
    [resume.qIds.map(id => byId.get(id)).filter(Boolean)]. *)
Definition rebuild (bank : list Question) (ids : list string) : list Question :=
  omap (fun i => by_id bank !! i) ids.

(** "Normal quiz: filter then shuffle".  An empty [category] does not filter;
    [difficulty] always does. *)
Definition practice_pick (bank : list Question) (n : Z)
    (category difficulty : string) (normalSeed : code_units) : list Question :=
  let filtered :=
    if decide (category = "") then bank
    else filter (fun q => Model.category q = category) bank in
  let filtered :=
    if decide (difficulty = "") then filtered
    else filter (fun q => difficulty_name (Model.difficulty q) = difficulty) filtered in
  slice0 (seededShuffle filtered normalSeed)
         (Z.min n (Z.of_nat (length filtered))).

(** The URL parameters and the environment the memo reads. *)
Record Params := {
  isWeekly : bool;
  p_category : string;
  p_difficulty : string;
  n : Z;
  total : Z;              (* seconds per question *)
  today : string;         (* localDateKey() *)
  week : string;          (* weekIdFor() *)
  normalSeed : code_units;
}.

(** [const questions = useMemo(...)].  [bank] is [None] until
    [questions.json] is loaded. *)
Definition questions (p : Params) (bank : option (list Question))
    (resume : option WeeklySession) : list Question :=
  match bank with
  | None => []
  | Some bank =>
      if isWeekly p then
        match resume with
        | Some r =>
            if decide (length (qIds r) = 0%nat)
            then weekly_pick bank (n p) (today p)
            else rebuild bank (qIds r)
        | None => weekly_pick bank (n p) (today p)
        end
      else practice_pick bank (n p) (p_category p) (p_difficulty p) (normalSeed p)
  end.

End Selector.

(** ** The component state and its transitions *)
Module Session.
Import JS Model Store Selector.

(** The [useState] cells of [Quiz] that the session engine reads or writes,
    and two facts about the timer loop: [expired] is [expiredRef.current],
    [raf] tells whether a frame of the loop is scheduled.  The refs that
    mirror the state for the leave handlers ([qIndexRef], [statusesRef], ...)
    hold the state of the last render, which is the [State] a transition
    starts from. *)
Record State := {
  qIndex : nat;
  running : bool;
  selected : option Z;
  locked : bool;
  lockedFor : option nat;
  score : Z;
  finished : bool;
  timesMs : jsarr Z;
  statuses : jsarr Status;
  startedAt : Z;
  nowTs : Z;
  expired : bool;
  raf : bool;
}.

(** The state of the first render. *)
Definition mount (now : Z) : State :=
  {| qIndex := 0; running := true; selected := None; locked := false;
     lockedFor := None; score := 0; finished := false; timesMs := [];
     statuses := []; startedAt := now; nowTs := now; expired := false;
     raf := true |}.

(** The argument of [saveWeeklySnapshot]. *)
Record SnapshotOpts := {
  o_qIndex : option nat;
  o_timesMs : option (list (nat * Z));
  o_statuses : option (list (nat * Status));
  o_scoreDelta : option Z;
}.

Definition no_opts : SnapshotOpts :=
  {| o_qIndex := None; o_timesMs := None; o_statuses := None;
     o_scoreDelta := None |}.

(** [for (const [k, v] of Object.entries(m)) arr[Number(k)] = v] *)
Definition set_entries {A} (arr : jsarr A) (m : list (nat * A)) : jsarr A :=
  fold_left (fun a kv => set a kv.1 kv.2) m arr.

(** The session [saveWeeklySnapshot] builds from the refs when nothing usable
    is stored. *)
Definition session_of_refs (p : Params) (qs : list Question) (st : State)
  : WeeklySession :=
  {| date := today p; weekId := week p; qIds := id <$> qs;
     Model.qIndex := qIndex st; Model.statuses := statuses st;
     Model.timesMs := timesMs st; Model.score := score st;
     seed := "WEEKLY-" +:+ today p; tPerQ := total p |}.

(** The four [if (opts. ...)] updates of [saveWeeklySnapshot]. *)
Definition merge_opts (opts : SnapshotOpts) (s : WeeklySession) : WeeklySession :=
  {| date := date s; weekId := weekId s; qIds := qIds s;
     Model.qIndex := default (Model.qIndex s) (o_qIndex opts);
     Model.statuses :=
       match o_statuses opts with
       | Some m => set_entries (Model.statuses s) m
       | None => Model.statuses s
       end;
     Model.timesMs :=
       match o_timesMs opts with
       | Some m => set_entries (Model.timesMs s) m
       | None => Model.timesMs s
       end;
     Model.score :=
       match o_scoreDelta opts with
       | Some d => if decide (d = 0) then Model.score s else Model.score s + d
       | None => Model.score s
       end;
     seed := seed s; tPerQ := tPerQ s |}.

(** [function saveWeeklySnapshot(opts)]: the entry it leaves in
    [localStorage]. *)
Definition saveWeeklySnapshot (p : Params) (qs : list Question) (st : State)
    (opts : SnapshotOpts) (entry : option item) : option (option item) :=
  if negb (isWeekly p) then Some entry
  else
    stored ← read_typed entry;
    Some (write (merge_opts opts (default (session_of_refs p qs st) stored))).

(** The timer effect, which runs again after a render that changed [running],
    [locked], [qIndex], [total] or [startedAt]: its cleanup cancels the
    scheduled frame, it resets [expiredRef], and it starts the loop again
    unless [!running || locked]. *)
Definition timer_effect (st : State) : State :=
  {| qIndex := qIndex st; running := running st; selected := selected st;
     locked := locked st; lockedFor := lockedFor st; score := score st;
     finished := finished st; timesMs := timesMs st; statuses := statuses st;
     startedAt := startedAt st; nowTs := nowTs st;
     expired := false; raf := running st && negb (locked st) |}.

(** [function choose(idx)], called when [Date.now()] is [now]. *)
Definition choose (p : Params) (qs : list Question) (idx now : Z)
    (st : State) (entry : option item) : option (State * option item) :=
  match (if locked st then None else qs !! qIndex st) with
  | None => Some (st, entry)
  | Some q =>
      let used := Z.min (total p * 1000) (now - startedAt st) in
      let hit := bool_decide (idx = correctIndex q) in
      let st' :=
        timer_effect
          {| qIndex := qIndex st; running := false; selected := Some idx;
             locked := true; lockedFor := Some (qIndex st);
             score := if hit then score st + 1 else score st;
             finished := finished st;
             timesMs := set (timesMs st) (qIndex st) used;
             statuses := set (statuses st) (qIndex st) (if hit then correct else wrong);
             startedAt := startedAt st; nowTs := nowTs st;
             expired := expired st; raf := raf st |} in
      let opts :=
        {| o_qIndex := None;
           o_timesMs := Some [(qIndex st, used)];
           o_statuses := Some [(qIndex st, if hit then correct else wrong)];
           o_scoreDelta := if hit then Some 1 else None |} in
      entry' ← saveWeeklySnapshot p qs st opts entry;
      Some (st', entry')
  end.

(** One frame of the timer loop ([const loop = () => ...]) at time [t].  With
    no frame scheduled nothing runs.  On expiry the loop returns without
    scheduling another frame, and the state change runs the timer effect. *)
Definition frame (p : Params) (qs : list Question) (t : Z)
    (st : State) (entry : option item) : option (State * option item) :=
  if negb (raf st) then Some (st, entry)
  else
    let endsAt := startedAt st + total p * 1000 in
    if negb (expired st) && (endsAt <=? t) then
      let st' :=
        timer_effect
          {| qIndex := qIndex st; running := false; selected := selected st;
             locked := true; lockedFor := Some (qIndex st);
             score := score st; finished := finished st;
             timesMs := set (timesMs st) (qIndex st) (total p * 1000);
             statuses :=
               if decide (get (statuses st) (qIndex st) = Some unanswered)
               then set (statuses st) (qIndex st) wrong
               else statuses st;
             startedAt := startedAt st; nowTs := t;
             expired := true; raf := false |} in
      let opts :=
        {| o_qIndex := None;
           o_timesMs := Some [(qIndex st, total p * 1000)];
           o_statuses := Some [(qIndex st, wrong)];
           o_scoreDelta := None |} in
      entry' ← saveWeeklySnapshot p qs st opts entry;
      Some (st', entry')
    else
      Some ({| qIndex := qIndex st; running := running st;
               selected := selected st; locked := locked st;
               lockedFor := lockedFor st; score := score st;
               finished := finished st; timesMs := timesMs st;
               statuses := statuses st; startedAt := startedAt st;
               nowTs := t; expired := expired st; raf := true |}, entry).

(** [function next()] at time [now], followed by the effects of the render it
    causes: the per-question reset when the index changed, or the finish
    effect, which removes the weekly entry. *)
Definition next (p : Params) (qs : list Question) (now : Z)
    (st : State) (entry : option item) : option (State * option item) :=
  if decide (qIndex st < length qs - 1)%nat then
    let ni := S (qIndex st) in
    let opts :=
      {| o_qIndex := Some ni; o_timesMs := None; o_statuses := None;
         o_scoreDelta := None |} in
    entry' ← saveWeeklySnapshot p qs st opts entry;
    Some (timer_effect
            {| qIndex := ni; running := true; selected := None;
               locked := false; lockedFor := None; score := score st;
               finished := finished st; timesMs := timesMs st;
               statuses := statuses st; startedAt := now; nowTs := now;
               expired := expired st; raf := raf st |},
          entry')
  else
    Some (timer_effect
            {| qIndex := qIndex st; running := false; selected := selected st;
               locked := locked st; lockedFor := lockedFor st;
               score := score st; finished := true; timesMs := timesMs st;
               statuses := statuses st; startedAt := startedAt st;
               nowTs := nowTs st; expired := expired st; raf := raf st |},
          if isWeekly p then None else entry).

(** The session [finalizeOnLeave] falls back on when nothing usable is
    stored. *)
Definition session_on_leave (p : Params) (qs : list Question) (st : State)
  : WeeklySession :=
  {| date := today p; weekId := week p; qIds := id <$> qs;
     Model.qIndex := qIndex st;
     Model.statuses := fill (length qs) unanswered;
     Model.timesMs := fill (length qs) 0;
     Model.score := score st;
     seed := "WEEKLY-" +:+ today p; tPerQ := total p |}.

(** [function finalizeOnLeave()]: the entry it leaves in [localStorage]. *)
Definition finalizeOnLeave (p : Params) (qs : list Question)
    (st : State) (entry : option item) : option (option item) :=
  if negb (isWeekly p) then Some entry
  else if finished st then Some entry
  else
    let i := qIndex st in
    let isMid := running st && negb (locked st) && bool_decide (i < length qs)%nat in
    let tPerQ := total p in
    if isMid then
      stored ← read_typed entry;
      let sess := default (session_on_leave p qs st) stored in
      let nextI :=
        Nat.min (i + 1) ((if decide (length qs = 0%nat) then 1 else length qs) - 1) in
      Some (write
              {| date := date sess; weekId := weekId sess; qIds := qIds sess;
                 Model.qIndex := nextI;
                 Model.statuses := set (Model.statuses sess) i penalized;
                 Model.timesMs := set (Model.timesMs sess) i (tPerQ * 1000);
                 Model.score := Model.score sess;
                 seed := seed sess; Model.tPerQ := Model.tPerQ sess |})
    else saveWeeklySnapshot p qs st no_opts entry.

(** The state a fresh run starts in, after the per-question reset and the
    timer effect of the same render. *)
Definition fresh_state (now : Z) (len : nat) : State :=
  {| qIndex := 0; running := true; selected := None; locked := false;
     lockedFor := None; score := 0; finished := false;
     timesMs := fill len 0; statuses := fill len unanswered;
     startedAt := now; nowTs := now; expired := false; raf := true |}.

(** "Seed/save a new weekly session" *)
Definition fresh_session (p : Params) (qs : list Question) : WeeklySession :=
  {| date := today p; weekId := week p; qIds := id <$> qs;
     Model.qIndex := 0;
     Model.statuses := fill (length qs) unanswered;
     Model.timesMs := fill (length qs) 0;
     Model.score := 0;
     seed := "WEEKLY-" +:+ today p; tPerQ := total p |}.

(** The "initialize run / resume" effect for the question list [qs], with the
    effects that follow it in the same render. *)
Definition initialize (p : Params) (qs : list Question)
    (resume : option WeeklySession) (now : Z)
    (st : State) (entry : option item) : State * option item :=
  if decide (length qs = 0%nat) then (st, entry)
  else
    let fresh :=
      (fresh_state now (length qs),
       if isWeekly p then write (fresh_session p qs) else entry) in
    match (if isWeekly p then resume else None) with
    | Some r =>
        if decide (length (qIds r) = length qs) then
          ({| qIndex := Nat.min (Model.qIndex r) (length qs - 1);
              running := true; selected := None; locked := false;
              lockedFor := None; score := Model.score r; finished := false;
              timesMs := take (length qs) (Model.timesMs r);
              statuses := take (length qs) (Model.statuses r);
              startedAt := now; nowTs := now; expired := false; raf := true |},
           entry)
        else fresh
    | None => fresh
    end.

(** What entering the quiz leads to. *)
Inductive outcome :=
| Running (st : State) (entry : option item)
| TypeError.

(** Entering the quiz, from the render in which the bank is loaded.

    In that render [resume] is still [null] and the memo has made its own
    pick [qs0].  Its effects run in the order they are declared: the resume
    effect reads the entry and calls [setResume]; the initialize effect, whose
    closure still sees [resume = null], starts a fresh run over [qs0] at time
    [now0] and, in weekly mode, writes a new session over the entry.

    When [setResume] was given an object, a second render follows: the memo
    runs again with it, and so does the initialize effect, at time [now1].
    The object is used at type [WeeklySession].  When it has that shape the
    typed code applies.  When its [qIds] is missing or [null],
    [resume?.qIds?.length] is [undefined], the memo makes a new pick, and
    [resume.qIds.length] in the initialize effect throws unless the pick is
    empty.  Other shapes are outside the typed model ([None]). *)
Definition start (p : Params) (bank : list Question) (now0 now1 : Z)
    (st : State) (entry : option item) : option outcome :=
  let qs0 := questions p (Some bank) None in
  let '(resume, entry1) :=
    if isWeekly p then load_resume (today p) (week p) entry
    else (None, entry) in
  let '(st1, entry2) := initialize p qs0 None now0 st entry1 in
  match resume with
  | None => Some (Running st1 entry2)
  | Some v =>
      match of_json v with
      | Some r =>
          let qs := questions p (Some bank) (Some r) in
          Some (uncurry Running (initialize p qs (Some r) now1 st1 entry2))
      | None =>
          match field "qIds" v with
          | None | Some JNull =>
              if decide (length qs0 = 0%nat) then Some (Running st1 entry2)
              else Some TypeError
          | Some _ => None
          end
      end
  end.

(** The events of a running question, and runs of them. *)
Inductive event :=
| Choose (idx now : Z)
| Frame (t : Z)
| Next (now : Z).

Definition step (p : Params) (qs : list Question) (e : event)
    (st : State) (entry : option item) : option (State * option item) :=
  match e with
  | Choose idx now => choose p qs idx now st entry
  | Frame t => frame p qs t st entry
  | Next now => next p qs now st entry
  end.

Fixpoint run (p : Params) (qs : list Question) (es : list event)
    (st : State) (entry : option item) : option (State * option item) :=
  match es with
  | [] => Some (st, entry)
  | e :: es' =>
      match step p qs e st entry with
      | Some (st', entry') => run p qs es' st' entry'
      | None => None
      end
  end.

Definition is_next (e : event) : bool :=
  match e with Next _ => true | _ => false end.

(** The timer effect has run for the state: a frame is scheduled exactly
    when the question is running and not locked, and [expiredRef] is reset. *)
Definition timer_synced (st : State) : Prop :=
  raf st = running st && negb (locked st) /\ expired st = false.

(** The entry is absent, unparseable, [null], or a [WeeklySession]. *)
Definition usable (entry : option item) : Prop := is_Some (read_typed entry).

(** What the resume effect throws away: an entry that does not parse, that
    parses to [null], or that lacks today's [date] and [weekId]. *)
Definition discarded (today week : string) (entry : option item) : Prop :=
  match entry with
  | None => False
  | Some Garbage => True
  | Some (Text JNull) => True
  | Some (Text v) =>
      ~ (as_str (field "date" v) = Some today
         /\ as_str (field "weekId" v) = Some week)
  end.

(** The shape of the state during an uninterrupted run over [qs]: the
    current index is in range, the questions after it are unanswered, and so
    is the current one while it is unlocked. *)
Definition in_order (qs : list Question) (st : State) : Prop :=
  timer_synced st /\
  (qIndex st < length qs)%nat /\
  (forall j, (qIndex st < j < length qs)%nat ->
             get (statuses st) j = Some unanswered) /\
  (locked st = false -> get (statuses st) (qIndex st) = Some unanswered).

End Session.

(** ** [saveWeeklyAttempt] *)
Module Attempt.

(** The [saving], [saved] and [saveError] cells. *)
Record SaveState := {
  saving : bool;
  saved : bool;
  saveError : option string;
}.

(** The [error] of the insert: its [code] and its [message]. *)
Record PgError := {
  code : option string;
  message : string;
}.

(** How the awaited insert ends: without error, with an [error] object, or
    by throwing a value whose [message], if any, is given. *)
Inductive response :=
| Inserted
| Rejected (e : PgError)
| Thrown (msg : option string).

Definition lower (c : Ascii.ascii) : Ascii.ascii :=
  let k := Ascii.nat_of_ascii c in
  if (65 <=? k)%nat && (k <=? 90)%nat then Ascii.ascii_of_nat (k + 32) else c.

(** [pat] is a prefix of [s], letters compared without case. *)
Fixpoint prefix_ci (pat s : string) : bool :=
  match pat, s with
  | EmptyString, _ => true
  | String a pat', String b s' =>
      bool_decide (lower a = lower b) && prefix_ci pat' s'
  | String _ _, EmptyString => false
  end.

Fixpoint contains_ci (pat s : string) : bool :=
  prefix_ci pat s ||
  match s with
  | EmptyString => false
  | String _ s' => contains_ci pat s'
  end.

(** [/one_per_day/i.test(error.message)] *)
Definition one_per_day (msg : string) : bool := contains_ci "one_per_day" msg.

(** [(error as any).code === "23505" || /one_per_day/i.test(error.message)] *)
Definition is_duplicate (e : PgError) : bool :=
  bool_decide (code e = Some "23505") || one_per_day (message e).

(** [async function saveWeeklyAttempt(totalMs)], from the call to the state
    left when the insert has ended with [r]. *)
Definition saveWeeklyAttempt (isWeekly : bool) (r : response) (s : SaveState)
  : SaveState :=
  if negb isWeekly || saving s || saved s then s
  else
    match r with
    | Inserted => {| saving := false; saved := true; saveError := None |}
    | Rejected e =>
        if is_duplicate e
        then {| saving := false; saved := true; saveError := None |}
        else {| saving := false; saved := saved s; saveError := Some (message e) |}
    | Thrown msg =>
        {| saving := false; saved := saved s;
           saveError := Some (default "Save failed" msg) |}
    end.

(** What the finish screen shows of the save, in weekly mode: the three
    conditional spans of the view.  [CouldntSave msg] is the span with the
    message and the Retry button, whose handler calls [saveWeeklyAttempt]. *)
Inductive SaveLine :=
| SavingResult
| SavedOk
| CouldntSave (msg : string).

(** A string or [null] used as a condition: [null] and the empty string
    count as false. *)
Definition truthy (s : option string) : bool :=
  match s with
  | None | Some EmptyString => false
  | Some (String _ _) => true
  end.

(** [{isWeekly && (<div> {saving && ...} {!saving && saved && ...}
    {!saving && saveError && (...)} </div>)}] *)
Definition save_status (isWeekly : bool) (s : SaveState) : list SaveLine :=
  if isWeekly then
    (if saving s then [SavingResult] else [])
    ++ (if negb (saving s) && saved s then [SavedOk] else [])
    ++ (if negb (saving s) && truthy (saveError s)
        then [CouldntSave (default EmptyString (saveError s))] else [])
  else [].

(** The match of [/one_per_day/i] written from what the pattern means, to
    compare [one_per_day] with: somewhere in the message stand the eleven
    characters of [one_per_day], each letter in lower or in upper case. *)
Definition same_letter (c d : Ascii.ascii) : Prop :=
  c = d \/
  ((97 <= Ascii.nat_of_ascii d <= 122)%nat
   /\ (Ascii.nat_of_ascii c + 32 = Ascii.nat_of_ascii d)%nat).

Definition one_per_day_spec (msg : string) : Prop :=
  exists pre mid post,
    msg = pre +:+ mid +:+ post /\
    Forall2 same_letter (String.list_ascii_of_string mid)
      (String.list_ascii_of_string "one_per_day").

End Attempt.

(** ** The URL parameters [n] and [t] *)
Module UrlParams.

(** A JavaScript number, as far as [Number], [Math.max] and [Math.min] tell
    numbers apart. *)
Inductive jsnum :=
| NaN
| Fin (q : Q)
| PosInf
| NegInf.

(** [Math.max(a, b)]: [NaN] when either argument is. *)
Definition math_max (a b : jsnum) : jsnum :=
  match a, b with
  | NaN, _ | _, NaN => NaN
  | PosInf, _ | _, PosInf => PosInf
  | NegInf, x | x, NegInf => x
  | Fin x, Fin y => if Qle_bool x y then Fin y else Fin x
  end.

(** [Math.min(a, b)] *)
Definition math_min (a b : jsnum) : jsnum :=
  match a, b with
  | NaN, _ | _, NaN => NaN
  | NegInf, _ | _, NegInf => NegInf
  | PosInf, x | x, PosInf => x
  | Fin x, Fin y => if Qle_bool x y then Fin x else Fin y
  end.

(** [Math.max(1, Number(params.get("n") ?? (isWeekly ? 15 : 10)))].  [param]
    is [None] when the URL has no [n], and otherwise what [Number] makes of
    its text ([NaN] for a text that is not a numeric literal, like [abc]). *)
Definition n_of (isWeekly : bool) (param : option jsnum) : jsnum :=
  math_max (Fin 1) (default (Fin (if isWeekly then 15 else 10)) param).

(** [Math.max(5, Math.min(120, Number(params.get("t") ?? (isWeekly ? 12 : 20))))] *)
Definition total_of (isWeekly : bool) (param : option jsnum) : jsnum :=
  math_max (Fin 5)
    (math_min (Fin 120) (default (Fin (if isWeekly then 12 else 20)) param)).

(** [lo <= x]  and  [x <= hi]  as JavaScript compares numbers: false on
    [NaN]. *)
Definition ge (x : jsnum) (lo : Q) : Prop :=
  match x with
  | NaN | NegInf => False
  | PosInf => True
  | Fin q => (lo <= q)%Q
  end.

Definition le (x : jsnum) (hi : Q) : Prop :=
  match x with
  | NaN | PosInf => False
  | NegInf => True
  | Fin q => (q <= hi)%Q
  end.

End UrlParams.

(** ** Quantities read off a running session *)
Module Progress.
Import JS Model Store Selector Session.

(** The number of slots that hold the status [s]. *)
Definition count_status (s : Status) (arr : jsarr Status) : nat :=
  length (filter (fun x => x = Some s) arr).

(** [timesMs.reduce((a, b) => a + b, 0)], defined when every slot holds a
    number.  (On a slot without one the source either skips it, adds 0 or
    ends with [NaN], according to whether it is a hole, [null] or
    [undefined].) *)
Definition total_ms (arr : jsarr Z) : option Z :=
  fold_left (fun acc x => a ← acc; v ← x; Some (a + v)) arr (Some 0).

(** The status [choose(idx)] records for the question [q]. *)
Definition grade (q : Question) (idx : Z) : Status :=
  if bool_decide (idx = correctIndex q) then correct else wrong.

(** Answering every question in turn: [choose] at time [tc], then Next at
    time [tn]. *)
Definition answer_all (answers : list (Z * Z * Z)) : list event :=
  flat_map (fun a => [Choose a.1.1 a.1.2; Next a.2]) answers.

(** The time at which an event happens, and a clock that does not run
    backwards through a list of events starting at [t]. *)
Definition time_of (e : event) : Z :=
  match e with Choose _ now => now | Frame t => t | Next now => now end.

Fixpoint ticking (t : Z) (es : list event) : Prop :=
  match es with
  | [] => True
  | e :: es' => t <= time_of e /\ ticking (time_of e) es'
  end.

(** What an event does to the state, whatever it stores: nothing, an
    accepted answer, an expiry, a sampled frame, a move to the next
    question, or the finish. *)
Inductive moved (p : Params) (qs : list Question) : event -> State -> State -> Prop :=
| moved_none e st : moved p qs e st st
| moved_answer idx now st q :
    locked st = false -> qs !! qIndex st = Some q ->
    moved p qs (Choose idx now) st
      (timer_effect
         {| qIndex := qIndex st; running := false; selected := Some idx;
            locked := true; lockedFor := Some (qIndex st);
            score := if bool_decide (idx = correctIndex q)
                     then score st + 1 else score st;
            finished := finished st;
            timesMs := set (timesMs st) (qIndex st)
                         (Z.min (total p * 1000) (now - startedAt st));
            statuses := set (statuses st) (qIndex st) (grade q idx);
            startedAt := startedAt st; nowTs := nowTs st;
            expired := expired st; raf := raf st |})
| moved_expiry t st :
    raf st = true -> startedAt st + total p * 1000 <= t ->
    moved p qs (Frame t) st
      (timer_effect
         {| qIndex := qIndex st; running := false; selected := selected st;
            locked := true; lockedFor := Some (qIndex st);
            score := score st; finished := finished st;
            timesMs := set (timesMs st) (qIndex st) (total p * 1000);
            statuses :=
              if decide (get (statuses st) (qIndex st) = Some unanswered)
              then set (statuses st) (qIndex st) wrong
              else statuses st;
            startedAt := startedAt st; nowTs := t;
            expired := true; raf := false |})
| moved_sample t st :
    raf st = true ->
    moved p qs (Frame t) st
      {| qIndex := qIndex st; running := running st;
         selected := selected st; locked := locked st;
         lockedFor := lockedFor st; score := score st;
         finished := finished st; timesMs := timesMs st;
         statuses := statuses st; startedAt := startedAt st;
         nowTs := t; expired := expired st; raf := true |}
| moved_next now st :
    (qIndex st < length qs - 1)%nat ->
    moved p qs (Next now) st
      (timer_effect
         {| qIndex := S (qIndex st); running := true; selected := None;
            locked := false; lockedFor := None; score := score st;
            finished := finished st; timesMs := timesMs st;
            statuses := statuses st; startedAt := now; nowTs := now;
            expired := expired st; raf := raf st |})
| moved_finish now st :
    ~ (qIndex st < length qs - 1)%nat ->
    moved p qs (Next now) st
      (timer_effect
         {| qIndex := qIndex st; running := false; selected := selected st;
            locked := locked st; lockedFor := lockedFor st;
            score := score st; finished := true; timesMs := timesMs st;
            statuses := statuses st; startedAt := startedAt st;
            nowTs := nowTs st; expired := expired st; raf := raf st |}).

(** The shape of the state during an uninterrupted run: in order, one slot
    per question, every time slot filled, and the score the number of
    [correct] statuses. *)
Definition steady (qs : list Question) (st : State) : Prop :=
  in_order qs st /\
  length (statuses st) = length qs /\
  length (timesMs st) = length qs /\
  Forall is_Some (timesMs st) /\
  score st = Z.of_nat (count_status correct (statuses st)).

(** The stored session during an uninterrupted weekly run: the state in
    memory with the ids, date, week, seed and budget of the run, or nothing
    once the session is finished. *)
Definition stored_mirrors (p : Params) (qs : list Question) (st : State)
    (entry : option item) : Prop :=
  (entry = None /\ finished st = true)
  \/ entry = write (session_of_refs p qs st).

(** A slot within bounds, if it holds a number. *)
Definition within (lo hi : Z) (x : option Z) : Prop :=
  forall v, x = Some v -> lo <= v <= hi.

End Progress.

(** ** What the question screen shows *)
Module View.
Import JS Model Store Selector Session Progress.

(** [const endsAt = startedAt + total * 1000] *)
Definition endsAt (p : Params) (st : State) : Z := startedAt st + total p * 1000.

(** [const remainingMs = Math.max(0, endsAt - nowTs)] *)
Definition remainingMs (p : Params) (st : State) : Z :=
  Z.max 0 (endsAt p st - nowTs st).

(** [const remainingLabel = Math.ceil(remainingMs / 1000)].  The quotient is
    taken exactly; for the budgets the URL allows (at most 120 seconds) the
    rounding of the division cannot reach the next integer. *)
Definition remainingLabel (p : Params) (st : State) : Z :=
  Qceiling (Qdiv (inject_Z (remainingMs p st)) (inject_Z 1000)).

(** [const isThisLocked = locked && lockedFor === qIndex] *)
Definition isThisLocked (st : State) : bool :=
  locked st && bool_decide (lockedFor st = Some (qIndex st)).

(** The four class strings of [optionClass], the first with and without
    [option-selected]. *)
Inductive OptionClass :=
| option_plain
| option_selected
| option_correct
| option_chosen_wrong
| option_dimmed.

(** [function optionClass(idx)] for the current question [q]. *)
Definition optionClass (q : Question) (st : State) (idx : Z) : OptionClass :=
  if negb (isThisLocked st) then
    if bool_decide (selected st = Some idx) then option_selected else option_plain
  else
    let isCorrect := bool_decide (idx = correctIndex q) in
    let isChosenWrong :=
      bool_decide (selected st = Some idx)
      && negb (bool_decide (idx = correctIndex q)) in
    if isCorrect then option_correct
    else if isChosenWrong then option_chosen_wrong
    else option_dimmed.

(** [const showTimesUp = isThisLocked && selected === null] *)
Definition showTimesUp (st : State) : bool :=
  isThisLocked st && bool_decide (selected st = None).

(** What a locked question of an uninterrupted run records of the way it was
    locked: an answer, with its grade, or the expiry, with [wrong], the whole
    budget and the clock at or past the deadline.  An unlocked question has
    no selection. *)
Definition feedback (p : Params) (qs : list Question) (st : State) : Prop :=
  (locked st = false -> selected st = None /\ lockedFor st = None) /\
  (locked st = true ->
   lockedFor st = Some (qIndex st) /\
   match selected st with
   | Some idx =>
       exists q, qs !! qIndex st = Some q
                 /\ get (statuses st) (qIndex st) = Some (grade q idx)
   | None =>
       get (statuses st) (qIndex st) = Some wrong
       /\ get (timesMs st) (qIndex st) = Some (total p * 1000)
       /\ endsAt p st <= nowTs st
   end).

End View.

(** ** The finish screen *)
Module Finish.

(** [function formatMMSS(ms)]: the minutes and the seconds it prints, the
    seconds on two digits.  For a whole number of milliseconds below 2^53
    the quotients of the source, in double precision, have these integer
    parts. *)
Definition formatMMSS (ms : Z) : Z * Z :=
  let totalSec := ms / 1000 in
  let m := totalSec / 60 in
  let s := Z.rem totalSec 60 in
  (m, s).

End Finish.

(** ** The calls of [saveWeeklyAttempt] *)
Module Attempts.
Import Attempt.

(** The calls of [saveWeeklyAttempt] of one finish screen, the one of the
    finish effect and those of the Retry button, each with the way its
    insert ends. *)
Definition attempts (isWeekly : bool) (rs : list response) (s : SaveState)
  : SaveState :=
  fold_left (fun s r => saveWeeklyAttempt isWeekly r s) rs s.

(** The insert went through, or the row was there already: the error has
    the code 23505 or names the constraint [one_per_day]. *)
Definition accepted (r : response) : Prop :=
  match r with
  | Inserted => True
  | Rejected e => code e = Some "23505" \/ one_per_day_spec (message e)
  | Thrown _ => False
  end.

End Attempts.

(** ** [deviceId] *)
Module Device.

(** [function deviceId()] over [localStorage], a map from keys to strings.
    [fresh] is the identifier [crypto.randomUUID()], or the [Math.random()]
    expression, would return at this call.  [setItem] is taken to succeed. *)
Definition deviceId (fresh : string) (ls : gmap string string)
  : string * gmap string string :=
  match ls !! "device_id" with
  | Some existing => (existing, ls)
  | None => (fresh, <["device_id" := fresh]> ls)
  end.

End Device.

(** ** Dates *)
Module Calendar.

(** The day and year functions the ECMAScript specification defines for
    [Date], on time values (milliseconds since 1970-01-01 UTC). *)
Definition msPerDay : Z := 86400000.

Definition Day (t : Z) : Z := t / msPerDay.

Definition TimeWithinDay (t : Z) : Z := t mod msPerDay.

Definition DayFromYear (y : Z) : Z :=
  365 * (y - 1970) + (y - 1969) / 4 - (y - 1901) / 100 + (y - 1601) / 400.

(** The year of a day number: the largest [y] with [DayFromYear y <= day].  It
    is one of the three years around [1970 + day * 400 / 146097] (lemma
    [year_of_day_spec]). *)
Definition year_of_day (day : Z) : Z :=
  let y0 := 1970 + day * 400 / 146097 in
  if DayFromYear (y0 + 1) <=? day then y0 + 1
  else if DayFromYear y0 <=? day then y0
  else y0 - 1.

Definition YearFromTime (t : Z) : Z := year_of_day (Day t).

Definition InLeapYear (t : Z) : Z :=
  DayFromYear (YearFromTime t + 1) - DayFromYear (YearFromTime t) - 365.

Definition DayWithinYear (t : Z) : Z := Day t - DayFromYear (YearFromTime t).

(** The day within the year on which month [m] (0 to 11) starts. *)
Definition month_start (m leap : Z) : Z :=
  if m <=? 0 then 0
  else if m =? 1 then 31
  else if m =? 2 then 59 + leap
  else if m =? 3 then 90 + leap
  else if m =? 4 then 120 + leap
  else if m =? 5 then 151 + leap
  else if m =? 6 then 181 + leap
  else if m =? 7 then 212 + leap
  else if m =? 8 then 243 + leap
  else if m =? 9 then 273 + leap
  else if m =? 10 then 304 + leap
  else 334 + leap.

Definition MonthFromTime (t : Z) : Z :=
  let d := DayWithinYear t in
  let leap := InLeapYear t in
  if d <? 31 then 0
  else if d <? 59 + leap then 1
  else if d <? 90 + leap then 2
  else if d <? 120 + leap then 3
  else if d <? 151 + leap then 4
  else if d <? 181 + leap then 5
  else if d <? 212 + leap then 6
  else if d <? 243 + leap then 7
  else if d <? 273 + leap then 8
  else if d <? 304 + leap then 9
  else if d <? 334 + leap then 10
  else 11.

Definition DateFromTime (t : Z) : Z :=
  DayWithinYear t - month_start (MonthFromTime t) (InLeapYear t) + 1.

Definition WeekDay (t : Z) : Z := (Day t + 4) mod 7.

(** [MakeDay(year, month, date)] for integers. *)
Definition MakeDay (year month date : Z) : Z :=
  let ym := year + month / 12 in
  let mn := month mod 12 in
  DayFromYear ym
  + month_start mn (DayFromYear (ym + 1) - DayFromYear ym - 365)
  + date - 1.

(** [Date.UTC(year, month, date)]: a year from 0 to 99 stands for 1900 plus
    that year.  The result is taken inside the range of [Date], where
    [TimeClip] leaves it as it is. *)
Definition Date_UTC (year month date : Z) : Z :=
  let yr := if (0 <=? year) && (year <=? 99) then 1900 + year else year in
  msPerDay * MakeDay yr month date.

(** [date.setUTCDate(dt)]: the new time value of [date]. *)
Definition setUTCDate (t dt : Z) : Z :=
  msPerDay * MakeDay (YearFromTime t) (MonthFromTime t) dt + TimeWithinDay t.

(** [function isoWeek(d)], on the local year, month (0 to 11) and day of the
    month of [d].  [Math.ceil] is applied to an exact quotient: the
    difference of the two time values is a whole number of days. *)
Definition isoWeek (y m d : Z) : Z * Z :=
  let date := Date_UTC y m d in
  let dayNum := if WeekDay date =? 0 then 7 else WeekDay date in
  let date := setUTCDate date (DateFromTime date + 4 - dayNum) in
  let yearStart := Date_UTC (YearFromTime date) 0 1 in
  let weekNo :=
    Qceiling ((inject_Z (date - yearStart) / inject_Z 86400000 + 1) / 7) in
  (YearFromTime date, weekNo).

End Calendar.

(** ** Sample data for the closed examples *)
Module Fixtures.
Import Shuffle Model Store Selector Session.

Definition mkq (i : string) (d : Difficulty) (c : Z) : Question :=
  {| id := i; category := "cells"; difficulty := d; prompt := "";
     options := ["a"; "b"; "c"; "d"]; correctIndex := c; explanation := None |}.

(** A bank of two hard questions. *)
Definition bank2 : list Question := [mkq "h1" hard 2; mkq "h2" hard 1].

(** A bank of twelve hard, three medium and one easy question. *)
Definition bank16 : list Question :=
  ((fun i => mkq i hard 0) <$>
     ["h01"; "h02"; "h03"; "h04"; "h05"; "h06";
      "h07"; "h08"; "h09"; "h10"; "h11"; "h12"])
  ++ ((fun i => mkq i medium 1) <$> ["m1"; "m2"; "m3"])
  ++ [mkq "e1" easy 3].

(** [/quiz?mode=weekly&n=<n>] on 10 March 2025, with the default 12 seconds
    per question. *)
Definition weekly (n : Z) : Params :=
  {| isWeekly := true; p_category := ""; p_difficulty := "easy"; n := n;
     total := 12; today := "2025-03-10"; week := "2025-W11";
     normalSeed := units_of "NORMAL-1" |}.

(** A stored object with today's [date] and [weekId] and nothing else. *)
Definition dated_only : json :=
  JObj [("date", JStr "2025-03-10"); ("weekId", JStr "2025-W11")].

(** The questions picked from [bank2] on that day, for any [n] above one. *)
Definition qs2 : list Question := weekly_pick bank2 15 "2025-03-10".

(** A first visit: the session starts from an empty entry, the first
    question is answered correctly after three seconds, and the page is left
    before Next is pressed. *)
Definition answered_then_left : option (option item) :=
  match start (weekly 15) bank2 1000 1001 (mount 0) None with
  | Some (Running st1 e1) =>
      match choose (weekly 15) qs2 2 4001 st1 e1 with
      | Some (st2, e2) => finalizeOnLeave (weekly 15) qs2 st2 e2
      | None => None
      end
  | _ => None
  end.

(** The page is opened again later the same day. *)
Definition reloaded : option outcome :=
  match answered_then_left with
  | Some e3 => start (weekly 15) bank2 9000 9001 (mount 8990) e3
  | None => None
  end.

(** A one-question session played to the end. *)
Definition played_out : option (State * option item) :=
  match start (weekly 1) bank2 1000 1001 (mount 0) None with
  | Some (Running st1 e1) =>
      run (weekly 1) (weekly_pick bank2 1 "2025-03-10")
        [Choose 2 4001; Next 5000] st1 e1
  | _ => None
  end.

(** The session a visit with [n=1] leaves behind once its only question is
    answered. *)
Definition one_question_session : WeeklySession :=
  {| date := "2025-03-10"; weekId := "2025-W11"; qIds := ["h1"];
     Model.qIndex := 0; Model.statuses := [Some correct];
     Model.timesMs := [Some 3001]; Model.score := 1;
     seed := "WEEKLY-2025-03-10"; tPerQ := 12 |}.

End Fixtures.

(** ** More sample data *)
Module Scenarios.
Import Model Selector Session.

(** [/quiz?category=cells&difficulty=hard]: a practice quiz of ten questions
    with 20 seconds each. *)
Definition practice : Params :=
  {| isWeekly := false; p_category := "cells"; p_difficulty := "hard";
     n := 10; total := 20; today := "2025-03-10"; week := "2025-W11";
     normalSeed := Shuffle.units_of "NORMAL-1" |}.

(** The first question answered after three seconds, Next, and the second
    question left to expire. *)
Definition answer_then_expire : list event :=
  [Choose 2 4001; Next 5000; Frame 9000; Frame 17000].

End Scenarios.

(* ================================================================== *)
(** * Properties *)
(* ================================================================== *)

(** ** 32-bit arithmetic *)
Section JS_facts.
Import JS.

Lemma to_uint32_range x : 0 <= to_uint32 x < 2^32.
Proof. unfold to_uint32. apply Z.mod_pos_bound. lia. Qed.

Lemma to_int32_range x : - 2^31 <= to_int32 x < 2^31.
Proof.
  unfold to_int32.
  pose proof (Z.mod_pos_bound (x + 2^31) (2^32) ltac:(lia)). lia.
Qed.

(** Both conversions keep the residue modulo 2^32. *)
Lemma to_int32_mod x : to_int32 x mod 2^32 = x mod 2^32.
Proof.
  unfold to_int32.
  rewrite Zminus_mod, Z.mod_mod by lia.
  rewrite <- Zminus_mod. f_equal. lia.
Qed.

Lemma to_uint32_small x : 0 <= x < 2^32 -> to_uint32 x = x.
Proof. intros. unfold to_uint32. apply Z.mod_small. assumption. Qed.

(** Exclusive or commutes with truncation to the low 32 bits. *)
Lemma lxor_mod32 a b : Z.lxor a b mod 2^32 = Z.lxor (a mod 2^32) (b mod 2^32).
Proof.
  apply Z.bits_inj'. intros n Hn.
  rewrite Z.lxor_spec.
  destruct (Z.lt_ge_cases n 32) as [Hlt | Hge].
  - rewrite !Z.mod_pow2_bits_low by lia. now rewrite Z.lxor_spec.
  - rewrite !Z.mod_pow2_bits_high by lia. reflexivity.
Qed.

Lemma xor32_mod a b : xor32 a b mod 2^32 = Z.lxor (a mod 2^32) (b mod 2^32).
Proof.
  unfold xor32. rewrite to_int32_mod, lxor_mod32.
  now rewrite !to_int32_mod.
Qed.

Lemma imul_mod a b : imul a b mod 2^32 = (a mod 2^32 * b) mod 2^32.
Proof.
  unfold imul. rewrite to_int32_mod.
  rewrite Z.mul_mod by lia. rewrite !to_int32_mod.
  rewrite <- Z.mul_mod by lia.
  now rewrite Z.mul_mod_idemp_l by lia.
Qed.

End JS_facts.

(** ** [hash] and [prng] *)
Section Shuffle_facts.
Import JS Shuffle.

(** The loop of [hash] and the fold of the specification stay congruent
    modulo 2^32, whatever signed representative the source holds in [h]. *)
Lemma hash_fold_refines (str : code_units) : forall h acc,
  h mod 2^32 = acc mod 2^32 ->
  fold_left hash_step str h mod 2^32
  = fold_left (fun acc c => (Z.lxor acc c * 16777619) mod 2^32) str acc mod 2^32.
Proof.
  induction str as [| c str IH]; intros h acc Hcong; simpl.
  - exact Hcong.
  - apply IH. unfold hash_step.
    rewrite imul_mod, xor32_mod, Z.mod_mod by lia.
    rewrite <- (Z.mul_mod_idemp_l (Z.lxor acc c)) by lia.
    rewrite lxor_mod32. now rewrite Hcong.
Qed.

Lemma fnv1a_spec_range (str : code_units) : 0 <= fnv1a_spec str < 2^32.
Proof.
  unfold fnv1a_spec.
  assert (Hgen : forall acc, 0 <= acc < 2^32 ->
    0 <= fold_left (fun acc c => (Z.lxor acc c * 16777619) mod 2^32) str acc < 2^32).
  { induction str as [| c str IH]; intros acc Hacc; simpl; [exact Hacc |].
    apply IH. apply Z.mod_pos_bound. lia. }
  apply Hgen. lia.
Qed.

(** The sum formed by the generator is an integer below 2^53: a double holds
    it exactly. *)
Lemma lcg_exact a : 0 <= a < 2^32 -> 0 <= a * 1664525 + 1013904223 < 2^53.
Proof. lia. Qed.

Lemma lcg_next_range a : 0 <= lcg_next a < 2^32.
Proof. apply to_uint32_range. Qed.

(** A whole number below 2^53 is a double. *)
Lemma round_double_small n : n < 2^53 -> round_double n = n.
Proof.
  intros Hn. unfold round_double.
  destruct (Z.leb_spec (Z.log2 n - 52) 0) as [_ | He]; [reflexivity |].
  exfalso.
  destruct (Z.le_gt_cases n 0) as [Hle | Hpos].
  - rewrite Z.log2_nonpos in He by assumption. lia.
  - assert (Z.log2 n < 53) by (apply Z.log2_lt_pow2; lia). lia.
Qed.

(** The rounding is not negative and adds at most one part in 2^53. *)
Lemma round_double_bounds n :
  0 <= n -> 0 <= round_double n /\ 2^53 * (round_double n - n) <= n.
Proof.
  intros Hn. unfold round_double.
  destruct (Z.leb_spec (Z.log2 n - 52) 0) as [_ | He]; [lia |].
  assert (Hpos : 0 < n).
  { destruct (Z.eq_dec n 0) as [-> | ?]; [simpl in He; lia | lia]. }
  set (e := Z.log2 n - 52) in *.
  pose proof (Z.log2_spec n Hpos) as [Hlow _].
  replace (Z.log2 n) with (53 + (e - 1)) in Hlow by lia.
  rewrite Z.pow_add_r in Hlow by lia.
  replace (2 ^ e) with (2 * 2 ^ (e - 1))
    by (rewrite <- Z.pow_succ_r by lia; f_equal; lia).
  set (half := 2 ^ (e - 1)) in *.
  assert (Hhalf : 0 < half) by (apply Z.pow_pos_nonneg; lia).
  pose proof (Z.div_mod n (2 * half) ltac:(lia)) as Hdm.
  pose proof (Z.mod_pos_bound n (2 * half) ltac:(lia)) as Hr.
  assert (Hq : 0 <= n / (2 * half)) by (apply Z.div_pos; lia).
  set (q := n / (2 * half)) in *. set (r := n mod (2 * half)) in *.
  destruct (Z.ltb_spec r half); [nia |].
  destruct (Z.ltb_spec half r); [nia |].
  destruct (Z.even q); nia.
Qed.

(** [Math.floor(rnd() * (i + 1))] is the integer quotient by 2^32 of the
    double nearest to [a * (i + 1)]. *)
Lemma pick_quotient a i :
  pick (a # 4294967296) i
  = Z.to_nat (round_double (a * (Z.of_nat i + 1)) / 2^32).
Proof. reflexivity. Qed.

(** While [i + 1] is at most 2^21 the product is exact: the index is the
    quotient of [a * (i + 1)] by 2^32. *)
Lemma pick_exact a i :
  0 <= a < 2^32 -> Z.of_nat i + 1 <= 2^21 ->
  pick (a # 4294967296) i = Z.to_nat (a * (Z.of_nat i + 1) / 2^32).
Proof.
  intros Ha Hi. rewrite pick_quotient, round_double_small; [reflexivity | nia].
Qed.

(** Above 2^21 the rounding of the product can reach the next index. *)
Example mul_double_rounded :
  floor (mul_double (3818214741 # 4294967296) 4194307) = 3728728 /\
  3818214741 * 4194307 / 2^32 = 3728727.
Proof. split; vm_compute; reflexivity. Qed.

(** The index drawn in iteration [i] is at most [i], rounded or not. *)
Lemma pick_le a i : 0 <= a < 2^32 -> (pick (a # 4294967296) i <= i)%nat.
Proof.
  intros Ha. rewrite pick_quotient.
  set (m := Z.of_nat i + 1).
  assert (Hm : 0 < m) by (unfold m; lia).
  assert (HN : 0 <= a * m <= (2^32 - 1) * m) by nia.
  destruct (round_double_bounds (a * m) ltac:(lia)) as [H0 Hup].
  assert (round_double (a * m) / 2^32 < m).
  { apply Z.div_lt_upper_bound; lia. }
  assert (0 <= round_double (a * m) / 2^32) by (apply Z.div_pos; lia).
  unfold m in *. lia.
Qed.

(** [hash] is the fold of the specification, and seeds the generator with
    it. *)
Lemma hash_refines_spec (str : code_units) :
  hash str = fnv1a_spec str /\ prng_init (hash str) = fnv1a_spec str.
Proof.
  assert (Hh : hash str = fnv1a_spec str).
  { unfold hash, to_uint32.
    rewrite (hash_fold_refines str _ 2166136261) by (now rewrite Z.mod_mod).
    apply Z.mod_small. apply fnv1a_spec_range. }
  split; [exact Hh |]. rewrite Hh. unfold prng_init, to_uint32.
  apply Z.mod_small. apply fnv1a_spec_range.
Qed.

(** The code units of a string, read off its characters, and of a string
    built from two. *)
Lemma units_of_chars (s : string) :
  units_of s
  = (fun c => Z.of_N (Ascii.N_of_ascii c)) <$> String.list_ascii_of_string s.
Proof. induction s as [| c s IH]; simpl; [reflexivity | now rewrite IH]. Qed.

Lemma units_of_app (s1 s2 : string) :
  units_of (s1 +:+ s2) = units_of s1 ++ units_of s2.
Proof. induction s1 as [| c s1 IH]; simpl; [reflexivity | now rewrite IH]. Qed.

(** *** C7 *)

(** C7.  For every string (sequence of UTF-16 code units) [str], [hash str] is
    the FNV-1a fold of the specification: start from 2166136261, XOR each
    character code in, multiply by 16777619 modulo 2^32.  For every state [a],
    one call of the generator moves [a] to
    [(a * 1664525 + 1013904223) mod 2^32] and returns that state divided by
    2^32, a value in [0, 1). *)
Theorem hash_fnv1a_prng_lcg (str : code_units) (a : Z) :
  hash str = fnv1a_spec str /\
  snd (prng_call a) = (a * 1664525 + 1013904223) mod 2^32 /\
  (fst (prng_call a) == inject_Z (snd (prng_call a)) / inject_Z (2^32))%Q /\
  (0 <= fst (prng_call a))%Q /\ (fst (prng_call a) < 1)%Q.
Proof.
  split; [| split; [| split; [| split]]].
  - unfold hash, to_uint32.
    rewrite (hash_fold_refines str _ 2166136261) by (now rewrite Z.mod_mod).
    apply Z.mod_small. apply fnv1a_spec_range.
  - reflexivity.
  - simpl. unfold Qeq, Qdiv, Qmult, Qinv, inject_Z. simpl. lia.
  - simpl. pose proof (lcg_next_range a). unfold Qle. simpl. lia.
  - simpl. pose proof (lcg_next_range a). unfold Qlt. simpl. lia.
Qed.

End Shuffle_facts.

(** ** [seededShuffle] *)
Section Shuffle_perm.
Import JS Shuffle.
Context {T : Type}.
Implicit Types (l copy : list T) (h : heap T).

(** Writing [y] over an occurrence of [x] and putting [x] in front is the
    same multiset as putting [y] in front. *)
Lemma insert_cons_perm l : forall j x y,
  l !! j = Some x -> x :: <[j := y]> l ≡ₚ y :: l.
Proof.
  induction l as [| z l IH]; intros j x y Hj; [discriminate |].
  destruct j as [| j]; simpl in *.
  - injection Hj as ->. apply perm_swap.
  - rewrite (perm_swap z x), (IH j x y Hj). apply perm_swap.
Qed.

Lemma swap_slots_perm l : forall i j ci cj,
  l !! i = Some ci -> l !! j = Some cj ->
  <[j := ci]> (<[i := cj]> l) ≡ₚ l.
Proof.
  induction l as [| z l IH]; intros i j ci cj Hi Hj; [discriminate |].
  destruct i as [| i], j as [| j]; simpl in *.
  - injection Hi as ->. reflexivity.
  - injection Hi as ->. now apply insert_cons_perm.
  - injection Hj as ->. now apply insert_cons_perm.
  - constructor. now apply IH.
Qed.

Lemma swap_perm copy i j : swap copy i j ≡ₚ copy.
Proof.
  unfold swap.
  destruct (copy !! j) as [cj |] eqn:Hj; [| reflexivity].
  destruct (copy !! i) as [ci |] eqn:Hi; [| reflexivity].
  now apply swap_slots_perm.
Qed.

Lemma swap_length copy i j : length (swap copy i j) = length copy.
Proof. apply Permutation_length, swap_perm. Qed.

(** Inside the loop both reads of the swap hit a slot. *)
Lemma swap_in_range copy i j :
  (j <= i < length copy)%nat ->
  exists ci cj, copy !! i = Some ci /\ copy !! j = Some cj /\
                swap copy i j = <[j := ci]> (<[i := cj]> copy).
Proof.
  intros [Hji Hi].
  destruct (lookup_lt_is_Some_2 copy i Hi) as [ci Hci].
  destruct (lookup_lt_is_Some_2 copy j ltac:(lia)) as [cj Hcj].
  exists ci, cj. unfold swap. now rewrite Hci, Hcj.
Qed.

(** Every swap of the loop reads two slots of the array. *)
Lemma shuffle_loop_in_range i : forall a copy,
  (i < length copy \/ i = 0)%nat ->
  shuffle_loop_checked i a copy = Some (shuffle_loop i a copy).
Proof.
  induction i as [| i IH]; intros a copy Hi; simpl; [reflexivity |].
  assert (Hlt : (S i < length copy)%nat) by lia.
  pose proof (pick_le (lcg_next a) (S i) (lcg_next_range a)) as Hj.
  destruct (swap_in_range copy (S i) (pick (lcg_next a # 4294967296) (S i)))
    as (ci & cj & Hci & Hcj & Hswap); [lia |].
  rewrite Hswap, Hci, Hcj. apply IH.
  rewrite !length_insert. lia.
Qed.

Lemma seededShuffle_in_range l seedStr :
  shuffle_loop_checked (length l - 1) (prng_init (hash seedStr)) l
  = Some (seededShuffle l seedStr).
Proof. apply shuffle_loop_in_range. destruct l; simpl; lia. Qed.

Lemma shuffle_loop_perm i : forall a copy, shuffle_loop i a copy ≡ₚ copy.
Proof.
  induction i as [| i IH]; intros a copy; simpl; [reflexivity |].
  rewrite IH. apply swap_perm.
Qed.

Lemma seededShuffle_perm l seedStr : seededShuffle l seedStr ≡ₚ l.
Proof. apply shuffle_loop_perm. Qed.

Lemma seededShuffle_length l seedStr : length (seededShuffle l seedStr) = length l.
Proof. apply Permutation_length, seededShuffle_perm. Qed.

(** The swap of the source exchanges two slots. *)
Lemma swap_exchange copy i j : swap copy i j = exchange copy i j.
Proof.
  unfold swap, exchange.
  destruct (copy !! i) as [ci |] eqn:Hi, (copy !! j) as [cj |] eqn:Hj;
    try reflexivity.
  destruct (decide (i = j)) as [-> | Hne].
  - congruence.
  - now apply list_insert_insert_ne.
Qed.

(** Up to 2^21 elements, where the products of the source are exact,
    [seededShuffle] is the shuffle of the specification. *)
Lemma shuffle_loop_refines i : forall a copy,
  Z.of_nat i + 1 <= 2^21 ->
  shuffle_loop i a copy = fisher_yates_spec i a copy.
Proof.
  induction i as [| i IH]; intros a copy Hi; [reflexivity |].
  cbn [shuffle_loop fisher_yates_spec prng_call].
  rewrite pick_exact by (try apply lcg_next_range; lia).
  rewrite swap_exchange. apply IH. lia.
Qed.

Lemma seededShuffle_refines l seedStr :
  Z.of_nat (length l) <= 2^21 ->
  seededShuffle l seedStr = seededShuffle_spec l seedStr.
Proof.
  intros Hl. unfold seededShuffle, seededShuffle_spec.
  rewrite (proj2 (hash_refines_spec seedStr)).
  apply shuffle_loop_refines. lia.
Qed.

(** The in-place loop touches the copy only, and leaves in it what the loop
    over its contents computes. *)
Lemma shuffle_loop_ref_spec i : forall a (r : positive) l h,
  h !! r = Some l ->
  shuffle_loop_ref i a r h = <[r := shuffle_loop i a l]> h.
Proof.
  induction i as [| i IH]; intros a r l h Hcopy; simpl.
  - symmetry. now apply insert_id.
  - erewrite IH.
    + apply map_eq. intros k.
      destruct (decide (k = r)) as [-> | Hne].
      * now rewrite !lookup_insert_eq.
      * rewrite !lookup_insert_ne by done. now rewrite lookup_alter_ne.
    + rewrite lookup_alter_eq, Hcopy. reflexivity.
Qed.

Lemma seededShuffle_ref_spec arr seedStr h l :
  h !! arr = Some l ->
  seededShuffle_ref arr seedStr h
  = Some (fresh (dom h), <[fresh (dom h) := seededShuffle l seedStr]> h).
Proof.
  intros Harr. unfold seededShuffle_ref, alloc. rewrite Harr.
  erewrite shuffle_loop_ref_spec by apply lookup_insert_eq.
  now rewrite insert_insert_eq.
Qed.

Lemma fresh_unused h : h !! fresh (dom h) = None.
Proof. apply not_elem_of_dom, is_fresh. Qed.

(** *** C1 *)

(** C1.  [seededShuffle(L, s)] is pure and deterministic.  Run twice in a row
    on the array [arr] holding [L], in any store of arrays: each call returns
    a reference that was not in use before the call (a new sequence), no
    array that existed before the calls is written (the input is not
    mutated), both results hold the same sequence, and that sequence is a
    permutation of [L]. *)
Theorem seededShuffle_pure_deterministic h arr (L : list T) (s : code_units) :
  h !! arr = Some L ->
  exists r1 h1 r2 h2,
    seededShuffle_ref arr s h = Some (r1, h1) /\
    seededShuffle_ref arr s h1 = Some (r2, h2) /\
    h !! r1 = None /\ h1 !! r2 = None /\
    (forall k, is_Some (h !! k) -> h2 !! k = h !! k) /\
    h2 !! arr = Some L /\
    h2 !! r1 = Some (seededShuffle L s) /\
    h2 !! r2 = Some (seededShuffle L s) /\
    seededShuffle L s ≡ₚ L.
Proof.
  intros Harr.
  set (r1 := fresh (dom h)).
  set (h1 := <[r1 := seededShuffle L s]> h).
  assert (Hr1 : h !! r1 = None) by apply fresh_unused.
  assert (Hne1 : r1 <> arr) by congruence.
  assert (Harr1 : h1 !! arr = Some L).
  { unfold h1. now rewrite lookup_insert_ne. }
  set (r2 := fresh (dom h1)).
  assert (Hr2 : h1 !! r2 = None) by apply fresh_unused.
  assert (Hne2 : r2 <> r1).
  { intros E. rewrite E in Hr2. unfold h1 in Hr2.
    now rewrite lookup_insert_eq in Hr2. }
  exists r1, h1, r2, (<[r2 := seededShuffle L s]> h1).
  repeat split.
  - now apply seededShuffle_ref_spec.
  - now apply seededShuffle_ref_spec.
  - exact Hr1.
  - exact Hr2.
  - intros k [v Hk].
    assert (k <> r1) by congruence.
    assert (h1 !! k = h !! k) as Hk1.
    { unfold h1. now rewrite lookup_insert_ne. }
    assert (k <> r2) by congruence.
    now rewrite lookup_insert_ne.
  - rewrite lookup_insert_ne by congruence. exact Harr1.
  - rewrite lookup_insert_ne by done. unfold h1. apply lookup_insert_eq.
  - apply lookup_insert_eq.
  - apply seededShuffle_perm.
Qed.

End Shuffle_perm.

(** The theorem at a concrete store: one array of three elements. *)
Lemma seededShuffle_pure_deterministic_witness :
  let h : Shuffle.heap Z := {[ 1%positive := [10; 20; 30] ]} in
  let s := Shuffle.units_of "WEEKLY-FINAL-2025-03-10" in
  h !! 1%positive = Some [10; 20; 30] /\
  exists r1 h1 r2 h2,
    Shuffle.seededShuffle_ref 1%positive s h = Some (r1, h1) /\
    Shuffle.seededShuffle_ref 1%positive s h1 = Some (r2, h2) /\
    h !! r1 = None /\ h1 !! r2 = None /\
    (forall k, is_Some (h !! k) -> h2 !! k = h !! k) /\
    h2 !! 1%positive = Some [10; 20; 30] /\
    h2 !! r1 = Some (Shuffle.seededShuffle [10; 20; 30] s) /\
    h2 !! r2 = Some (Shuffle.seededShuffle [10; 20; 30] s) /\
    Shuffle.seededShuffle [10; 20; 30] s ≡ₚ [10; 20; 30].
Proof.
  intros h s. split; [reflexivity |].
  apply (seededShuffle_pure_deterministic h 1%positive [10; 20; 30] s).
  reflexivity.
Defined.

(** ** The weekly pick *)
Section Selector_facts.
Import JS Shuffle Model Selector.

Section Filters.
Context {A : Type} (P Q : A -> Prop) `{!forall x, Decision (P x)}
        `{!forall x, Decision (Q x)}.

Lemma filter_all (l : list A) : Forall P l -> filter P l = l.
Proof.
  induction 1 as [| x l Hx _ IH]; [reflexivity |].
  rewrite filter_cons_True by assumption. now f_equal.
Qed.

Lemma filter_none (l : list A) : Forall (fun x => ~ P x) l -> filter P l = [].
Proof.
  induction 1 as [| x l Hx _ IH]; [reflexivity |].
  now rewrite filter_cons_False.
Qed.

Lemma Forall_filter_self (l : list A) : Forall P (filter P l).
Proof.
  apply Forall_forall. intros x Hx.
  now apply list_elem_of_filter in Hx as [HP _].
Qed.

(** Two disjoint filters select at most the whole list. *)
Lemma length_filter_disjoint (l : list A) :
  (forall x, P x -> ~ Q x) ->
  (length (filter P l) + length (filter Q l) <= length l)%nat.
Proof.
  intros Hdisj. induction l as [| x l IH]; [reflexivity |].
  rewrite !filter_cons.
  destruct (decide (P x)) as [HP | HnP], (decide (Q x)) as [HQ | HnQ];
    simpl; try lia.
  exfalso. exact (Hdisj x HP HQ).
Qed.

End Filters.

Lemma slice0_take {A} (l : list A) (e : Z) :
  0 <= e -> slice0 l e = take (Z.to_nat e) l.
Proof.
  intros He. unfold slice0.
  destruct (Z.ltb_spec e 0); [lia | reflexivity].
Qed.

Lemma need_hard_15 : need_hard 15 = 12.
Proof. reflexivity. Qed.

(** The rounding of the source, in integers. *)
Lemma need_hard_quotient target : need_hard target = (8 * target + 5) / 10.
Proof.
  unfold need_hard, round, Qfloor, Qplus, Qmult, inject_Z. simpl.
  f_equal. lia.
Qed.

(** The first [k] elements of the shuffled group all belong to the group. *)
Lemma shuffled_prefix_in_group (P : Question -> Prop) `{!forall x, Decision (P x)}
    (bank : list Question) (s : code_units) (k : nat) :
  Forall P (take k (seededShuffle (filter P bank) s)).
Proof.
  apply Forall_take.
  rewrite (seededShuffle_perm (filter P bank) s).
  apply Forall_filter_self.
Qed.

Lemma hard_not_medium q : is_hard q -> ~ is_medium q.
Proof. unfold is_hard, is_medium. congruence. Qed.

Lemma medium_not_hard q : is_medium q -> ~ is_hard q.
Proof. unfold is_hard, is_medium. congruence. Qed.

(** *** C2 *)

(** C2.  For a bank with at least 12 hard and at least 3 medium questions, the
    weekly selection with [n = 15] is the final shuffle, seeded with the code
    units of the string ["WEEKLY-FINAL-"] followed by those of the date, of
    the first 12 hard questions as shuffled under ["WEEKLY-HARD-<date>"]
    followed by the first 3 medium questions as shuffled under
    ["WEEKLY-MED-<date>"]; that final shuffle is the Fisher-Yates shuffle of
    the specification over these 15 questions, with the generator started at
    the FNV-1a fold of the seed.  The selection holds exactly 12 hard and 3
    medium questions, 15 in all, and [round (15 * 0.8) = 12]. *)
Theorem weekly_pick_12_hard_3_medium (bank : list Question) (dateKey : string) :
  (12 <= length (filter is_hard bank))%nat ->
  (3 <= length (filter is_medium bank))%nat ->
  let chars (s : string) : list Z :=
    (fun c => Z.of_N (Ascii.N_of_ascii c)) <$> String.list_ascii_of_string s in
  let hardPick :=
    take 12 (seededShuffle (filter is_hard bank)
               (chars "WEEKLY-HARD-" ++ chars dateKey)) in
  let medPick :=
    take 3 (seededShuffle (filter is_medium bank)
              (chars "WEEKLY-MED-" ++ chars dateKey)) in
  let picked := weekly_pick bank 15 dateKey in
  need_hard 15 = 12 /\
  picked
  = seededShuffle (hardPick ++ medPick) (chars "WEEKLY-FINAL-" ++ chars dateKey) /\
  picked
  = seededShuffle_spec (hardPick ++ medPick)
      (chars "WEEKLY-FINAL-" ++ chars dateKey) /\
  length (filter is_hard picked) = 12%nat /\
  length (filter is_medium picked) = 3%nat /\
  length picked = 15%nat.
Proof.
  intros Hhard Hmed chars hardPick medPick picked.
  assert (Hseed : forall prefix,
            seed_of prefix dateKey = chars prefix ++ chars dateKey).
  { intros prefix. unfold seed_of, chars.
    now rewrite units_of_app, !units_of_chars. }
  pose proof (length_filter_disjoint is_hard is_medium bank hard_not_medium) as Hbank.
  assert (Hlh : length hardPick = 12%nat).
  { unfold hardPick. rewrite length_take_le; [reflexivity |].
    now rewrite seededShuffle_length. }
  assert (Hlm : length medPick = 3%nat).
  { unfold medPick. rewrite length_take_le; [reflexivity |].
    now rewrite seededShuffle_length. }
  assert (Hpicked :
    picked
    = seededShuffle (hardPick ++ medPick) (chars "WEEKLY-FINAL-" ++ chars dateKey)).
  { unfold picked, weekly_pick.
    replace (Z.min 15 (Z.of_nat (length bank))) with 15 by lia.
    rewrite need_hard_15.
    rewrite !slice0_take by lia.
    change (Z.to_nat 12) with 12%nat. change (Z.to_nat (15 - 12)) with 3%nat.
    rewrite !Hseed. fold hardPick medPick.
    rewrite length_app, Hlh, Hlm. reflexivity. }
  assert (HPh : Forall is_hard hardPick) by apply shuffled_prefix_in_group.
  assert (HPm : Forall is_medium medPick) by apply shuffled_prefix_in_group.
  split; [reflexivity |]. split; [exact Hpicked |].
  rewrite Hpicked. split; [| repeat split].
  - apply seededShuffle_refines. rewrite length_app, Hlh, Hlm. simpl. lia.
  - rewrite (seededShuffle_perm (hardPick ++ medPick)), filter_app.
    rewrite (filter_all is_hard hardPick HPh).
    rewrite (filter_none is_hard medPick).
    + rewrite length_app, Hlh. reflexivity.
    + eapply Forall_impl; [exact HPm |]. apply medium_not_hard.
  - rewrite (seededShuffle_perm (hardPick ++ medPick)), filter_app.
    rewrite (filter_all is_medium medPick HPm).
    rewrite (filter_none is_medium hardPick).
    + rewrite length_app, Hlm. reflexivity.
    + eapply Forall_impl; [exact HPh |]. apply hard_not_medium.
  - rewrite seededShuffle_length, length_app, Hlh, Hlm. reflexivity.
Qed.

End Selector_facts.

(** ** Arrays written by index *)
Section Array_facts.
Import JS.
Context {A : Type}.
Implicit Types (arr : jsarr A) (i j : nat) (v : A).

Lemma get_set_eq arr i v : get (set arr i v) i = Some v.
Proof.
  unfold get, set. destruct (decide (i < length arr)%nat) as [Hin | Hout].
  - now rewrite list_lookup_insert_eq.
  - rewrite lookup_app_r by lia.
    rewrite lookup_app_r by (rewrite length_replicate; lia).
    rewrite length_replicate.
    now replace (i - length arr - (i - length arr))%nat with 0%nat by lia.
Qed.

Lemma get_set_ne arr i j v : i <> j -> get (set arr i v) j = get arr j.
Proof.
  intros Hne. unfold get, set.
  destruct (decide (i < length arr)%nat) as [Hin | Hout].
  - now rewrite list_lookup_insert_ne.
  - destruct (decide (j < length arr)%nat) as [Hj | Hj].
    + now rewrite lookup_app_l.
    + rewrite (lookup_ge_None_2 arr j) by lia.
      rewrite lookup_app_r by lia.
      destruct (decide (j - length arr < i - length arr)%nat) as [Hlt | Hge].
      * rewrite lookup_app_l by (rewrite length_replicate; lia).
        now rewrite lookup_replicate_2.
      * rewrite lookup_app_r by (rewrite length_replicate; lia).
        rewrite length_replicate.
        replace (j - length arr - (i - length arr))%nat
          with (S (j - S i))%nat by lia.
        reflexivity.
Qed.

Lemma get_fill n v i : (i < n)%nat -> get (fill n v) i = Some v.
Proof. intros Hi. unfold get, fill. now rewrite lookup_replicate_2. Qed.

End Array_facts.

(** ** The stored session *)
Section Store_facts.
Import JS Model Store.

Lemma status_of_name_name x : status_of_name (status_name x) = Some x.
Proof. destruct x; reflexivity. Qed.

Lemma status_slot_roundtrip (x : option Status) :
  status_slot_of_json (slot_to_json (fun y => JStr (status_name y)) x) = Some x.
Proof.
  destruct x as [y |]; simpl; [| reflexivity].
  now rewrite status_of_name_name.
Qed.

Lemma time_slot_roundtrip (x : option Z) :
  time_slot_of_json (slot_to_json JNum x) = Some x.
Proof. destruct x; reflexivity. Qed.

(** The fields of a stringified session. *)
Lemma fields_to_json (s : WeeklySession) :
  let v := to_json s in
  field "date" v = Some (JStr (date s)) /\
  field "weekId" v = Some (JStr (weekId s)) /\
  field "qIds" v = Some (JArr (JStr <$> qIds s)) /\
  field "qIndex" v = Some (JNum (Z.of_nat (qIndex s))) /\
  field "statuses" v
  = Some (JArr (slot_to_json (fun x => JStr (status_name x)) <$> statuses s)) /\
  field "timesMs" v = Some (JArr (slot_to_json JNum <$> timesMs s)) /\
  field "score" v = Some (JNum (score s)) /\
  field "seed" v = Some (JStr (seed s)) /\
  field "tPerQ" v = Some (JNum (tPerQ s)).
Proof. repeat split. Qed.

(** Parsing what [JSON.stringify] wrote gives the session back. *)
Lemma of_json_to_json (s : WeeklySession) : of_json (to_json s) = Some s.
Proof.
  destruct (fields_to_json s) as (Hd & Hw & Hids & Hi & Hst & Htm & Hsc & Hsd & Htq).
  unfold of_json.
  rewrite Hd, Hw, Hids, Hi, Hst, Htm, Hsc, Hsd, Htq.
  cbn [as_str as_num as_index as_arr mbind option_bind].
  rewrite (mapM_fmap_Some id_of_json JStr) by reflexivity.
  cbn [mbind option_bind].
  destruct (Z.leb_spec 0 (Z.of_nat (qIndex s))); [| lia].
  rewrite Nat2Z.id.
  rewrite (mapM_fmap_Some status_slot_of_json _ (statuses s))
    by apply status_slot_roundtrip.
  cbn [mbind option_bind].
  rewrite (mapM_fmap_Some time_slot_of_json _ (timesMs s))
    by apply time_slot_roundtrip.
  cbn [mbind option_bind]. now destruct s.
Qed.

Lemma read_typed_write (s : WeeklySession) : read_typed (write s) = Some (Some s).
Proof.
  unfold read_typed, write.
  replace (readSessionSafe (Some (Text (to_json s)))) with (Some (to_json s))
    by reflexivity.
  cbn [fmap option_fmap option_map]. now rewrite of_json_to_json.
Qed.

Lemma read_typed_empty : read_typed None = Some None.
Proof. reflexivity. Qed.

Lemma read_typed_garbage : read_typed (Some Garbage) = Some None.
Proof. reflexivity. Qed.


End Store_facts.

(** ** The session engine *)
Section Session_facts.
Import JS Model Store Selector Session.
Implicit Types (p : Params) (qs : list Question) (st : State)
         (entry : option item).

Lemma merge_no_opts (s : WeeklySession) : merge_opts no_opts s = s.
Proof. now destruct s. Qed.

(** On a usable entry a snapshot is written (or, outside weekly mode, the
    entry is left alone), and the entry stays usable. *)
Lemma saveWeeklySnapshot_usable p qs st opts entry :
  usable entry ->
  exists entry', saveWeeklySnapshot p qs st opts entry = Some entry'
                 /\ usable entry'.
Proof.
  intros [stored Hstored]. unfold saveWeeklySnapshot.
  destruct (isWeekly p); simpl.
  - rewrite Hstored. simpl. eexists. split; [reflexivity |].
    unfold usable. rewrite read_typed_write. eauto.
  - exists entry. split; [reflexivity |]. now exists stored.
Qed.

Lemma timer_effect_synced st : timer_synced (timer_effect st).
Proof. split; reflexivity. Qed.

Lemma mount_synced now : timer_synced (mount now).
Proof. split; reflexivity. Qed.

Lemma fresh_state_synced now len : timer_synced (fresh_state now len).
Proof. split; reflexivity. Qed.

(** Every event leaves the timer effect in step with the state. *)
Lemma step_synced p qs e st entry st' entry' :
  timer_synced st ->
  step p qs e st entry = Some (st', entry') ->
  timer_synced st'.
Proof.
  intros [Hraf Hexp] Hstep. destruct e as [idx now | t | now]; simpl in Hstep.
  - unfold choose in Hstep.
    destruct (if locked st then None else qs !! qIndex st) as [q |].
    + destruct (saveWeeklySnapshot _ _ _ _ _) as [e1 |]; simpl in Hstep;
        [| discriminate].
      injection Hstep as <- _. apply timer_effect_synced.
    + injection Hstep as <- _. now split.
  - unfold frame in Hstep.
    destruct (raf st) eqn:Hr; simpl in Hstep.
    + destruct (negb (expired st) && (startedAt st + total p * 1000 <=? t)).
      * destruct (saveWeeklySnapshot _ _ _ _ _) as [e1 |]; simpl in Hstep;
          [| discriminate].
        injection Hstep as <- _. apply timer_effect_synced.
      * injection Hstep as <- _. split; simpl; assumption.
    + injection Hstep as <- _. split; [congruence | assumption].
  - unfold next in Hstep.
    destruct (decide (qIndex st < length qs - 1)%nat).
    + destruct (saveWeeklySnapshot _ _ _ _ _) as [e1 |]; simpl in Hstep;
        [| discriminate].
      injection Hstep as <- _. apply timer_effect_synced.
    + injection Hstep as <- _. apply timer_effect_synced.
Qed.

(** A locked question ignores [choose], and has no frame scheduled. *)
Lemma choose_locked p qs idx now st entry :
  locked st = true -> choose p qs idx now st entry = Some (st, entry).
Proof. intros Hl. unfold choose. now rewrite Hl. Qed.

Lemma frame_locked p qs t st entry :
  timer_synced st -> locked st = true ->
  frame p qs t st entry = Some (st, entry).
Proof.
  intros [Hraf _] Hl. unfold frame.
  rewrite Hraf, Hl, andb_false_r. reflexivity.
Qed.

(** An accepted answer locks the question. *)
Lemma choose_locks p qs idx now st entry q :
  locked st = false -> qs !! qIndex st = Some q -> usable entry ->
  exists st' entry',
    choose p qs idx now st entry = Some (st', entry')
    /\ locked st' = true /\ timer_synced st'.
Proof.
  intros Hl Hq Hu. unfold choose. rewrite Hl, Hq.
  destruct (saveWeeklySnapshot_usable p qs st
              {| o_qIndex := None;
                 o_timesMs := Some [(qIndex st,
                   Z.min (total p * 1000) (now - startedAt st))];
                 o_statuses := Some [(qIndex st,
                   if bool_decide (idx = correctIndex q) then correct else wrong)];
                 o_scoreDelta :=
                   if bool_decide (idx = correctIndex q) then Some 1 else None |}
              entry Hu) as (e1 & -> & _).
  simpl. eexists _, _. split; [reflexivity |].
  split; [reflexivity | apply timer_effect_synced].
Qed.

(** A locked question goes through any run of answers and frames
    unchanged. *)
Lemma run_locked p qs (es : list event) st entry :
  timer_synced st ->
  locked st = true ->
  Forall (fun e => is_next e = false) es ->
  run p qs es st entry = Some (st, entry).
Proof.
  intros Hsync Hlock Hes.
  induction Hes as [| e es He _ IH]; [reflexivity |].
  simpl. destruct e as [idx now | t | now]; simpl in *.
  - rewrite choose_locked by assumption. exact IH.
  - rewrite frame_locked by assumption. exact IH.
  - discriminate.
Qed.

(** Once the current question is locked (by an accepted [choose] or by the
    timeout) no later [choose] call and no later timer frame changes
    anything: the statuses, the elapsed times and the score in memory, and
    the stored session, are what they were, until [next] is called. *)
Lemma locked_question_frozen p qs st entry :
  timer_synced st ->
  locked st = true ->
  (forall idx now, choose p qs idx now st entry = Some (st, entry)) /\
  (forall t, frame p qs t st entry = Some (st, entry)) /\
  (forall es, Forall (fun e => is_next e = false) es ->
              run p qs es st entry = Some (st, entry)).
Proof.
  intros Hsync Hlock. split; [| split].
  - intros idx now. now apply choose_locked.
  - intros t. now apply frame_locked.
  - intros es Hes. now apply run_locked.
Qed.

(** A fresh run is in order, and answers, frames and Next keep it so. *)
Lemma fresh_in_order qs now : qs <> [] -> in_order qs (fresh_state now (length qs)).
Proof.
  intros Hqs. assert (length qs <> 0%nat) by (destruct qs; [congruence | discriminate]).
  repeat split; simpl.
  - lia.
  - intros j Hj. apply get_fill. lia.
  - intros _. apply get_fill. lia.
Qed.

Lemma step_in_order p qs e st entry st' entry' :
  in_order qs st ->
  step p qs e st entry = Some (st', entry') ->
  in_order qs st'.
Proof.
  intros Hin Hstep.
  pose proof Hin as (Hsync & Hi & Hafter & Hcur).
  split; [eapply step_synced; eassumption |].
  destruct e as [idx now | t | now]; simpl in Hstep.
  - unfold choose in Hstep.
    destruct (if locked st then None else qs !! qIndex st) as [q |].
    + destruct (saveWeeklySnapshot _ _ _ _ _) as [e1 |]; simpl in Hstep;
        [| discriminate].
      injection Hstep as <- _. simpl. split; [exact Hi |]. split.
      * intros j Hj. rewrite get_set_ne by lia. now apply Hafter.
      * discriminate.
    + injection Hstep as <- _. now repeat split.
  - unfold frame in Hstep. destruct (raf st); simpl in Hstep.
    + destruct (negb (expired st) && (startedAt st + total p * 1000 <=? t)).
      * destruct (saveWeeklySnapshot _ _ _ _ _) as [e1 |]; simpl in Hstep;
          [| discriminate].
        injection Hstep as <- _. simpl. split; [exact Hi |]. split.
        -- intros j Hj. destruct (decide _); [| now apply Hafter].
           rewrite get_set_ne by lia. now apply Hafter.
        -- discriminate.
      * injection Hstep as <- _. now repeat split.
    + injection Hstep as <- _. now repeat split.
  - unfold next in Hstep.
    destruct (decide (qIndex st < length qs - 1)%nat) as [Hlt | Hge].
    + destruct (saveWeeklySnapshot _ _ _ _ _) as [e1 |]; simpl in Hstep;
        [| discriminate].
      injection Hstep as <- _. simpl. split; [lia |]. split.
      * intros j Hj. apply Hafter. lia.
      * intros _. apply Hafter. lia.
    + injection Hstep as <- _. now repeat split.
Qed.

(** In an uninterrupted run the claim of C3 holds in memory as it is stated:
    a status that is not [unanswered], and its time, survive every answer
    and every frame. *)
Lemma status_lock_in_order p qs e st entry st' entry' (i : nat) :
  in_order qs st ->
  get (statuses st) i <> Some unanswered ->
  is_next e = false ->
  step p qs e st entry = Some (st', entry') ->
  get (statuses st') i = get (statuses st) i
  /\ get (timesMs st') i = get (timesMs st) i.
Proof.
  intros (Hsync & _ & _ & Hcur) Hans He Hstep.
  destruct (decide (i = qIndex st)) as [-> | Hne].
  - assert (Hlock : locked st = true).
    { destruct (locked st); [reflexivity |]. now destruct Hans; apply Hcur. }
    destruct e as [idx now | t | now]; simpl in Hstep; [| | discriminate].
    + rewrite choose_locked in Hstep by assumption. now injection Hstep as <- _.
    + rewrite frame_locked in Hstep by assumption. now injection Hstep as <- _.
  - destruct e as [idx now | t | now]; simpl in Hstep; [| | discriminate].
    + unfold choose in Hstep.
      destruct (if locked st then None else qs !! qIndex st) as [q |].
      * destruct (saveWeeklySnapshot _ _ _ _ _) as [e1 |]; simpl in Hstep;
          [| discriminate].
        injection Hstep as <- _. simpl.
        now rewrite !get_set_ne by congruence.
      * now injection Hstep as <- _.
    + unfold frame in Hstep. destruct (raf st); simpl in Hstep.
      * destruct (negb (expired st) && (startedAt st + total p * 1000 <=? t)).
        -- destruct (saveWeeklySnapshot _ _ _ _ _) as [e1 |]; simpl in Hstep;
             [| discriminate].
           injection Hstep as <- _. simpl.
           rewrite get_set_ne by congruence.
           destruct (decide _); [| now split].
           now rewrite get_set_ne by congruence.
        -- now injection Hstep as <- _.
      * now injection Hstep as <- _.
Qed.

(** Next moves on and leaves every status and every time as it is. *)
Lemma next_keeps_slots p qs now st entry st' entry' :
  next p qs now st entry = Some (st', entry') ->
  statuses st' = statuses st /\ timesMs st' = timesMs st.
Proof.
  unfold next. intros Hstep.
  destruct (decide (qIndex st < length qs - 1)%nat).
  - destruct (saveWeeklySnapshot _ _ _ _ _) as [e1 |]; simpl in Hstep;
      [| discriminate].
    injection Hstep as <- _. now split.
  - injection Hstep as <- _. now split.
Qed.

(** In an uninterrupted run the lock invariant holds in memory for every
    index and through every event, Next included: a status that is not
    [unanswered], and its time, stay what they are to the end of the run. *)
Lemma run_answered_frozen p qs (es : list event) :
  forall st entry st' entry' (i : nat),
    in_order qs st ->
    get (statuses st) i <> Some unanswered ->
    run p qs es st entry = Some (st', entry') ->
    get (statuses st') i = get (statuses st) i
    /\ get (timesMs st') i = get (timesMs st) i.
Proof.
  induction es as [| e es IH]; intros st entry st' entry' i Hin Hans Hrun.
  - simpl in Hrun. now injection Hrun as <- _.
  - simpl in Hrun.
    destruct (step p qs e st entry) as [[st1 entry1] |] eqn:He; [| discriminate].
    assert (Hkeep : get (statuses st1) i = get (statuses st) i
                    /\ get (timesMs st1) i = get (timesMs st) i).
    { destruct (is_next e) eqn:Hn.
      - destruct e as [idx now | t | now]; try discriminate.
        simpl in He. apply next_keeps_slots in He as [-> ->]. now split.
      - eapply status_lock_in_order; eassumption. }
    destruct Hkeep as [Hs Ht].
    destruct (IH st1 entry1 st' entry' i) as [Hs' Ht'];
      [eapply step_in_order; eassumption | congruence | exact Hrun |].
    split; congruence.
Qed.

(** What the expiry stores: [wrong] for the current index, whatever the
    stored status was (the test on [unanswered] guards the state in memory
    only). *)
Lemma timeout_stores_wrong p qs st entry (t : Z) (s : WeeklySession) :
  isWeekly p = true ->
  raf st = true -> expired st = false ->
  startedAt st + total p * 1000 <= t ->
  read_typed entry = Some (Some s) ->
  exists st' s',
    frame p qs t st entry = Some (st', write s')
    /\ get (Model.statuses s') (qIndex st) = Some wrong
    /\ get (Model.timesMs s') (qIndex st) = Some (total p * 1000).
Proof.
  intros Hw Hraf Hexp Ht Hs. unfold frame, saveWeeklySnapshot.
  rewrite Hraf, Hexp, Hw, Hs. simpl.
  destruct (Z.leb_spec (startedAt st + total p * 1000) t); [| lia].
  simpl. eexists _, _. split; [reflexivity |].
  simpl. split; apply get_set_eq.
Qed.

(** Before the deadline a frame only samples the clock. *)
Lemma frame_before_deadline p qs t st entry :
  raf st = true -> t < startedAt st + total p * 1000 ->
  exists st', frame p qs t st entry = Some (st', entry)
              /\ locked st' = locked st /\ running st' = running st
              /\ statuses st' = statuses st /\ timesMs st' = timesMs st
              /\ score st' = score st /\ nowTs st' = t.
Proof.
  intros Hraf Ht. unfold frame. rewrite Hraf. simpl.
  destruct (Z.leb_spec (startedAt st + total p * 1000) t); [lia |].
  rewrite andb_false_r. eexists. split; [reflexivity |]. now repeat split.
Qed.

(** In memory the timeout does what is asked of it.  While the current
    question is running and unlocked, the first timer frame at or after
    [startedAt + total * 1000] forces its status to [wrong] only if it is
    still [unanswered], sets its elapsed time to the full budget and locks
    the question; frames before that time change neither status, time nor
    lock; and however many frames follow the expiry, none fires again or
    changes anything. *)
Lemma timeout_fires_once p qs st entry (t : Z) :
  timer_synced st ->
  running st = true ->
  locked st = false ->
  usable entry ->
  startedAt st + total p * 1000 <= t ->
  exists st' entry',
    frame p qs t st entry = Some (st', entry') /\
    statuses st'
    = (if decide (get (statuses st) (qIndex st) = Some unanswered)
       then set (statuses st) (qIndex st) wrong
       else statuses st) /\
    get (timesMs st') (qIndex st) = Some (total p * 1000) /\
    locked st' = true /\ running st' = false /\
    lockedFor st' = Some (qIndex st) /\ score st' = score st /\
    (forall ts : list Z, run p qs (Frame <$> ts) st' entry' = Some (st', entry')) /\
    (forall t0, t0 < startedAt st + total p * 1000 ->
       exists st0, frame p qs t0 st entry = Some (st0, entry)
                   /\ locked st0 = false /\ statuses st0 = statuses st
                   /\ timesMs st0 = timesMs st).
Proof.
  intros [Hraf Hexp] Hrun Hlock Hu Ht.
  assert (Hlive : raf st = true) by (now rewrite Hraf, Hrun, Hlock).
  destruct (saveWeeklySnapshot_usable p qs st
              {| o_qIndex := None;
                 o_timesMs := Some [(qIndex st, total p * 1000)];
                 o_statuses := Some [(qIndex st, wrong)];
                 o_scoreDelta := None |} entry Hu) as (entry' & Hsave & _).
  assert (Hframe : exists st', frame p qs t st entry = Some (st', entry')
            /\ st' = timer_effect
                 {| qIndex := qIndex st; running := false; selected := selected st;
                    locked := true; lockedFor := Some (qIndex st);
                    score := score st; finished := finished st;
                    timesMs := set (timesMs st) (qIndex st) (total p * 1000);
                    statuses :=
                      if decide (get (statuses st) (qIndex st) = Some unanswered)
                      then set (statuses st) (qIndex st) wrong
                      else statuses st;
                    startedAt := startedAt st; nowTs := t;
                    expired := true; raf := false |}).
  { unfold frame. rewrite Hlive, Hexp. simpl.
    destruct (Z.leb_spec (startedAt st + total p * 1000) t); [| lia].
    rewrite Hsave. simpl. eexists. split; reflexivity. }
  destruct Hframe as (st' & Hframe & Hst').
  exists st', entry'. split; [exact Hframe |].
  subst st'. simpl.
  split; [reflexivity |]. split; [apply get_set_eq |].
  do 4 (split; [reflexivity |]).
  split.
  - intros ts. apply run_locked.
    + apply timer_effect_synced.
    + reflexivity.
    + apply Forall_fmap, Forall_true. reflexivity.
  - intros t0 Ht0.
    destruct (frame_before_deadline p qs t0 st entry Hlive Ht0)
      as (st0 & Hf & Hl & _ & Hs & Htm & _).
    exists st0. rewrite Hl, Hlock. now repeat split.
Qed.

(** *** C5 *)

(** C5 holds for the state in memory and fails for the stored session.  When
    the timer of a weekly question expires over a stored session [s], the
    state in memory gets [wrong] for the question only if its status is still
    [unanswered], the full budget as elapsed time and the lock, once: no
    later frame changes the state or the store.  The session stored by that
    expiry is [s] with the full budget and with [wrong] for the question
    whatever its status was in [s] and in memory: a status that is not
    [unanswered] is kept in memory and replaced in the store. *)
Theorem timeout_overwrites_stored_status p qs st (s : WeeklySession) (t : Z) :
  isWeekly p = true ->
  timer_synced st -> running st = true -> locked st = false ->
  startedAt st + total p * 1000 <= t ->
  let s' :=
    {| date := date s; weekId := weekId s; qIds := qIds s;
       Model.qIndex := Model.qIndex s;
       Model.statuses := set (Model.statuses s) (qIndex st) wrong;
       Model.timesMs := set (Model.timesMs s) (qIndex st) (total p * 1000);
       Model.score := Model.score s; seed := seed s; tPerQ := tPerQ s |} in
  exists st',
    frame p qs t st (write s) = Some (st', write s') /\
    statuses st'
    = (if decide (get (statuses st) (qIndex st) = Some unanswered)
       then set (statuses st) (qIndex st) wrong
       else statuses st) /\
    get (Model.statuses s') (qIndex st) = Some wrong /\
    (get (statuses st) (qIndex st) <> Some unanswered ->
     get (statuses st') (qIndex st) = get (statuses st) (qIndex st)) /\
    get (timesMs st') (qIndex st) = Some (total p * 1000) /\
    get (Model.timesMs s') (qIndex st) = Some (total p * 1000) /\
    locked st' = true /\ running st' = false /\
    lockedFor st' = Some (qIndex st) /\ score st' = score st /\
    (forall ts : list Z,
       run p qs (Frame <$> ts) st' (write s') = Some (st', write s')).
Proof.
  intros Hw [Hraf Hexp] Hrun Hlock Ht s'.
  assert (Hlive : raf st = true) by (now rewrite Hraf, Hrun, Hlock).
  assert (Hframe : frame p qs t st (write s)
            = Some (timer_effect
                 {| qIndex := qIndex st; running := false; selected := selected st;
                    locked := true; lockedFor := Some (qIndex st);
                    score := score st; finished := finished st;
                    timesMs := set (timesMs st) (qIndex st) (total p * 1000);
                    statuses :=
                      if decide (get (statuses st) (qIndex st) = Some unanswered)
                      then set (statuses st) (qIndex st) wrong
                      else statuses st;
                    startedAt := startedAt st; nowTs := t;
                    expired := true; raf := false |}, write s')).
  { unfold frame, saveWeeklySnapshot. rewrite Hlive, Hexp, Hw, read_typed_write.
    simpl. destruct (Z.leb_spec (startedAt st + total p * 1000) t); [| lia].
    reflexivity. }
  eexists. split; [exact Hframe |]. simpl.
  split; [reflexivity |]. split; [apply get_set_eq |]. split.
  { intros Hans. now rewrite decide_False by exact Hans. }
  split; [apply get_set_eq |]. split; [apply get_set_eq |].
  do 4 (split; [reflexivity |]).
  intros ts. apply run_locked.
  - apply timer_effect_synced.
  - reflexivity.
  - apply Forall_fmap, Forall_true. reflexivity.
Qed.

End Session_facts.

(** *** C3 *)

(** C3 fails on a question that is reopened.  On 10 March 2025 the first
    question of the day's pick is answered correctly after 3001 ms and the
    page is left before Next; the stored session holds [correct] and 3001 for
    it.  The page is opened again the same day: the session resumes on that
    question, unlocked, with its status [correct] and its time in memory.  A
    second [choose], of a wrong option, then replaces the status by [wrong]
    and the time by 999, in memory and in the stored session, and the score
    stays 1; left alone instead, the timeout replaces the time by the full
    budget in memory and stores [wrong] and the full budget. *)
Theorem reopened_answer_rewritten :
  let p := Fixtures.weekly 15 in
  let stored statuses timesMs score :=
    {| Model.date := "2025-03-10"; Model.weekId := "2025-W11";
       Model.qIds := Model.id <$> Fixtures.qs2; Model.qIndex := 0;
       Model.statuses := statuses; Model.timesMs := timesMs;
       Model.score := score; Model.seed := "WEEKLY-2025-03-10";
       Model.tPerQ := 12 |} in
  Fixtures.answered_then_left
  = Some (Store.write
            (stored [Some Model.correct; Some Model.unanswered]
               [Some 3001; Some 0] 1)) /\
  exists st entry st1 st2,
    Fixtures.reloaded = Some (Session.Running st entry) /\
    Session.qIndex st = 0%nat /\ Session.locked st = false /\
    Session.statuses st = [Some Model.correct; Some Model.unanswered] /\
    Session.timesMs st = [Some 3001; Some 0] /\
    Session.score st = 1 /\
    Session.choose p Fixtures.qs2 0 10000 st entry
    = Some (st1,
            Store.write
              (stored [Some Model.wrong; Some Model.unanswered]
                 [Some 999; Some 0] 0)) /\
    Session.statuses st1 = [Some Model.wrong; Some Model.unanswered] /\
    Session.timesMs st1 = [Some 999; Some 0] /\
    Session.score st1 = 1 /\
    Session.frame p Fixtures.qs2 30000 st entry
    = Some (st2,
            Store.write
              (stored [Some Model.wrong; Some Model.unanswered]
                 [Some 12000; Some 0] 0)) /\
    Session.statuses st2 = [Some Model.correct; Some Model.unanswered] /\
    Session.timesMs st2 = [Some 12000; Some 0].
Proof.
  intros p stored. split; [vm_compute; reflexivity |].
  do 4 eexists.
  split; [vm_compute; reflexivity |].
  do 5 (split; [reflexivity |]).
  split; [vm_compute; reflexivity |].
  do 3 (split; [reflexivity |]).
  split; [vm_compute; reflexivity |].
  split; reflexivity.
Qed.

(** The memory half of the timeout on a fresh question. *)
Lemma timeout_fires_once_witness :
  let p := Fixtures.weekly 15 in
  let st := Session.fresh_state 1000 2 in
  exists st' entry',
    Session.frame p Fixtures.qs2 13000 st None = Some (st', entry') /\
    Session.statuses st' = [Some Model.wrong; Some Model.unanswered] /\
    JS.get (Session.timesMs st') 0 = Some 12000 /\
    Session.locked st' = true /\
    (forall ts : list Z,
       Session.run p Fixtures.qs2 (Session.Frame <$> ts) st' entry'
       = Some (st', entry')).
Proof.
  intros p st.
  destruct (timeout_fires_once p Fixtures.qs2 st None 13000)
    as (st' & entry' & Hf & Hs & Ht & Hl & _ & _ & _ & Hrun & _).
  - split; reflexivity.
  - reflexivity.
  - reflexivity.
  - exists None. reflexivity.
  - vm_compute. discriminate.
  - exists st', entry'. repeat split; assumption.
Defined.

(** The theorem at the failing input of C5.  The quiz is open in two tabs,
    which share the stored session.  In one the first question has been
    answered correctly after 3001 ms; in the other it is still running when
    its timer reaches the deadline: the stored [correct] becomes [wrong], and
    the stored score stays 1. *)
Lemma timeout_overwrites_stored_status_witness :
  let p := Fixtures.weekly 15 in
  let st := Session.fresh_state 2000 2 in
  let stored statuses timesMs :=
    {| Model.date := "2025-03-10"; Model.weekId := "2025-W11";
       Model.qIds := Model.id <$> Fixtures.qs2; Model.qIndex := 0;
       Model.statuses := statuses; Model.timesMs := timesMs;
       Model.score := 1; Model.seed := "WEEKLY-2025-03-10";
       Model.tPerQ := 12 |} in
  exists st',
    Session.frame p Fixtures.qs2 14000 st
      (Store.write (stored [Some Model.correct; Some Model.unanswered]
                      [Some 3001; Some 0]))
    = Some (st', Store.write (stored [Some Model.wrong; Some Model.unanswered]
                                [Some 12000; Some 0])) /\
    Session.statuses st' = [Some Model.wrong; Some Model.unanswered] /\
    Session.locked st' = true.
Proof.
  intros p st stored.
  destruct (timeout_overwrites_stored_status p Fixtures.qs2 st
              (stored [Some Model.correct; Some Model.unanswered]
                 [Some 3001; Some 0]) 14000)
    as (st' & Hf & Hs & _ & _ & _ & _ & Hl & _).
  - reflexivity.
  - split; reflexivity.
  - reflexivity.
  - reflexivity.
  - vm_compute. discriminate.
  - exists st'. split; [exact Hf |]. split; [exact Hs | exact Hl].
Defined.

(** ** Leaving the page *)
Section Leave_facts.
Import JS Model Store Selector Session.
Implicit Types (p : Params) (qs : list Question) (st : State)
         (entry : option item).

(** A plain snapshot of a stored session writes that session back. *)
Lemma plain_snapshot_rewrites p qs st entry (s : WeeklySession) :
  isWeekly p = true ->
  read_typed entry = Some (Some s) ->
  saveWeeklySnapshot p qs st no_opts entry = Some (write s).
Proof.
  intros Hw Hs. unfold saveWeeklySnapshot. rewrite Hw, Hs. simpl.
  now rewrite merge_no_opts.
Qed.

(** *** C4 *)

(** C4, as amended.  In a weekly session:
    - once the session is finished, leaving writes nothing;
    - when the session is not finished and the current question is locked,
      leaving writes a plain snapshot, which for a stored session is that
      session unchanged (no status is altered);
    - when the session is not finished and the current question, at index
      [i], is still running and unlocked, leaving stores a session whose
      status at [i] is [penalized], whose elapsed time at [i] is the full
      budget [total * 1000], whose index is [min (i + 1) (last index)], and
      whose other statuses, times, score and ids are those of the session
      read from the store (or of the fallback built from the refs). *)
Theorem leave_penalizes_running_question p qs st entry :
  isWeekly p = true ->
  (finished st = true -> finalizeOnLeave p qs st entry = Some entry) /\
  (finished st = false -> locked st = true ->
     finalizeOnLeave p qs st entry = saveWeeklySnapshot p qs st no_opts entry
     /\ forall s, read_typed entry = Some (Some s) ->
                  finalizeOnLeave p qs st entry = Some (write s)) /\
  (finished st = false -> running st = true -> locked st = false ->
   (qIndex st < length qs)%nat ->
   forall stored, read_typed entry = Some stored ->
     let base := default (session_on_leave p qs st) stored in
     exists s',
       finalizeOnLeave p qs st entry = Some (write s') /\
       get (Model.statuses s') (qIndex st) = Some penalized /\
       get (Model.timesMs s') (qIndex st) = Some (total p * 1000) /\
       Model.qIndex s' = Nat.min (qIndex st + 1) (length qs - 1) /\
       (forall j, j <> qIndex st ->
          get (Model.statuses s') j = get (Model.statuses base) j /\
          get (Model.timesMs s') j = get (Model.timesMs base) j) /\
       Model.score s' = Model.score base /\ qIds s' = qIds base).
Proof.
  intros Hw. split; [| split].
  - intros Hfin. unfold finalizeOnLeave. now rewrite Hw, Hfin.
  - intros Hfin Hlock.
    assert (Hleave :
      finalizeOnLeave p qs st entry = saveWeeklySnapshot p qs st no_opts entry).
    { unfold finalizeOnLeave. rewrite Hw, Hfin, Hlock. simpl.
      now rewrite andb_false_r. }
    split; [exact Hleave |].
    intros s Hs. rewrite Hleave. now apply plain_snapshot_rewrites.
  - intros Hfin Hrun Hlock Hi stored Hstored base.
    unfold finalizeOnLeave.
    rewrite Hw, Hfin, Hrun, Hlock, (bool_decide_eq_true_2 _ Hi), Hstored.
    simpl. fold base.
    eexists. split; [reflexivity |]. simpl.
    split; [apply get_set_eq |]. split; [apply get_set_eq |].
    split.
    { destruct (decide (length qs = 0%nat)); [lia | reflexivity]. }
    split; [| split; reflexivity].
    intros j Hj. split; apply get_set_ne; congruence.
Qed.

End Leave_facts.

(** The theorem on the second question of a two-question session, left while
    it runs, with the first visit's answer in the store. *)
Lemma leave_penalizes_running_question_witness :
  let p := Fixtures.weekly 15 in
  let st :=
    {| Session.qIndex := 1; Session.running := true; Session.selected := None;
       Session.locked := false; Session.lockedFor := None; Session.score := 1;
       Session.finished := false; Session.timesMs := [Some 3001; Some 0];
       Session.statuses := [Some Model.correct; Some Model.unanswered];
       Session.startedAt := 5000; Session.nowTs := 5000;
       Session.expired := false; Session.raf := true |} in
  Selector.isWeekly p = true /\
  exists s',
    Session.finalizeOnLeave p Fixtures.qs2 st None = Some (Store.write s') /\
    JS.get (Model.statuses s') 1 = Some Model.penalized /\
    JS.get (Model.timesMs s') 1 = Some 12000 /\
    Model.qIndex s' = 1%nat.
Proof.
  intros p st. split; [reflexivity |].
  destruct (leave_penalizes_running_question p Fixtures.qs2 st None eq_refl)
    as (_ & _ & Hmid).
  destruct (Hmid eq_refl eq_refl eq_refl ltac:(vm_compute; lia) None eq_refl)
    as (s' & Hleave & Hs & Ht & Hi & _).
  exists s'. repeat split; assumption.
Defined.

(** The claim of C4 as it is stated fails on a finished session: leaving
    writes nothing, where a plain snapshot would store the session again
    (the finish effect had removed it). *)
Lemma leave_finished_counterexample :
  exists st entry,
    Fixtures.played_out = Some (st, entry) /\
    Session.finished st = true /\
    Session.finalizeOnLeave (Fixtures.weekly 1)
      (Selector.weekly_pick Fixtures.bank2 1 "2025-03-10") st entry
    = Some None /\
    Session.saveWeeklySnapshot (Fixtures.weekly 1)
      (Selector.weekly_pick Fixtures.bank2 1 "2025-03-10") st Session.no_opts entry
    = Some (Store.write Fixtures.one_question_session).
Proof.
  do 2 eexists.
  split; [vm_compute; reflexivity |].
  repeat split; vm_compute; reflexivity.
Qed.

(** ** Starting and resuming *)
Section Start_facts.
Import JS Model Store Selector Session.
Implicit Types (p : Params) (qs bank : list Question) (st : State)
         (entry : option item) (r : WeeklySession).

Lemma length_nonzero {A} (l : list A) : l <> [] -> length l <> 0%nat.
Proof. destruct l; [congruence | discriminate]. Qed.

(** Without a resume value the initialize effect starts a fresh run and
    stores a new session. *)
Lemma initialize_fresh p qs now st entry :
  isWeekly p = true -> qs <> [] ->
  initialize p qs None now st entry
  = (fresh_state now (length qs), write (fresh_session p qs)).
Proof.
  intros Hw Hqs. unfold initialize.
  rewrite decide_False by now apply length_nonzero.
  now rewrite Hw.
Qed.

Lemma questions_fresh p bank :
  isWeekly p = true ->
  questions p (Some bank) None = weekly_pick bank (n p) (today p).
Proof. intros Hw. unfold questions. now rewrite Hw. Qed.



(** *** C6 *)


(** *** C8 *)

(** C8, as amended.  For every stored value under today's session key that
    does not parse, that parses to [null], or that lacks today's [date] and
    [weekId], the resume effect yields no record, and a fresh session is
    started and stored; for the first two kinds [readSessionSafe] returns
    [null] as well.  Neither function throws.  (A stored object with today's
    [date] and [weekId] is used as a session without any check of its other
    fields.) *)
Theorem discarded_entry_starts_fresh p bank (now0 now1 : Z) st0 entry :
  isWeekly p = true ->
  discarded (today p) (week p) entry ->
  let qs0 := weekly_pick bank (n p) (today p) in
  qs0 <> [] ->
  (load_resume (today p) (week p) entry).1 = None /\
  (entry = Some Garbage \/ entry = Some (Text JNull) ->
   readSessionSafe entry = None) /\
  start p bank now0 now1 st0 entry
  = Some (Running (fresh_state now0 (length qs0)) (write (fresh_session p qs0))).
Proof.
  intros Hw Hdisc qs0 Hqs0.
  assert (Hload : exists entry1,
            load_resume (today p) (week p) entry = (None, entry1)).
  { destruct entry as [[| v] |]; simpl in Hdisc; [| | contradiction].
    - eexists. reflexivity.
    - destruct v; simpl;
        try (rewrite decide_False by exact Hdisc);
        eexists; reflexivity. }
  destruct Hload as (entry1 & Hload).
  split; [now rewrite Hload |]. split.
  - intros [-> | ->]; reflexivity.
  - unfold start. rewrite Hw, Hload, questions_fresh by assumption.
    fold qs0. now rewrite initialize_fresh.
Qed.

End Start_facts.



(** On a resume the first render has already stored a new session over the
    old one: the state in memory comes from the old session, the store holds
    the new one. *)
Lemma resume_overwrites_entry :
  exists st,
    Fixtures.reloaded
    = Some (Session.Running st
              (Store.write (Session.fresh_session (Fixtures.weekly 15) Fixtures.qs2)))
    /\ Session.score st = 1
    /\ Session.statuses st = [Some Model.correct; Some Model.unanswered].
Proof. eexists. split; [vm_compute; reflexivity |]. split; reflexivity. Qed.

Lemma discarded_entry_starts_fresh_witness :
  let p := Fixtures.weekly 15 in
  Selector.isWeekly p = true /\
  Session.discarded (Selector.today p) (Selector.week p) (Some Store.Garbage) /\
  Session.start p Fixtures.bank2 1000 1001 (Session.mount 0) (Some Store.Garbage)
  = Some (Session.Running (Session.fresh_state 1000 2)
            (Store.write (Session.fresh_session p Fixtures.qs2))).
Proof.
  intros p. split; [reflexivity |]. split; [exact I |].
  apply (discarded_entry_starts_fresh p Fixtures.bank2 1000 1001
           (Session.mount 0) (Some Store.Garbage) eq_refl I).
  vm_compute. discriminate.
Defined.

(** The claim of C8 as it is stated fails on a stored object that carries
    today's [date] and [weekId] and nothing else.  It is not a
    [WeeklySession], yet [readSessionSafe] returns it, the resume effect
    accepts it, and the initialize effect then throws on
    [resume.qIds.length]. *)
Lemma schema_mismatch_counterexample :
  let entry := Some (Store.Text Fixtures.dated_only) in
  Store.of_json Fixtures.dated_only = None /\
  Store.readSessionSafe entry = Some Fixtures.dated_only /\
  (Store.load_resume "2025-03-10" "2025-W11" entry).1 = Some Fixtures.dated_only /\
  Session.start (Fixtures.weekly 15) Fixtures.bank2 1000 1001 (Session.mount 0) entry
  = Some Session.TypeError.
Proof. repeat split; vm_compute; reflexivity. Qed.

Section Selector_examples.
Import Model.

(** The theorem of C2 on a bank of twelve hard, three medium and one easy
    question. *)
Lemma weekly_pick_12_hard_3_medium_witness :
  let picked := Selector.weekly_pick Fixtures.bank16 15 "2025-03-10" in
  (12 <= length (filter Selector.is_hard Fixtures.bank16))%nat /\
  (3 <= length (filter Selector.is_medium Fixtures.bank16))%nat /\
  length (filter Selector.is_hard picked) = 12%nat /\
  length (filter Selector.is_medium picked) = 3%nat /\
  length picked = 15%nat.
Proof.
  intros picked.
  assert (H12 : (12 <= length (filter Selector.is_hard Fixtures.bank16))%nat)
    by (vm_compute; lia).
  assert (H3 : (3 <= length (filter Selector.is_medium Fixtures.bank16))%nat)
    by (vm_compute; lia).
  split; [exact H12 |]. split; [exact H3 |].
  destruct (weekly_pick_12_hard_3_medium Fixtures.bank16 "2025-03-10" H12 H3)
    as (_ & _ & _ & Hh & Hm & Hl).
  repeat split; assumption.
Defined.

End Selector_examples.

(** ** Saving the attempt *)
Section Attempt_facts.
Import Attempt.

Example one_per_day_constraint :
  one_per_day
    "duplicate key value violates unique constraint weekly_attempts_ONE_PER_DAY"
  = true.
Proof. reflexivity. Qed.

Example one_per_day_other : one_per_day "permission denied for table" = false.
Proof. reflexivity. Qed.

(** A letter of the pattern, which has no upper-case letter, matches itself
    and its upper case. *)
Lemma lower_same_letter (c d : Ascii.ascii) :
  ~ (65 <= Ascii.nat_of_ascii d <= 90)%nat ->
  lower d = lower c <-> same_letter c d.
Proof.
  intros Hd.
  assert (Hld : lower d = d).
  { unfold lower.
    destruct (Nat.leb_spec 65 (Ascii.nat_of_ascii d));
      destruct (Nat.leb_spec (Ascii.nat_of_ascii d) 90); simpl;
      try reflexivity; lia. }
  rewrite Hld. unfold lower, same_letter.
  pose proof (Ascii.nat_ascii_bounded c) as Hc.
  destruct (Nat.leb_spec 65 (Ascii.nat_of_ascii c));
    destruct (Nat.leb_spec (Ascii.nat_of_ascii c) 90); simpl.
  - split.
    + intros ->. right.
      rewrite Ascii.nat_ascii_embedding by lia. lia.
    + intros [-> | [_ Heq]]; [lia |].
      rewrite Heq. now rewrite Ascii.ascii_nat_embedding.
  - split; [intros ->; now left | intros [-> | [? ?]]; [reflexivity | lia]].
  - split; [intros ->; now left | intros [-> | [? ?]]; [reflexivity | lia]].
  - split; [intros ->; now left | intros [-> | [? ?]]; [reflexivity | lia]].
Qed.

Lemma prefix_ci_spec (pat : string) :
  Forall (fun d => ~ (65 <= Ascii.nat_of_ascii d <= 90)%nat)
    (String.list_ascii_of_string pat) ->
  forall s,
    prefix_ci pat s = true <->
    exists mid post,
      s = mid +:+ post /\
      Forall2 same_letter (String.list_ascii_of_string mid)
        (String.list_ascii_of_string pat).
Proof.
  induction pat as [| d pat IH]; intros Hpat s.
  - simpl. split; [| reflexivity]. intros _.
    exists EmptyString, s. split; [reflexivity | constructor].
  - simpl in Hpat. apply Forall_cons in Hpat as [Hd Hpat].
    destruct s as [| c s]; simpl.
    + split; [discriminate |].
      intros (mid & post & Hs & Hm).
      destruct mid; [inversion Hm | discriminate].
    + rewrite andb_true_iff, bool_decide_eq_true, (IH Hpat s),
        (lower_same_letter c d Hd).
      split.
      * intros (Hcd & mid & post & -> & Hm).
        exists (String c mid), post. split; [reflexivity |].
        simpl. now constructor.
      * intros (mid & post & Hs & Hm).
        destruct mid as [| c' mid]; [inversion Hm |].
        simpl in Hs, Hm. injection Hs as <- ->.
        apply Forall2_cons in Hm as [Hcd Hm].
        split; [exact Hcd |]. now exists mid, post.
Qed.

Lemma contains_ci_spec (pat s : string) :
  contains_ci pat s = true <->
  exists pre rest, s = pre +:+ rest /\ prefix_ci pat rest = true.
Proof.
  induction s as [| c s IH].
  - simpl. rewrite orb_false_r. split.
    + intros H. now exists EmptyString, EmptyString.
    + intros (pre & rest & Hs & H).
      destruct pre; [| discriminate].
      change (EmptyString = rest) in Hs. now rewrite Hs.
  - simpl. rewrite orb_true_iff, IH. split.
    + intros [H | (pre & rest & -> & H)].
      * now exists EmptyString, (String c s).
      * now exists (String c pre), rest.
    + intros (pre & rest & Hs & H).
      destruct pre as [| c' pre].
      * change (String c s = rest) in Hs. rewrite Hs. now left.
      * change (String c s = String c' (pre +:+ rest)) in Hs.
        injection Hs as <- ->. right. now exists pre, rest.
Qed.

(** [one_per_day] is the match the pattern means. *)
Lemma one_per_day_refines (msg : string) :
  one_per_day msg = true <-> one_per_day_spec msg.
Proof.
  unfold one_per_day, one_per_day_spec. rewrite contains_ci_spec. split.
  - intros (pre & rest & -> & H).
    apply prefix_ci_spec in H as (mid & post & -> & Hm).
    + now exists pre, mid, post.
    + repeat constructor; vm_compute; lia.
  - intros (pre & mid & post & -> & Hm).
    exists pre, (mid +:+ post). split; [reflexivity |].
    apply prefix_ci_spec.
    + repeat constructor; vm_compute; lia.
    + now exists mid, post.
Qed.

(** The duplicate test of the source, by what it means. *)
Lemma is_duplicate_spec (e : PgError) :
  is_duplicate e = true
  <-> code e = Some "23505" \/ one_per_day_spec (message e).
Proof.
  unfold is_duplicate.
  now rewrite orb_true_iff, bool_decide_eq_true, one_per_day_refines.
Qed.

(** *** C9 *)

(** C9 holds for a duplicate and fails for a failure whose message is empty.
    When a weekly attempt is saved (no save under way, none done): an insert
    that goes through, or is refused for a uniqueness violation (error code
    23505, or a message in which [one_per_day] stands in lower or upper
    case), marks the attempt saved, records no error and shows "Saved".  Any
    other failure, an error object or a thrown exception, leaves the attempt
    unsaved and records its message, or [Save failed] when it has none.  A
    message that is not empty is shown with the Retry button, and the retry
    runs like the first call.  The empty message is recorded as it is and the
    screen then shows nothing of the save: no error and no Retry button. *)
Theorem empty_failure_message_not_shown (r : response) (s : SaveState) :
  saving s = false -> saved s = false ->
  let s' := saveWeeklyAttempt true r s in
  saving s' = false /\
  (r = Inserted
   \/ (exists e, r = Rejected e
                 /\ (code e = Some "23505" \/ one_per_day_spec (message e))) ->
   saved s' = true /\ saveError s' = None /\ save_status true s' = [SavedOk]) /\
  (forall msg,
     (exists m, r = Thrown m /\ msg = default "Save failed" m)
     \/ (exists e, r = Rejected e /\ code e <> Some "23505"
                   /\ ~ one_per_day_spec (message e) /\ msg = message e) ->
     saved s' = false /\ saveError s' = Some msg /\
     (msg <> "" ->
      save_status true s' = [CouldntSave msg] /\
      forall r', saveWeeklyAttempt true r' s' = saveWeeklyAttempt true r' s) /\
     (msg = "" -> save_status true s' = [])).
Proof.
  intros Hsaving Hsaved s'. subst s'. unfold saveWeeklyAttempt.
  rewrite Hsaving, Hsaved. simpl. split; [| split].
  - destruct r as [| e | m]; [reflexivity | | reflexivity].
    now destruct (is_duplicate e).
  - intros [-> | (e & -> & Hdup)]; [now repeat split |].
    assert (Hd : is_duplicate e = true).
    { unfold is_duplicate. apply orb_true_iff.
      destruct Hdup as [Hc | Hm].
      - left. now apply bool_decide_eq_true.
      - right. now apply one_per_day_refines. }
    rewrite Hd. now repeat split.
  - intros msg [(m & -> & ->) | (e & -> & Hc & Hm & ->)].
    + unfold save_status. simpl. rewrite ?Hsaved.
      split; [reflexivity |]. split; [reflexivity |]. split.
      * intros Hne. destruct (default "Save failed" m) eqn:Hmsg;
          [contradiction | now split].
      * intros Hempty. now rewrite Hempty.
    + assert (Hd : is_duplicate e = false).
      { unfold is_duplicate. apply orb_false_iff. split.
        - now apply bool_decide_eq_false.
        - apply not_true_is_false. now rewrite one_per_day_refines. }
      rewrite Hd. unfold save_status. simpl. rewrite ?Hsaved.
      split; [reflexivity |]. split; [reflexivity |]. split.
      * intros Hne. destruct (message e) eqn:Hmsg; [contradiction | now split].
      * intros Hempty. now rewrite Hempty.
Qed.

End Attempt_facts.

(** The theorem at the failing input of C9: the awaited insert throws an
    error whose message is the empty string.  The attempt is not saved, the
    empty message is recorded, and the screen shows neither the error nor the
    Retry button. *)
Lemma empty_failure_message_not_shown_witness :
  let s := {| Attempt.saving := false; Attempt.saved := false;
              Attempt.saveError := None |} in
  let s' := Attempt.saveWeeklyAttempt true (Attempt.Thrown (Some "")) s in
  Attempt.saved s' = false /\
  Attempt.saveError s' = Some "" /\
  Attempt.save_status true s' = [].
Proof.
  intros s s'.
  destruct (empty_failure_message_not_shown (Attempt.Thrown (Some "")) s
              eq_refl eq_refl) as (_ & _ & Hfail).
  destruct (Hfail "") as (Hsaved & Herr & _ & Hshown).
  - left. exists (Some ""). split; reflexivity.
  - split; [exact Hsaved |]. split; [exact Herr |]. now apply Hshown.
Defined.

(** A failure with a message is shown with the Retry button, and a duplicate
    as saved. *)
Example failure_with_message_shown :
  let s := {| Attempt.saving := false; Attempt.saved := false;
              Attempt.saveError := None |} in
  Attempt.save_status true
    (Attempt.saveWeeklyAttempt true (Attempt.Thrown (Some "Failed to fetch")) s)
  = [Attempt.CouldntSave "Failed to fetch"] /\
  Attempt.save_status true
    (Attempt.saveWeeklyAttempt true (Attempt.Thrown None) s)
  = [Attempt.CouldntSave "Save failed"] /\
  Attempt.save_status true
    (Attempt.saveWeeklyAttempt true
       (Attempt.Rejected
          {| Attempt.code := None;
             Attempt.message := "violates constraint One_Per_Day" |}) s)
  = [Attempt.SavedOk].
Proof. repeat split. Qed.

(** ** The URL parameters *)
Section UrlParams_facts.
Import UrlParams.

(** A parameter that is absent, or whose text converts to a number, is
    clamped. *)
Lemma clamp_of_number (w : bool) (param : option jsnum) :
  param <> Some NaN ->
  ge (n_of w param) 1 /\ ge (total_of w param) 5 /\ le (total_of w param) 120.
Proof.
  intros Hnum. unfold n_of, total_of.
  destruct param as [[| q | |] |]; try congruence; simpl.
  - repeat split.
    + destruct (Qle_bool 1 q) eqn:E; simpl;
        [now apply Qle_bool_iff | apply Qle_refl].
    + destruct (Qle_bool 120 q) eqn:E; simpl; [discriminate |].
      destruct (Qle_bool 5 q) eqn:E5; simpl;
        [now apply Qle_bool_iff | apply Qle_refl].
    + destruct (Qle_bool 120 q) eqn:E; simpl; [discriminate |].
      destruct (Qle_bool 5 q) eqn:E5; simpl; [| discriminate].
      apply Qnot_lt_le. intros Hlt.
      assert (Qle_bool 120 q = true) by (apply Qle_bool_iff, Qlt_le_weak, Hlt).
      congruence.
  - repeat split; discriminate.
  - repeat split; discriminate.
  - destruct w; repeat split; discriminate.
Qed.

(** *** C10 *)

(** C10 fails on a parameter whose text is not a number.  For [?n=abc] or
    [?t=abc], [Number] gives [NaN], [Math.max] and [Math.min] pass it on, and
    the quiz runs with [n = NaN] (not at least 1) or [total = NaN] (not
    within 5 and 120). *)
Theorem clamp_passes_NaN (w : bool) :
  n_of w (Some NaN) = NaN /\ total_of w (Some NaN) = NaN /\
  ~ ge (n_of w (Some NaN)) 1 /\
  ~ (ge (total_of w (Some NaN)) 5 /\ le (total_of w (Some NaN)) 120).
Proof.
  repeat split.
  - simpl. tauto.
  - simpl. tauto.
Qed.

End UrlParams_facts.

(** ** The selection, for every bank *)
Section Selector_more.
Import JS Shuffle Model Selector.
Implicit Types (bank qs : list Question) (q : Question).

(** Distinct ids make [id] injective on the bank. *)
Lemma id_inj_on bank :
  NoDup (id <$> bank) ->
  forall x y, x ∈ bank -> y ∈ bank -> id x = id y -> x = y.
Proof.
  induction bank as [| z bank IH]; intros Hnd x y Hx Hy Hid.
  - inversion Hx.
  - rewrite fmap_cons in Hnd. apply NoDup_cons in Hnd as [Hz Hnd].
    apply elem_of_cons in Hx as [-> | Hx], Hy as [-> | Hy].
    + reflexivity.
    + destruct Hz. rewrite Hid. now apply list_elem_of_fmap_2.
    + destruct Hz. rewrite <- Hid. now apply list_elem_of_fmap_2.
    + now apply IH.
Qed.

(** The three difficulty groups partition the bank. *)
Lemma groups_partition bank :
  filter is_hard bank ++ filter is_medium bank ++ filter is_other bank ≡ₚ bank.
Proof.
  induction bank as [| q bank IH]; [reflexivity |].
  rewrite !filter_cons.
  assert (Hcase : (is_hard q /\ ~ is_medium q /\ ~ is_other q)
                  \/ (~ is_hard q /\ is_medium q /\ ~ is_other q)
                  \/ (~ is_hard q /\ ~ is_medium q /\ is_other q)).
  { unfold is_hard, is_medium, is_other.
    destruct (difficulty q); [right; right | right; left | left];
      repeat split; try congruence; intros [? ?]; congruence. }
  destruct Hcase as [(H1 & H2 & H3) | [(H1 & H2 & H3) | (H1 & H2 & H3)]];
    destruct (decide (is_hard q)); try contradiction;
    destruct (decide (is_medium q)); try contradiction;
    destruct (decide (is_other q)); try contradiction.
  - simpl. now constructor.
  - etrans; [| apply perm_skip, IH].
    symmetry. apply Permutation_middle.
  - etrans; [| apply perm_skip, IH].
    rewrite !app_assoc. symmetry. apply Permutation_middle.
Qed.

Lemma need_hard_bounds t : 0 <= t -> 0 <= need_hard t <= t.
Proof.
  intros Ht. rewrite need_hard_quotient.
  assert (0 <= (8 * t + 5) / 10) by (apply Z.div_pos; lia).
  assert ((8 * t + 5) / 10 < t + 1) by (apply Z.div_lt_upper_bound; lia).
  lia.
Qed.

(** A prefix of a shuffled group: without repetition, inside the group. *)
Lemma shuffled_prefix_NoDup (P : Question -> Prop) `{!forall x, Decision (P x)}
    bank (s : code_units) (k : nat) :
  NoDup bank -> NoDup (take k (seededShuffle (filter P bank) s)).
Proof.
  intros Hnd. eapply sublist_NoDup; [| apply sublist_take].
  rewrite (seededShuffle_perm (filter P bank) s). now apply NoDup_filter.
Qed.

Lemma shuffled_prefix_in_bank (P : Question -> Prop) `{!forall x, Decision (P x)}
    bank (s : code_units) (k : nat) q :
  q ∈ take k (seededShuffle (filter P bank) s) -> P q /\ q ∈ bank.
Proof.
  intros Hq. apply subseteq_take in Hq.
  rewrite (seededShuffle_perm (filter P bank) s) in Hq.
  now apply list_elem_of_filter in Hq.
Qed.

(** The questions of the bank whose id is taken are the picks themselves. *)
Lemma taken_are_picks bank (picks : list Question) :
  NoDup (id <$> bank) -> NoDup picks -> picks ⊆ bank ->
  let taken : gset string := list_to_set (id <$> picks) in
  filter (fun q => ~ (id q ∉ taken)) bank ≡ₚ picks.
Proof.
  intros Hids Hnd Hsub taken.
  apply NoDup_Permutation; [| exact Hnd |].
  - apply NoDup_filter. now apply NoDup_fmap_1 in Hids.
  - intros x. rewrite list_elem_of_filter. split.
    + intros [Hx Hbank]. apply dec_stable in Hx.
      apply elem_of_list_to_set, list_elem_of_fmap in Hx as (y & Hid & Hy).
      now rewrite (id_inj_on bank Hids x y Hbank (Hsub y Hy) Hid).
    + intros Hx. split; [| now apply Hsub].
      intros Hnot. apply Hnot.
      now apply elem_of_list_to_set, list_elem_of_fmap_2.
Qed.

(** The weekly pick, up to the final shuffle: a list without repetition, drawn
    from the bank, of the target length. *)
Lemma weekly_pick_perm bank (n : Z) (dateKey : string) :
  NoDup (id <$> bank) -> 0 <= n ->
  exists picks,
    weekly_pick bank n dateKey ≡ₚ picks /\ NoDup picks /\ picks ⊆ bank
    /\ length picks = Z.to_nat (Z.min n (Z.of_nat (length bank))).
Proof.
  intros Hids Hn.
  assert (Hnd : NoDup bank) by now apply NoDup_fmap_1 in Hids.
  unfold weekly_pick.
  set (target := Z.min n (Z.of_nat (length bank))).
  assert (Htarget : 0 <= target <= Z.of_nat (length bank)) by lia.
  pose proof (need_hard_bounds target ltac:(lia)) as Hneed.
  rewrite !(slice0_take _ (need_hard target)) by lia.
  rewrite !(slice0_take _ (target - need_hard target)) by lia.
  set (hardPick := take (Z.to_nat (need_hard target)) _).
  set (medPick := take (Z.to_nat (target - need_hard target)) _).
  assert (Hh : forall q, q ∈ hardPick -> is_hard q /\ q ∈ bank)
    by (intros q; apply shuffled_prefix_in_bank).
  assert (Hm : forall q, q ∈ medPick -> is_medium q /\ q ∈ bank)
    by (intros q; apply shuffled_prefix_in_bank).
  assert (Hnd0 : NoDup (hardPick ++ medPick)).
  { apply NoDup_app. split; [now apply shuffled_prefix_NoDup |].
    split; [| now apply shuffled_prefix_NoDup].
    intros q Hq1 Hq2. apply Hh in Hq1 as [Hq1 _]. apply Hm in Hq2 as [Hq2 _].
    now apply (hard_not_medium q). }
  assert (Hsub0 : hardPick ++ medPick ⊆ bank).
  { intros q Hq. apply elem_of_app in Hq as [Hq | Hq];
      [now apply Hh | now apply Hm]. }
  assert (Hlen0 : (length (hardPick ++ medPick) <= Z.to_nat target)%nat).
  { rewrite length_app. unfold hardPick, medPick. rewrite !length_take. lia. }
  destruct (Z.ltb_spec (Z.of_nat (length (hardPick ++ medPick))) target)
    as [Hshort | Hfull].
  - set (taken := list_to_set (id <$> hardPick ++ medPick) : gset string).
    set (pool0 := seededShuffle (filter is_hard bank) _ ++ _ ++ _).
    assert (Hpool0 : pool0 ≡ₚ bank).
    { unfold pool0. rewrite !seededShuffle_perm. apply groups_partition. }
    set (pool := filter (fun q => id q ∉ taken) pool0).
    assert (Hpool : pool ≡ₚ filter (fun q => id q ∉ taken) bank).
    { unfold pool. now rewrite Hpool0. }
    assert (Hlenpool :
      (length pool + length (hardPick ++ medPick) = length bank)%nat).
    { rewrite Hpool.
      rewrite <- (taken_are_picks bank (hardPick ++ medPick) Hids Hnd0 Hsub0).
      fold taken. rewrite <- length_app.
      apply Permutation_length, filter_app_complement. }
    rewrite slice0_take by lia.
    set (fill := take _ pool).
    exists ((hardPick ++ medPick) ++ fill).
    split; [apply seededShuffle_perm |]. split; [| split].
    + apply NoDup_app. split; [exact Hnd0 |]. split.
      * intros q Hq Hfill. apply subseteq_take in Hfill.
        apply list_elem_of_filter in Hfill as [Hnot _]. apply Hnot.
        now apply elem_of_list_to_set, list_elem_of_fmap_2.
      * eapply sublist_NoDup; [| apply sublist_take].
        rewrite Hpool. now apply NoDup_filter.
    + intros q Hq. apply elem_of_app in Hq as [Hq | Hq];
        [now apply Hsub0 |].
      apply subseteq_take in Hq. rewrite Hpool in Hq.
      now apply list_elem_of_filter in Hq.
    + rewrite length_app. unfold fill. rewrite length_take. lia.
  - exists (hardPick ++ medPick).
    split; [apply seededShuffle_perm |]. split; [exact Hnd0 |].
    split; [exact Hsub0 | lia].
Qed.

(** X1.  The weekly selection has exactly [min n (size of the bank)] questions,
    all from the bank, no id twice. *)
Theorem weekly_pick_size_distinct bank (n : Z) (dateKey : string) :
  NoDup (id <$> bank) -> 0 <= n ->
  let picked := weekly_pick bank n dateKey in
  length picked = Z.to_nat (Z.min n (Z.of_nat (length bank)))
  /\ NoDup (id <$> picked)
  /\ picked ⊆ bank.
Proof.
  intros Hids Hn picked.
  destruct (weekly_pick_perm bank n dateKey Hids Hn)
    as (picks & Hperm & Hnd & Hsub & Hlen).
  fold picked in Hperm. split; [| split].
  - now rewrite Hperm.
  - rewrite Hperm. apply NoDup_fmap_2_strong; [| exact Hnd].
    intros x y Hx Hy. apply (id_inj_on bank Hids); now apply Hsub.
  - intros q Hq. rewrite Hperm in Hq. now apply Hsub.
Qed.

(** X2.  The 80/20 split, for every [n]: when the bank has enough hard and enough
    medium questions for the target, the pick holds exactly
    [round (target * 0.8)] hard questions and the rest medium. *)
Theorem weekly_pick_split bank (n : Z) (dateKey : string) :
  0 <= n ->
  let target := Z.min n (Z.of_nat (length bank)) in
  let picked := weekly_pick bank n dateKey in
  (Z.to_nat (need_hard target) <= length (filter is_hard bank))%nat ->
  (Z.to_nat (target - need_hard target) <= length (filter is_medium bank))%nat ->
  8 * target - 5 < 10 * need_hard target <= 8 * target + 5 /\
  length (filter is_hard picked) = Z.to_nat (need_hard target) /\
  length (filter is_medium picked) = Z.to_nat (target - need_hard target) /\
  length picked = Z.to_nat target.
Proof.
  intros Hn target picked Hhard Hmed.
  assert (Htarget : 0 <= target) by (unfold target; lia).
  pose proof (need_hard_bounds target Htarget) as Hneed.
  split.
  { rewrite need_hard_quotient.
    pose proof (Z.div_mod (8 * target + 5) 10 ltac:(lia)).
    pose proof (Z.mod_pos_bound (8 * target + 5) 10 ltac:(lia)). lia. }
  unfold picked, weekly_pick. fold target.
  rewrite !(slice0_take _ (need_hard target)) by lia.
  rewrite !(slice0_take _ (target - need_hard target)) by lia.
  set (hardPick := take (Z.to_nat (need_hard target)) _).
  set (medPick := take (Z.to_nat (target - need_hard target)) _).
  assert (Hlh : length hardPick = Z.to_nat (need_hard target)).
  { unfold hardPick. rewrite length_take_le; [reflexivity |].
    now rewrite seededShuffle_length. }
  assert (Hlm : length medPick = Z.to_nat (target - need_hard target)).
  { unfold medPick. rewrite length_take_le; [reflexivity |].
    now rewrite seededShuffle_length. }
  assert (HPh : Forall is_hard hardPick) by apply shuffled_prefix_in_group.
  assert (HPm : Forall is_medium medPick) by apply shuffled_prefix_in_group.
  destruct (Z.ltb_spec (Z.of_nat (length (hardPick ++ medPick))) target)
    as [Hshort | _]; [rewrite length_app in Hshort; lia |].
  repeat split.
  - rewrite (seededShuffle_perm (hardPick ++ medPick)), filter_app.
    rewrite (filter_all is_hard hardPick HPh), (filter_none is_hard medPick).
    + rewrite length_app, Hlh. simpl. lia.
    + eapply Forall_impl; [exact HPm |]. apply medium_not_hard.
  - rewrite (seededShuffle_perm (hardPick ++ medPick)), filter_app.
    rewrite (filter_all is_medium medPick HPm), (filter_none is_medium hardPick).
    + rewrite length_app, Hlm. reflexivity.
    + eapply Forall_impl; [exact HPh |]. apply hard_not_medium.
  - rewrite seededShuffle_length, length_app, Hlh, Hlm. lia.
Qed.

(** [new Map(...)] of the bank: an id of the bank is found, another is not. *)
Lemma fold_insert_notin bank : forall (m : gmap string Question) k,
  k ∉ id <$> bank ->
  fold_left (fun m q => <[id q := q]> m) bank m !! k = m !! k.
Proof.
  induction bank as [| x bank IH]; intros m k Hk; [reflexivity |].
  rewrite fmap_cons in Hk. apply not_elem_of_cons in Hk as [Hne Hk].
  simpl. rewrite IH by assumption. now rewrite lookup_insert_ne.
Qed.

Lemma fold_insert_found bank : forall (m : gmap string Question) q,
  NoDup (id <$> bank) -> q ∈ bank ->
  fold_left (fun m q => <[id q := q]> m) bank m !! id q = Some q.
Proof.
  induction bank as [| x bank IH]; intros m q Hnd Hq; [inversion Hq |].
  rewrite fmap_cons in Hnd. apply NoDup_cons in Hnd as [Hx Hnd].
  simpl. apply elem_of_cons in Hq as [-> | Hq].
  - rewrite fold_insert_notin by assumption. apply lookup_insert_eq.
  - now apply IH.
Qed.

Lemma fold_insert_is_Some bank : forall (m : gmap string Question) k,
  is_Some (fold_left (fun m q => <[id q := q]> m) bank m !! k)
  <-> k ∈ id <$> bank \/ is_Some (m !! k).
Proof.
  induction bank as [| x bank IH]; intros m k; simpl.
  - split; [now right | intros [H | H]; [inversion H | exact H]].
  - rewrite IH, elem_of_cons, lookup_insert_is_Some.
    destruct (decide (id x = k)) as [Heq | Hne]; [now intuition |].
    split; intros [H | H]; try tauto.
    destruct H as [H | H]; [congruence | tauto].
Qed.

Lemma by_id_found bank q :
  NoDup (id <$> bank) -> q ∈ bank -> by_id bank !! id q = Some q.
Proof. apply fold_insert_found. Qed.

Lemma by_id_is_Some bank k : is_Some (by_id bank !! k) <-> k ∈ id <$> bank.
Proof.
  unfold by_id. rewrite fold_insert_is_Some, lookup_empty.
  split; [intros [H | H]; [exact H | now destruct H] | now left].
Qed.

Lemma rebuild_ids bank qs :
  NoDup (id <$> bank) -> qs ⊆ bank -> rebuild bank (id <$> qs) = qs.
Proof.
  intros Hnd Hsub. unfold rebuild.
  induction qs as [| q qs IH]; [reflexivity |].
  rewrite fmap_cons. simpl.
  rewrite by_id_found by (try assumption; apply Hsub; left).
  f_equal. apply IH. intros x Hx. apply Hsub. now right.
Qed.

(** X3.  Rebuilding a question list from its ids gives the list back when the ids
    of the bank are distinct; in particular the weekly pick is rebuilt from
    the ids a session stores. *)
Theorem rebuild_roundtrip bank (n : Z) (dateKey : string) :
  NoDup (id <$> bank) ->
  (forall qs, qs ⊆ bank -> rebuild bank (id <$> qs) = qs) /\
  (0 <= n ->
   rebuild bank (id <$> weekly_pick bank n dateKey) = weekly_pick bank n dateKey).
Proof.
  intros Hnd. split.
  - intros qs Hsub. now apply rebuild_ids.
  - intros Hn. apply rebuild_ids; [exact Hnd |].
    destruct (weekly_pick_perm bank n dateKey Hnd Hn) as (picks & Hperm & _ & Hsub & _).
    intros q Hq. rewrite Hperm in Hq. now apply Hsub.
Qed.

Lemma omap_cons_eq {A B} (f : A -> option B) (k : A) (l : list A) :
  omap f (k :: l)
  = match f k with Some y => y :: omap f l | None => omap f l end.
Proof. reflexivity. Qed.

Lemma omap_length_le {A B} (f : A -> option B) (l : list A) :
  (length (omap f l) <= length l)%nat.
Proof.
  induction l as [| k l IH]; [reflexivity |].
  rewrite omap_cons_eq. destruct (f k); simpl; lia.
Qed.

(** A question stored in the map of the bank is stored under its id. *)
Lemma by_id_key bank k q : by_id bank !! k = Some q -> id q = k /\ q ∈ bank.
Proof.
  unfold by_id.
  assert (Hgen : forall l (m : gmap string Question),
    (forall k' q', m !! k' = Some q' -> id q' = k' /\ q' ∈ bank) ->
    (forall x, x ∈ l -> x ∈ bank) ->
    fold_left (fun m q => <[id q := q]> m) l m !! k = Some q ->
    id q = k /\ q ∈ bank).
  { induction l as [| x l IHl]; intros m Hm Hl Hf; simpl in Hf; [eauto |].
    apply (IHl (<[id x := x]> m)); [| intros y Hy; apply Hl; now right | exact Hf].
    intros k' q' Hq'.
    destruct (decide (id x = k')) as [<- | Hne].
    - rewrite lookup_insert_eq in Hq'. injection Hq' as <-.
      split; [reflexivity | apply Hl; left].
    - rewrite lookup_insert_ne in Hq' by assumption. eauto. }
  apply Hgen; [intros k' q' H; now rewrite lookup_empty in H | auto].
Qed.

(** X4.  The rebuilt list keeps the order of the ids and drops the ids that are
    not in the bank: it is as long as the id list exactly when every id is
    found, and each of its questions is a question of the bank stored under
    one of the ids. *)
Theorem rebuild_length bank (ids : list string) :
  (length (rebuild bank ids) <= length ids)%nat /\
  (length (rebuild bank ids) = length ids
   <-> Forall (fun k => k ∈ id <$> bank) ids) /\
  (forall q, q ∈ rebuild bank ids -> q ∈ bank /\ id q ∈ ids).
Proof.
  unfold rebuild. split; [apply omap_length_le | split].
  - induction ids as [| k ids IH]; [split; [constructor | reflexivity] |].
    pose proof (omap_length_le (fun i => by_id bank !! i) ids) as Hle.
    rewrite omap_cons_eq, Forall_cons, <- IH, <- by_id_is_Some.
    destruct (by_id bank !! k) as [q |] eqn:Hk; simpl.
    + split; [intros H; split; [eauto | lia] | intros [_ H]; lia].
    + split; [lia | intros [[? ?] _]; discriminate].
  - intros q Hq. apply list_elem_of_omap in Hq as (k & Hin & Hk).
    apply by_id_key in Hk as [<- Hbank]. now split.
Qed.

(** X5.  A practice quiz holds only questions of the requested category and
    difficulty, in number [min n (matching questions)]. *)
Theorem practice_pick_filtered bank (n : Z) (c d : string) (sd : code_units) :
  0 <= n ->
  let matching :=
    filter (fun q => (c = "" \/ category q = c)
                     /\ (d = "" \/ difficulty_name (difficulty q) = d)) bank in
  let picked := practice_pick bank n c d sd in
  length picked = Z.to_nat (Z.min n (Z.of_nat (length matching))) /\
  (forall q, q ∈ picked ->
     q ∈ bank /\ (c = "" \/ category q = c)
     /\ (d = "" \/ difficulty_name (difficulty q) = d)) /\
  (NoDup bank -> NoDup picked).
Proof.
  intros Hn matching picked.
  assert (Hfiltered : exists filtered,
            picked = slice0 (seededShuffle filtered sd)
                       (Z.min n (Z.of_nat (length filtered)))
            /\ filtered = matching).
  { eexists. split; [reflexivity |]. unfold matching.
    destruct (decide (c = "")) as [-> | Hc], (decide (d = "")) as [-> | Hd].
    - symmetry. apply filter_all, Forall_forall. intros; split; now left.
    - apply list_filter_iff. intros q. split; [intros H; split; [now left | now right] |].
      intros [_ [H | H]]; [contradiction | exact H].
    - apply list_filter_iff. intros q. split; [intros H; split; [now right | now left] |].
      intros [[H | H] _]; [contradiction | exact H].
    - rewrite list_filter_filter. apply list_filter_iff. intros q.
      split; [intros [H1 H2]; split; now right |].
      intros [[H1 | H1] [H2 | H2]]; try contradiction. now split. }
  destruct Hfiltered as (filtered & -> & ->).
  rewrite slice0_take by lia.
  split; [| split].
  - rewrite length_take, seededShuffle_length. lia.
  - intros q Hq. apply subseteq_take in Hq.
    rewrite seededShuffle_perm in Hq.
    apply list_elem_of_filter in Hq as [Hm Hb]. tauto.
  - intros Hnd. eapply sublist_NoDup; [| apply sublist_take].
    rewrite seededShuffle_perm. now apply NoDup_filter.
Qed.

End Selector_more.

Section Selector_more_examples.
Import Model.

Lemma bank16_ids_distinct : NoDup (id <$> Fixtures.bank16).
Proof. refine (bool_decide_unpack _ _). vm_compute. exact I. Qed.

(** The theorem on the sixteen-question bank: the pick for [n=15] has
    fifteen distinct questions of the bank. *)
Lemma weekly_pick_size_distinct_witness :
  let picked := Selector.weekly_pick Fixtures.bank16 15 "2025-03-10" in
  NoDup (id <$> Fixtures.bank16) /\
  length picked = 15%nat /\ NoDup (id <$> picked) /\ picked ⊆ Fixtures.bank16.
Proof.
  intros picked. split; [exact bank16_ids_distinct |].
  destruct (weekly_pick_size_distinct Fixtures.bank16 15 "2025-03-10"
              bank16_ids_distinct ltac:(lia)) as (Hl & Hnd & Hsub).
  split; [etrans; [exact Hl | vm_compute; reflexivity] |].
  split; [exact Hnd | exact Hsub].
Defined.

(** The split for [n=10] on the sixteen-question bank: eight hard and two
    medium questions. *)
Lemma weekly_pick_split_witness :
  let picked := Selector.weekly_pick Fixtures.bank16 10 "2025-03-10" in
  length (filter Selector.is_hard picked) = 8%nat /\
  length (filter Selector.is_medium picked) = 2%nat /\
  length picked = 10%nat.
Proof.
  intros picked.
  assert (Hhard : (Z.to_nat (Selector.need_hard
                               (Z.min 10 (Z.of_nat (length Fixtures.bank16))))
                   <= length (filter Selector.is_hard Fixtures.bank16))%nat)
    by (vm_compute; lia).
  assert (Hmed : (Z.to_nat (Z.min 10 (Z.of_nat (length Fixtures.bank16))
                            - Selector.need_hard
                                (Z.min 10 (Z.of_nat (length Fixtures.bank16))))
                  <= length (filter Selector.is_medium Fixtures.bank16))%nat)
    by (vm_compute; lia).
  destruct (weekly_pick_split Fixtures.bank16 10 "2025-03-10" ltac:(lia)
              Hhard Hmed) as (_ & Hh & Hm & Hl).
  split; [etrans; [exact Hh | vm_compute; reflexivity] |].
  split; [etrans; [exact Hm | vm_compute; reflexivity] |].
  etrans; [exact Hl | vm_compute; reflexivity].
Defined.

(** The ids of the pick from the sixteen-question bank give the pick back. *)
Lemma rebuild_roundtrip_witness :
  NoDup (id <$> Fixtures.bank16) /\
  Selector.rebuild Fixtures.bank16
    (id <$> Selector.weekly_pick Fixtures.bank16 15 "2025-03-10")
  = Selector.weekly_pick Fixtures.bank16 15 "2025-03-10".
Proof.
  split; [exact bank16_ids_distinct |].
  exact (proj2 (rebuild_roundtrip Fixtures.bank16 15 "2025-03-10"
                  bank16_ids_distinct) ltac:(lia)).
Defined.

(** A practice quiz of hard questions of the category [cells] from the
    sixteen-question bank. *)
Lemma practice_pick_filtered_witness :
  let picked :=
    Selector.practice_pick Fixtures.bank16 10 "cells" "hard"
      (Shuffle.units_of "NORMAL-1") in
  0 <= 10 /\
  forall q, q ∈ picked ->
    q ∈ Fixtures.bank16 /\ category q = "cells" /\ difficulty q = hard.
Proof.
  intros picked. split; [lia |].
  assert (H0 : 0 <= 10) by lia.
  pose proof (practice_pick_filtered Fixtures.bank16 10 "cells" "hard"
                (Shuffle.units_of "NORMAL-1") H0) as H.
  cbv zeta in H. destruct H as (_ & Hq & _).
  intros q Hin. destruct (Hq q Hin) as (Hb & [Hc | Hc] & [Hd | Hd]);
    try discriminate.
  split; [exact Hb |]. split; [exact Hc |]. now destruct (difficulty q).
Defined.

End Selector_more_examples.

(** ** Invariants of a run *)
Section Progress_facts.
Import JS Model Store Selector Session Progress.
Implicit Types (p : Params) (qs : list Question) (st : State)
         (entry : option item).

(** An invariant of [step] is an invariant of [run]. *)
Lemma run_invariant p qs (I : State -> option item -> Prop) :
  (forall e st entry st' entry',
      I st entry -> step p qs e st entry = Some (st', entry') -> I st' entry') ->
  forall es st entry st' entry',
    I st entry -> run p qs es st entry = Some (st', entry') -> I st' entry'.
Proof.
  intros Hstep es. induction es as [| e es IH]; intros st entry st' entry' HI Hrun.
  - simpl in Hrun. now injection Hrun as <- <-.
  - simpl in Hrun.
    destruct (step p qs e st entry) as [[st1 entry1] |] eqn:He; [| discriminate].
    eapply IH; [| exact Hrun]. eapply Hstep; eassumption.
Qed.

Lemma step_moved p qs e st entry st' entry' :
  step p qs e st entry = Some (st', entry') -> moved p qs e st st'.
Proof.
  intros Hstep. destruct e as [idx now | t | now]; simpl in Hstep.
  - unfold choose in Hstep. destruct (locked st) eqn:Hl.
    + injection Hstep as <- _. constructor.
    + destruct (qs !! qIndex st) as [q |] eqn:Hq.
      * destruct (saveWeeklySnapshot _ _ _ _ _) as [e1 |]; simpl in Hstep;
          [| discriminate].
        injection Hstep as <- _. now apply moved_answer.
      * injection Hstep as <- _. constructor.
  - unfold frame in Hstep. destruct (raf st) eqn:Hr; simpl in Hstep.
    + destruct (negb (expired st) && (startedAt st + total p * 1000 <=? t))
        eqn:Hc.
      * destruct (saveWeeklySnapshot _ _ _ _ _) as [e1 |]; simpl in Hstep;
          [| discriminate].
        apply andb_true_iff in Hc as [_ Hc%Z.leb_le].
        injection Hstep as <- _. now apply moved_expiry.
      * injection Hstep as <- _. now apply moved_sample.
    + injection Hstep as <- _. constructor.
  - unfold next in Hstep.
    destruct (decide (qIndex st < length qs - 1)%nat) as [Hlt | Hge].
    + destruct (saveWeeklySnapshot _ _ _ _ _) as [e1 |]; simpl in Hstep;
        [| discriminate].
      injection Hstep as <- _. now apply moved_next.
    + injection Hstep as <- _. now apply moved_finish.
Qed.

(** Writing inside an array. *)
Lemma set_in_range {A} (arr : jsarr A) (i : nat) (v : A) :
  (i < length arr)%nat -> set arr i v = <[i := Some v]> arr.
Proof. intros Hi. unfold set. now rewrite decide_True. Qed.

Lemma length_set_in_range {A} (arr : jsarr A) (i : nat) (v : A) :
  (i < length arr)%nat -> length (set arr i v) = length arr.
Proof. intros Hi. rewrite set_in_range by assumption. apply length_insert. Qed.

Lemma set_Forall {A} (P : option A -> Prop) (arr : jsarr A) (i : nat) (v : A) :
  Forall P arr -> P None -> P (Some v) -> Forall P (set arr i v).
Proof.
  intros Harr Hnone Hv. unfold set. destruct (decide _).
  - now apply Forall_insert.
  - apply Forall_app. split; [exact Harr |].
    apply Forall_app. split; [apply Forall_replicate, Hnone | now constructor].
Qed.

(** Overwriting one slot moves the count of a status by what leaves and what
    enters. *)
Lemma count_insert (s : Status) (arr : jsarr Status) : forall i x y,
  arr !! i = Some x ->
  (count_status s (<[i := y]> arr) + (if decide (x = Some s) then 1 else 0)
   = count_status s arr + (if decide (y = Some s) then 1 else 0))%nat.
Proof.
  unfold count_status.
  induction arr as [| z arr IH]; intros i x y Hi; [discriminate |].
  destruct i as [| i]; simpl in Hi |- *.
  - injection Hi as ->. rewrite !filter_cons.
    destruct (decide (x = Some s)), (decide (y = Some s)); simpl; lia.
  - rewrite !filter_cons. specialize (IH i x y Hi).
    destruct (decide (z = Some s)); simpl; lia.
Qed.

Lemma count_set_unanswered (arr : jsarr Status) (i : nat) (v : Status) :
  get arr i = Some unanswered ->
  count_status correct (set arr i v)
  = (count_status correct arr + (if decide (v = correct) then 1 else 0))%nat.
Proof.
  intros Hget. unfold get in Hget.
  destruct (arr !! i) as [x |] eqn:Hi; [| discriminate]. simpl in Hget. subst x.
  rewrite set_in_range by (eapply lookup_lt_Some; eassumption).
  pose proof (count_insert correct arr i _ (Some v) Hi) as Hc.
  rewrite decide_False in Hc by discriminate.
  destruct (decide (v = correct)) as [-> | Hne].
  - rewrite decide_True in Hc by reflexivity. lia.
  - rewrite decide_False in Hc by congruence. lia.
Qed.

Lemma get_in_range {A} (arr : jsarr A) (i : nat) (v : A) :
  get arr i = Some v -> (i < length arr)%nat.
Proof.
  unfold get. destruct (arr !! i) eqn:Hi; [| discriminate].
  intros _. eapply lookup_lt_Some; eassumption.
Qed.

Lemma fresh_steady qs now : qs <> [] -> steady qs (fresh_state now (length qs)).
Proof.
  intros Hqs. split; [now apply fresh_in_order |]. simpl. unfold fill.
  rewrite !length_replicate. repeat split.
  - apply Forall_replicate. eauto.
  - unfold count_status.
    rewrite filter_none; [reflexivity |].
    apply Forall_replicate. discriminate.
Qed.

(** Every event keeps the run steady. *)
Lemma step_steady p qs e st entry st' entry' :
  steady qs st ->
  step p qs e st entry = Some (st', entry') ->
  steady qs st'.
Proof.
  intros (Hin & Hls & Hlt & Hsome & Hscore) Hstep.
  split; [eapply step_in_order; eassumption |].
  destruct Hin as ((Hraf & _) & Hi & _ & Hcur).
  apply step_moved in Hstep.
  inversion Hstep as [ | idx now st0 q Hl Hq | t st0 Hr | | | ];
    subst; simpl; try (now repeat split).
  - rewrite !length_set_in_range by lia.
    split; [assumption |]. split; [assumption |]. split.
    + rewrite set_in_range by lia. apply Forall_insert; eauto.
    + rewrite count_set_unanswered by now apply Hcur.
      unfold grade. destruct (bool_decide (idx = correctIndex q)).
      * rewrite decide_True by reflexivity. lia.
      * rewrite decide_False by discriminate. lia.
  - assert (Hl : locked st = false).
    { rewrite Hr in Hraf. symmetry in Hraf.
      apply andb_true_iff in Hraf as [_ Hraf]. now destruct (locked st). }
    rewrite decide_True by now apply Hcur.
    rewrite !length_set_in_range by lia.
    split; [assumption |]. split; [assumption |]. split.
    + rewrite set_in_range by lia. apply Forall_insert; eauto.
    + rewrite count_set_unanswered by now apply Hcur.
      rewrite decide_False by discriminate. lia.
Qed.

(** X6.  In a run that starts fresh and is not interrupted, the score is the
    number of questions whose status is [correct], whatever the answers, the
    frames and the presses of Next. *)
Theorem score_counts_correct p qs (es : list event) (now : Z) entry st' entry' :
  qs <> [] ->
  run p qs es (fresh_state now (length qs)) entry = Some (st', entry') ->
  score st' = Z.of_nat (count_status correct (statuses st'))
  /\ length (statuses st') = length qs
  /\ (qIndex st' < length qs)%nat.
Proof.
  intros Hqs Hrun.
  assert (Hsteady : steady qs st').
  { eapply (run_invariant p qs (fun st _ => steady qs st)); [| | exact Hrun].
    - intros e st0 e0 st1 e1. apply step_steady.
    - now apply fresh_steady. }
  destruct Hsteady as ((_ & Hi & _) & Hls & _ & _ & Hscore).
  now repeat split.
Qed.

(** The sum of the time slots, between the bounds of the slots. *)
Lemma total_ms_bounds (lo hi : Z) (arr : jsarr Z) :
  Forall is_Some arr -> Forall (within lo hi) arr ->
  exists sum, total_ms arr = Some sum
              /\ Z.of_nat (length arr) * lo <= sum <= Z.of_nat (length arr) * hi.
Proof.
  unfold total_ms. intros Hsome Hin.
  assert (Hgen : forall a, exists s,
    fold_left (fun acc x => a ← acc; v ← x; Some (a + v)) arr (Some a) = Some (a + s)
    /\ Z.of_nat (length arr) * lo <= s <= Z.of_nat (length arr) * hi).
  { induction arr as [| x arr IH]; intros a.
    - exists 0. simpl. split; [f_equal; lia | lia].
    - apply Forall_cons in Hsome as [[v ->] Hsome].
      apply Forall_cons in Hin as [Hv Hin].
      specialize (Hv v eq_refl).
      destruct (IH Hsome Hin (a + v)) as (s & Hs & Hb).
      exists (v + s). simpl in *. rewrite Hs. split; [f_equal; lia | lia]. }
  destruct (Hgen 0) as (s & Hs & Hb). exists s. now rewrite Hs.
Qed.

(** With a clock that does not run backwards, every recorded time stays
    between 0 and the budget. *)
Lemma run_times_bounded p qs : 0 <= total p ->
  forall es t st entry st' entry',
    ticking t es -> startedAt st <= t ->
    Forall (within 0 (total p * 1000)) (timesMs st) ->
    run p qs es st entry = Some (st', entry') ->
    Forall (within 0 (total p * 1000)) (timesMs st').
Proof.
  intros Htotal es.
  induction es as [| e es IH]; intros t st entry st' entry' Htick Hstart Hin Hrun.
  - simpl in Hrun. now injection Hrun as <- _.
  - simpl in Hrun. destruct Htick as [Hte Htick].
    destruct (step p qs e st entry) as [[st1 entry1] |] eqn:He; [| discriminate].
    apply (IH (time_of e) st1 entry1 st' entry' Htick); [| | exact Hrun];
      apply step_moved in He;
      inversion He; subst; simpl in *; try lia; try assumption;
      (apply set_Forall; [assumption | intros v Hv; discriminate |]);
      intros v Hv; injection Hv as <-; lia.
Qed.

(** X7.  In a run that starts fresh and is not interrupted, under a clock that
    does not run backwards, every elapsed time lies between 0 and the budget
    [total * 1000], and their sum, the total the finish screen shows and the
    attempt stores, between 0 and the budget times the number of
    questions. *)
Theorem times_within_budget p qs (es : list event) (now : Z) entry st' entry' :
  qs <> [] -> 0 <= total p -> ticking now es ->
  run p qs es (fresh_state now (length qs)) entry = Some (st', entry') ->
  Forall (fun x => exists v, x = Some v /\ 0 <= v <= total p * 1000) (timesMs st')
  /\ exists sum, total_ms (timesMs st') = Some sum
                 /\ 0 <= sum <= Z.of_nat (length qs) * (total p * 1000).
Proof.
  intros Hqs Htotal Htick Hrun.
  assert (Hsteady : steady qs st').
  { eapply (run_invariant p qs (fun st _ => steady qs st)); [| | exact Hrun].
    - intros e st0 e0 st1 e1. apply step_steady.
    - now apply fresh_steady. }
  destruct Hsteady as (_ & _ & Hlt & Hsome & _).
  assert (Hin : Forall (within 0 (total p * 1000)) (timesMs st')).
  { apply (run_times_bounded p qs Htotal es now (fresh_state now (length qs))
             entry st' entry' Htick); [simpl; lia | | exact Hrun].
    simpl. apply Forall_replicate. intros v Hv. injection Hv as <-. lia. }
  split.
  - rewrite Forall_forall in *. intros x Hx.
    destruct (Hsome x Hx) as [v ->]. exists v. split; [reflexivity |].
    now apply (Hin (Some v) Hx).
  - destruct (total_ms_bounds 0 (total p * 1000) _ Hsome Hin) as (sum & Hs & Hb).
    exists sum. split; [exact Hs |]. rewrite Hlt in Hb. lia.
Qed.

(** In weekly mode, on an entry that mirrors the state or is absent, a
    snapshot stores the state of the refs with the options merged in. *)
Lemma snapshot_of_mirror p qs st opts entry :
  isWeekly p = true ->
  entry = None \/ entry = write (session_of_refs p qs st) ->
  saveWeeklySnapshot p qs st opts entry
  = Some (write (merge_opts opts (session_of_refs p qs st))).
Proof.
  intros Hw Hentry. unfold saveWeeklySnapshot. rewrite Hw. simpl.
  destruct Hentry as [-> | ->].
  - reflexivity.
  - now rewrite read_typed_write.
Qed.

Lemma step_mirrors p qs e st entry st' entry' :
  isWeekly p = true ->
  in_order qs st ->
  stored_mirrors p qs st entry ->
  step p qs e st entry = Some (st', entry') ->
  stored_mirrors p qs st' entry'.
Proof.
  intros Hw ((Hraf & _) & _ & _ & Hcur) Hm Hstep.
  assert (Hentry : entry = None \/ entry = write (session_of_refs p qs st))
    by (destruct Hm as [[-> _] | ->]; auto).
  destruct e as [idx now | t | now]; simpl in Hstep.
  - unfold choose in Hstep.
    destruct (if locked st then None else qs !! qIndex st) as [q |].
    + rewrite (snapshot_of_mirror p qs st _ entry Hw Hentry) in Hstep.
      simpl in Hstep. injection Hstep as <- <-. right.
      unfold session_of_refs, merge_opts. simpl.
      destruct (bool_decide (idx = correctIndex q)); reflexivity.
    + now injection Hstep as <- <-.
  - unfold frame in Hstep. destruct (raf st) eqn:Hr; simpl in Hstep.
    + destruct (negb (expired st) && (startedAt st + total p * 1000 <=? t)).
      * rewrite (snapshot_of_mirror p qs st _ entry Hw Hentry) in Hstep.
        simpl in Hstep. injection Hstep as <- <-. right.
        assert (Hl : locked st = false).
        { symmetry in Hraf.
          apply andb_true_iff in Hraf as [_ Hraf]. now destruct (locked st). }
        unfold session_of_refs, merge_opts. simpl.
        now rewrite decide_True by now apply Hcur.
      * injection Hstep as <- <-. exact Hm.
    + now injection Hstep as <- <-.
  - unfold next in Hstep.
    destruct (decide (qIndex st < length qs - 1)%nat) as [Hlt | Hge].
    + rewrite (snapshot_of_mirror p qs st _ entry Hw Hentry) in Hstep.
      simpl in Hstep. injection Hstep as <- <-. now right.
    + injection Hstep as <- <-. rewrite Hw. now left.
Qed.

(** X8.  In an uninterrupted weekly run the stored session is the state in memory
    (current index, statuses, times, score) with the ids, date, week, seed
    and budget it was created with; it is absent only once the session is
    finished. *)
Theorem store_mirrors_state p qs (es : list event) (now : Z) st' entry' :
  isWeekly p = true -> qs <> [] ->
  run p qs es (fresh_state now (length qs)) (write (fresh_session p qs))
  = Some (st', entry') ->
  (entry' = None /\ finished st' = true)
  \/ entry' = write {| date := today p; weekId := week p; qIds := id <$> qs;
                       Model.qIndex := qIndex st';
                       Model.statuses := statuses st';
                       Model.timesMs := timesMs st';
                       Model.score := score st';
                       seed := "WEEKLY-" +:+ today p; tPerQ := total p |}.
Proof.
  intros Hw Hqs Hrun.
  assert (Hinv : in_order qs st' /\ stored_mirrors p qs st' entry').
  { eapply (run_invariant p qs
              (fun st entry => in_order qs st /\ stored_mirrors p qs st entry));
      [| | exact Hrun].
    - intros e st0 e0 st1 e1 [Hin Hm] Hstep. split.
      + eapply step_in_order; eassumption.
      + eapply step_mirrors; eassumption.
    - split; [now apply fresh_in_order | now right]. }
  exact (proj2 Hinv).
Qed.

(** X9.  Practice mode never reads or writes the session entry: every run of
    events, leaving the page and entering the quiz all leave it as it is. *)
Theorem practice_never_stores p qs bank (es : list event) (now0 now1 : Z) st entry :
  isWeekly p = false ->
  (exists st', run p qs es st entry = Some (st', entry)) /\
  finalizeOnLeave p qs st entry = Some entry /\
  (exists st', start p bank now0 now1 st entry = Some (Running st' entry)).
Proof.
  intros Hw. split; [| split].
  - revert st. induction es as [| e es IH]; intros st; [now eexists |].
    assert (Hsave : forall opts, saveWeeklySnapshot p qs st opts entry = Some entry).
    { intros opts. unfold saveWeeklySnapshot. now rewrite Hw. }
    assert (He : exists st1, step p qs e st entry = Some (st1, entry)).
    { destruct e as [idx now | t | now]; simpl.
      - unfold choose.
        destruct (if locked st then None else qs !! qIndex st);
          [rewrite Hsave; simpl |]; eauto.
      - unfold frame. destruct (negb (raf st)); [eauto |].
        destruct (_ && _); [rewrite Hsave; simpl |]; eauto.
      - unfold next. destruct (decide _); [rewrite Hsave; simpl | rewrite Hw]; eauto. }
    destruct He as (st1 & He). simpl. rewrite He. apply IH.
  - unfold finalizeOnLeave. now rewrite Hw.
  - unfold start, initialize. rewrite Hw.
    destruct (decide _); simpl; eauto.
Qed.

(** A snapshot on a usable entry: written, usable again, and outside weekly
    mode the entry itself. *)
Lemma snapshot_cases p qs st opts entry :
  usable entry ->
  exists entry', saveWeeklySnapshot p qs st opts entry = Some entry'
                 /\ usable entry' /\ (isWeekly p = false -> entry' = entry).
Proof.
  intros Hu.
  destruct (saveWeeklySnapshot_usable p qs st opts entry Hu) as (e1 & H1 & Hu1).
  exists e1. repeat split; try assumption.
  intros Hw. unfold saveWeeklySnapshot in H1. rewrite Hw in H1. simpl in H1.
  congruence.
Qed.

Lemma count_status_cons (s : Status) (x : option Status) (arr : jsarr Status) :
  count_status s (x :: arr)
  = ((if decide (x = Some s) then 1 else 0) + count_status s arr)%nat.
Proof.
  unfold count_status. rewrite filter_cons. now destruct (decide (x = Some s)).
Qed.

(** Answering the questions that are left, one after the other. *)
Lemma play_from p qs : forall rest (answers : list (Z * Z * Z)) done st entry,
  qs = done ++ rest -> rest <> [] -> length answers = length rest ->
  qIndex st = length done -> locked st = false ->
  length (statuses st) = length qs -> usable entry ->
  let graded := Some <$> zip_with grade rest ((fun a => a.1.1) <$> answers) in
  exists st' entry',
    run p qs (answer_all answers) st entry = Some (st', entry') /\
    finished st' = true /\
    statuses st' = take (length done) (statuses st) ++ graded /\
    score st' = score st + Z.of_nat (count_status correct graded) /\
    entry' = if isWeekly p then None else entry.
Proof.
  induction rest as [| q rest IH];
    intros answers done st entry Hqs Hrest Hlen Hidx Hlock Hls Hu;
    [congruence |].
  destruct answers as [| [[idx tc] tn] answers]; [discriminate |].
  simpl in Hlen. injection Hlen as Hlen.
  assert (Hq : qs !! qIndex st = Some q).
  { rewrite Hidx, Hqs. apply list_lookup_middle. reflexivity. }
  assert (Hlenqs : length qs = (length done + S (length rest))%nat).
  { rewrite Hqs, length_app. reflexivity. }
  destruct (snapshot_cases p qs st
              {| o_qIndex := None;
                 o_timesMs := Some [(qIndex st,
                   Z.min (total p * 1000) (tc - startedAt st))];
                 o_statuses := Some [(qIndex st, grade q idx)];
                 o_scoreDelta :=
                   if bool_decide (idx = correctIndex q) then Some 1 else None |}
              entry Hu) as (e1 & He1 & Hu1 & Hpr1).
  assert (Hset : set (statuses st) (qIndex st) (grade q idx)
                 = take (length done) (statuses st) ++ Some (grade q idx)
                   :: drop (S (length done)) (statuses st)).
  { rewrite set_in_range by lia. rewrite Hidx. apply insert_take_drop. lia. }
  cbn [answer_all flat_map app fmap list_fmap zip_with fst snd run step].
  unfold choose at 1. rewrite Hlock, Hq.
  unfold grade in He1. rewrite He1. cbn [mbind option_bind].
  set (st1 := timer_effect _).
  unfold next at 1.
  destruct (decide (qIndex st1 < length qs - 1)%nat) as [Hmore | Hlast].
  - (* more questions *)
    assert (Hrest' : rest <> []).
    { intros ->. simpl in *. lia. }
    destruct (snapshot_cases p qs st1
                {| o_qIndex := Some (S (qIndex st1)); o_timesMs := None;
                   o_statuses := None; o_scoreDelta := None |}
                e1 Hu1) as (e2 & He2 & Hu2 & Hpr2).
    rewrite He2. cbn [mbind option_bind].
    set (st2 := timer_effect _).
    destruct (IH answers (done ++ [q]) st2 e2) as (st' & entry' & Hrun & Hfin & Hst & Hsc & Hen).
    + rewrite <- app_assoc. exact Hqs.
    + exact Hrest'.
    + exact Hlen.
    + simpl. rewrite length_app. simpl. lia.
    + reflexivity.
    + simpl. rewrite length_set_in_range by lia. exact Hls.
    + exact Hu2.
    + exists st', entry'. split; [exact Hrun |]. split; [exact Hfin |].
      split; [| split].
      * rewrite Hst. simpl. fold (grade q idx).
        rewrite set_in_range by lia. rewrite Hidx, length_app. simpl.
        replace (length done + 1)%nat with (S (length done)) by lia.
        rewrite (take_S_r _ _ (Some (grade q idx)))
          by (apply list_lookup_insert_eq; lia).
        rewrite take_insert_ge by lia. now rewrite <- app_assoc.
      * rewrite Hsc. simpl. rewrite count_status_cons. unfold grade.
        destruct (bool_decide (idx = correctIndex q)).
        -- rewrite decide_True by reflexivity. lia.
        -- rewrite decide_False by discriminate. lia.
      * rewrite Hen. destruct (isWeekly p) eqn:Hw; [reflexivity |].
        rewrite Hpr2, Hpr1 by reflexivity. reflexivity.
  - (* the last question *)
    assert (Hnil : rest = []).
    { destruct rest; [reflexivity |]. simpl in *. lia. }
    subst rest. destruct answers; [| discriminate].
    eexists _, _. split; [reflexivity |]. simpl.
    split; [reflexivity |]. split; [| split].
    + fold (grade q idx). rewrite Hset.
      rewrite drop_ge by (simpl in *; lia). reflexivity.
    + unfold count_status. rewrite filter_cons. unfold grade.
      destruct (bool_decide (idx = correctIndex q)).
      * rewrite decide_True by reflexivity. simpl. lia.
      * rewrite decide_False by discriminate. simpl. lia.
    + destruct (isWeekly p) eqn:Hw; [reflexivity |]. now rewrite Hpr1.
Qed.

(** X10.  Playing a fresh session through: one answer per question, each followed
    by Next.  The session ends finished, every status is [correct] or
    [wrong] as the answer matches the question's correct option, the score is
    the number of correct ones, and in weekly mode the stored session is
    gone. *)
Theorem play_through p qs (answers : list (Z * Z * Z)) (now : Z) entry :
  qs <> [] -> length answers = length qs -> usable entry ->
  let graded := Some <$> zip_with grade qs ((fun a => a.1.1) <$> answers) in
  exists st' entry',
    run p qs (answer_all answers) (fresh_state now (length qs)) entry
    = Some (st', entry') /\
    finished st' = true /\
    statuses st' = graded /\
    score st' = Z.of_nat (count_status correct graded) /\
    entry' = if isWeekly p then None else entry.
Proof.
  intros Hqs Hlen Hu graded.
  destruct (play_from p qs qs answers [] (fresh_state now (length qs)) entry)
    as (st' & entry' & Hrun & Hfin & Hst & Hsc & Hen);
    try reflexivity; try assumption.
  - simpl. unfold fill. apply length_replicate.
  - exists st', entry'. repeat split; assumption.
Qed.

End Progress_facts.

Lemma qs2_nonempty : Fixtures.qs2 <> [].
Proof. vm_compute. discriminate. Qed.

Section Progress_examples.
Import Model Selector Session Progress.



Lemma score_counts_correct_witness :
  exists st' entry',
    run (Fixtures.weekly 15) Fixtures.qs2 Scenarios.answer_then_expire
      (fresh_state 1000 (length Fixtures.qs2)) None = Some (st', entry') /\
    score st' = Z.of_nat (count_status correct (statuses st')) /\
    length (statuses st') = length Fixtures.qs2.
Proof.
  destruct (run (Fixtures.weekly 15) Fixtures.qs2 Scenarios.answer_then_expire
              (fresh_state 1000 (length Fixtures.qs2)) None)
    as [[st' entry'] |] eqn:Hrun; [| vm_compute in Hrun; discriminate].
  exists st', entry'. split; [reflexivity |].
  destruct (score_counts_correct _ _ _ _ _ _ _ qs2_nonempty Hrun) as (H1 & H2 & _).
  now split.
Defined.

Lemma times_within_budget_witness :
  exists st' entry' sum,
    run (Fixtures.weekly 15) Fixtures.qs2 Scenarios.answer_then_expire
      (fresh_state 1000 (length Fixtures.qs2)) None = Some (st', entry') /\
    total_ms (timesMs st') = Some sum /\ 0 <= sum <= 24000.
Proof.
  destruct (run (Fixtures.weekly 15) Fixtures.qs2 Scenarios.answer_then_expire
              (fresh_state 1000 (length Fixtures.qs2)) None)
    as [[st' entry'] |] eqn:Hrun; [| vm_compute in Hrun; discriminate].
  assert (Htotal : 0 <= total (Fixtures.weekly 15)) by (simpl; lia).
  assert (Htick : ticking 1000 Scenarios.answer_then_expire)
    by (unfold Scenarios.answer_then_expire; simpl; lia).
  destruct (times_within_budget _ _ Scenarios.answer_then_expire 1000 _ _ _
              qs2_nonempty Htotal Htick Hrun) as (_ & sum & Hsum & Hb).
  exists st', entry', sum. split; [reflexivity |]. split; [exact Hsum |].
  exact Hb.
Defined.

Lemma store_mirrors_state_witness :
  let p := Fixtures.weekly 15 in
  exists st' entry',
    run p Fixtures.qs2 Scenarios.answer_then_expire
      (fresh_state 1000 (length Fixtures.qs2))
      (Store.write (fresh_session p Fixtures.qs2)) = Some (st', entry') /\
    entry' = Store.write (session_of_refs p Fixtures.qs2 st').
Proof.
  intros p.
  destruct (run p Fixtures.qs2 Scenarios.answer_then_expire
              (fresh_state 1000 (length Fixtures.qs2))
              (Store.write (fresh_session p Fixtures.qs2)))
    as [[st' entry'] |] eqn:Hrun; [| vm_compute in Hrun; discriminate].
  exists st', entry'. split; [reflexivity |].
  destruct (store_mirrors_state p Fixtures.qs2 Scenarios.answer_then_expire 1000 st' entry'
              eq_refl qs2_nonempty Hrun) as [[-> Hfin] | ->]; [| reflexivity].
  vm_compute in Hrun. injection Hrun as <- _. discriminate.
Defined.

Lemma practice_never_stores_witness :
  isWeekly Scenarios.practice = false /\
  finalizeOnLeave Scenarios.practice Fixtures.qs2 (fresh_state 1000 2)
    (Some Store.Garbage) = Some (Some Store.Garbage) /\
  exists st',
    run Scenarios.practice Fixtures.qs2 Scenarios.answer_then_expire (fresh_state 1000 2)
      (Some Store.Garbage) = Some (st', Some Store.Garbage).
Proof.
  split; [reflexivity |].
  destruct (practice_never_stores Scenarios.practice Fixtures.qs2 Fixtures.bank2
              Scenarios.answer_then_expire 1000 1001 (fresh_state 1000 2)
              (Some Store.Garbage) eq_refl) as (Hrun & Hleave & _).
  split; [exact Hleave | exact Hrun].
Defined.

(** Both questions of the day's pick answered with option 2. *)
Lemma play_through_witness :
  exists st',
    run (Fixtures.weekly 15) Fixtures.qs2
      (answer_all [(2, 4001, 5000); (2, 8000, 9000)])
      (fresh_state 1000 (length Fixtures.qs2)) None = Some (st', None) /\
    finished st' = true /\
    statuses st'
    = Some <$> zip_with grade Fixtures.qs2 [2; 2].
Proof.
  destruct (play_through (Fixtures.weekly 15) Fixtures.qs2
              [(2, 4001, 5000); (2, 8000, 9000)] 1000 None qs2_nonempty
              ltac:(vm_compute; reflexivity) ltac:(vm_compute; eauto))
    as (st' & entry' & Hrun & Hfin & Hst & _ & Hen).
  simpl in Hen. subst entry'. exists st'. repeat split; assumption.
Defined.

End Progress_examples.

(** ** Leaving and coming back *)
Section Resume_facts.
Import JS Model Store Selector Session Progress.
Implicit Types (p : Params) (qs bank : list Question) (st : State)
         (entry : option item).


Lemma lookup_set_eq {A} (arr : jsarr A) (i : nat) (v : A) :
  set arr i v !! i = Some (Some v).
Proof.
  unfold set. destruct (decide (i < length arr)%nat).
  - now apply list_lookup_insert_eq.
  - rewrite lookup_app_r by lia.
    rewrite lookup_app_r by (rewrite length_replicate; lia).
    rewrite length_replicate.
    now replace (i - length arr - (i - length arr))%nat with 0%nat by lia.
Qed.

Lemma set_set_eq {A} (arr : jsarr A) (i : nat) (v : A) :
  set (set arr i v) i v = set arr i v.
Proof.
  pose proof (lookup_set_eq arr i v) as Hl.
  rewrite set_in_range by (eapply lookup_lt_Some; eassumption).
  now apply list_insert_id.
Qed.

Lemma set_entries_twice {A} (arr : jsarr A) (m : list (nat * A)) :
  (length m <= 1)%nat -> set_entries (set_entries arr m) m = set_entries arr m.
Proof.
  destruct m as [| [i v] [| ? ?]]; simpl; intros Hm; try lia; [reflexivity |].
  apply set_set_eq.
Qed.

(** X12.  A snapshot without a score delta, with at most one entry per array as the
    source builds them, can be stored twice: the second write leaves the
    entry of the first. *)
Theorem snapshot_idempotent p qs st st2 (opts : SnapshotOpts) entry entry1 :
  o_scoreDelta opts = None ->
  (forall m, o_timesMs opts = Some m -> (length m <= 1)%nat) ->
  (forall m, o_statuses opts = Some m -> (length m <= 1)%nat) ->
  saveWeeklySnapshot p qs st opts entry = Some entry1 ->
  saveWeeklySnapshot p qs st2 opts entry1 = Some entry1.
Proof.
  intros Hd Ht Hs Hsave. unfold saveWeeklySnapshot in *.
  destruct (isWeekly p); simpl in *; [| congruence].
  destruct (read_typed entry) as [stored |]; simpl in Hsave; [| discriminate].
  injection Hsave as <-. rewrite read_typed_write. simpl. do 2 f_equal.
  destruct opts as [oi ot os od]. simpl in *. subst od.
  unfold merge_opts. simpl. f_equal.
  - now destruct oi.
  - destruct os as [m |]; [| reflexivity]. apply set_entries_twice. now apply Hs.
  - destruct ot as [m |]; [| reflexivity]. apply set_entries_twice. now apply Ht.
Qed.

End Resume_facts.

Section Resume_examples.
Import Model Selector Session Progress.



(** The snapshot of a timeout, stored twice. *)
Lemma snapshot_idempotent_witness :
  let p := Fixtures.weekly 15 in
  let st := fresh_state 1000 2 in
  let opts :=
    {| o_qIndex := None; o_timesMs := Some [(0%nat, 12000)];
       o_statuses := Some [(0%nat, wrong)]; o_scoreDelta := None |} in
  exists entry1,
    saveWeeklySnapshot p Fixtures.qs2 st opts None = Some entry1 /\
    saveWeeklySnapshot p Fixtures.qs2 st opts entry1 = Some entry1.
Proof.
  intros p st opts.
  destruct (saveWeeklySnapshot p Fixtures.qs2 st opts None) as [entry1 |] eqn:H1;
    [| vm_compute in H1; discriminate].
  exists entry1. split; [reflexivity |].
  apply (snapshot_idempotent p Fixtures.qs2 st st opts None entry1 eq_refl).
  - intros m Hm. injection Hm as <-. simpl. lia.
  - intros m Hm. injection Hm as <-. simpl. lia.
  - exact H1.
Defined.

End Resume_examples.

(** ** The question screen *)
Section View_facts.
Import JS Model Store Selector Session Progress View.
Implicit Types (p : Params) (qs : list Question) (st : State)
         (entry : option item).

Lemma fresh_feedback p qs now : feedback p qs (fresh_state now (length qs)).
Proof. split; [now split | discriminate]. Qed.

Lemma step_feedback p qs e st entry st' entry' :
  in_order qs st -> feedback p qs st ->
  step p qs e st entry = Some (st', entry') ->
  feedback p qs st'.
Proof.
  intros ((Hraf & Hexp) & Hi & _ & Hcur) [Hun Hlk] Hstep.
  assert (Hrun : raf st = true -> locked st = false).
  { intros Hr. rewrite Hr in Hraf. symmetry in Hraf.
    apply andb_true_iff in Hraf as [_ Hraf]. now destruct (locked st). }
  apply step_moved in Hstep.
  inversion Hstep as [ | idx now st0 q Hl Hq | t st0 Hr Hend | t st0 Hr | | ];
    subst; try (split; [exact Hun | exact Hlk]).
  - split; [discriminate |]. intros _. simpl. split; [reflexivity |].
    exists q. split; [exact Hq | apply get_set_eq].
  - split; [discriminate |]. intros _. simpl. split; [reflexivity |].
    specialize (Hrun Hr). destruct (Hun Hrun) as [-> _].
    rewrite decide_True by now apply Hcur.
    rewrite !get_set_eq. repeat split.
    unfold endsAt. simpl. lia.
  - specialize (Hrun Hr). split; [exact Hun |]. simpl. congruence.
  - split; [now split | discriminate].
Qed.

(** X13.  On the question screen of an uninterrupted run the colours tell what is
    stored: the option of the correct answer is marked once the question is
    locked, an option is marked as a wrong choice exactly when it is the
    selection and the stored status is [wrong], the stored status is
    [correct] exactly when the correct option was chosen, and "Time's up" is
    shown only over a status [wrong], the whole budget as elapsed time, and
    a countdown at zero. *)
Theorem feedback_matches_status p qs (es : list event) (now : Z) entry st' entry' :
  qs <> [] ->
  run p qs es (fresh_state now (length qs)) entry = Some (st', entry') ->
  exists q,
    qs !! qIndex st' = Some q /\
    isThisLocked st' = locked st' /\
    (forall idx, optionClass q st' idx = option_correct
                 <-> locked st' = true /\ idx = correctIndex q) /\
    (forall idx, optionClass q st' idx = option_chosen_wrong
                 <-> selected st' = Some idx
                     /\ get (statuses st') (qIndex st') = Some wrong) /\
    (get (statuses st') (qIndex st') = Some correct
     <-> selected st' = Some (correctIndex q)) /\
    (showTimesUp st' = true ->
     get (statuses st') (qIndex st') = Some wrong
     /\ get (timesMs st') (qIndex st') = Some (total p * 1000)
     /\ remainingMs p st' = 0 /\ remainingLabel p st' = 0).
Proof.
  intros Hqs Hrun.
  assert (Hinv : in_order qs st' /\ feedback p qs st').
  { eapply (run_invariant p qs (fun st _ => in_order qs st /\ feedback p qs st));
      [| | exact Hrun].
    - intros e st0 e0 st1 e1 [Hin Hfb] Hstep. split.
      + eapply step_in_order; eassumption.
      + eapply step_feedback; eassumption.
    - split; [now apply fresh_in_order | apply fresh_feedback]. }
  destruct Hinv as [(_ & Hi & _ & Hcur) [Hun Hlk]].
  destruct (lookup_lt_is_Some_2 qs (qIndex st') Hi) as [q Hq].
  exists q. split; [exact Hq |].
  unfold showTimesUp, optionClass, isThisLocked.
  destruct (locked st') eqn:Hl.
  - destruct (Hlk eq_refl) as [Hfor Hsel]. rewrite Hfor.
    rewrite bool_decide_eq_true_2 by reflexivity. simpl.
    destruct (selected st') as [sel |] eqn:Hs.
    + destruct Hsel as (q' & Hq' & Hst).
      assert (q' = q) by congruence. subst q'. rewrite Hst. unfold grade.
      split; [reflexivity |]. split; [| split; [| split]].
      * intros idx. repeat case_bool_decide; simpl; intuition congruence.
      * intros idx. repeat case_bool_decide; simpl; intuition congruence.
      * repeat case_bool_decide; intuition congruence.
      * rewrite bool_decide_eq_false_2 by discriminate. discriminate.
    + destruct Hsel as (Hst & Htm & Hend). rewrite Hst.
      assert (Hrem : remainingMs p st' = 0) by (unfold remainingMs; lia).
      split; [reflexivity |]. split; [| split; [| split]].
      * intros idx. repeat case_bool_decide; simpl; intuition congruence.
      * intros idx. repeat case_bool_decide; simpl; intuition congruence.
      * intuition congruence.
      * intros _. repeat split; try assumption.
        unfold remainingLabel. now rewrite Hrem.
  - destruct (Hun eq_refl) as [Hs Hfor]. rewrite Hs, (Hcur eq_refl). simpl.
    split; [reflexivity |]. split; [| split; [| split]].
    + intros idx. repeat case_bool_decide; simpl; intuition congruence.
    + intros idx. repeat case_bool_decide; simpl; intuition congruence.
    + intuition congruence.
    + discriminate.
Qed.

End View_facts.

Section Finish_facts.
Import JS Model Store Selector Session Progress View Finish.

(** [Math.ceil(r / 1000)] in integers. *)
Lemma ceil_thousandth r :
  Qceiling (Qdiv (inject_Z r) (inject_Z 1000)) = (r + 999) / 1000.
Proof.
  assert (Heq : (Qdiv (inject_Z r) (inject_Z 1000) == r # 1000)%Q).
  { unfold Qeq, Qdiv, Qmult, Qinv, inject_Z. simpl. lia. }
  rewrite Heq. unfold Qceiling, Qfloor, Qopp. simpl.
  Z.to_euclidean_division_equations. lia.
Qed.

(** Under a clock that does not run backwards, the question never starts
    after the last sampled time. *)
Lemma run_clock p qs : forall (es : list event) t st entry st' entry',
  ticking t es -> startedAt st <= nowTs st <= t ->
  run p qs es st entry = Some (st', entry') ->
  startedAt st' <= nowTs st'.
Proof.
  intros es.
  induction es as [| e es IH]; intros t st entry st' entry' Htick Hst Hrun.
  - simpl in Hrun. injection Hrun as <- _. lia.
  - simpl in Hrun. destruct Htick as [Hte Htick].
    destruct (step p qs e st entry) as [[st1 entry1] |] eqn:He; [| discriminate].
    apply (IH (time_of e) st1 entry1 st' entry' Htick); [| exact Hrun].
    apply step_moved in He.
    inversion He; subst; simpl in *; lia.
Qed.

(** X14.  In a run that starts fresh, under a clock that does not run
    backwards and with a budget the URL allows (at most 120 seconds), the
    countdown stays within the budget, in milliseconds and in the seconds
    shown, and shows 0 exactly from the deadline on. *)
Theorem countdown_within_budget p qs (es : list event) (now : Z) entry st' entry' :
  0 <= total p <= 120 -> ticking now es ->
  run p qs es (fresh_state now (length qs)) entry = Some (st', entry') ->
  0 <= remainingMs p st' <= total p * 1000
  /\ 0 <= remainingLabel p st' <= total p
  /\ (remainingLabel p st' = 0 <-> endsAt p st' <= nowTs st').
Proof.
  intros [Htotal _] Htick Hrun.
  assert (Hclock : startedAt st' <= nowTs st').
  { apply (run_clock p qs es now (fresh_state now (length qs)) entry st' entry'
             Htick); [simpl; lia | exact Hrun]. }
  unfold remainingLabel. rewrite ceil_thousandth.
  unfold remainingMs, endsAt.
  repeat split; try lia; Z.to_euclidean_division_equations; lia.
Qed.

(** X17.  The total time of the finish screen: for a time that is not
    negative (and that a double holds exactly) the seconds printed are below
    60, and minutes and seconds add up to the whole seconds of the time. *)
Theorem formatMMSS_splits (ms : Z) :
  0 <= ms < 2^53 ->
  let '(m, s) := formatMMSS ms in
  0 <= m /\ 0 <= s < 60 /\ 60 * m + s = ms / 1000
  /\ 1000 * (60 * m + s) <= ms < 1000 * (60 * m + s) + 1000.
Proof.
  intros Hms. unfold formatMMSS.
  rewrite Z.rem_mod_nonneg by (try lia; apply Z.div_pos; lia).
  Z.to_euclidean_division_equations. lia.
Qed.

End Finish_facts.

Section View_examples.
Import Model Selector Session Progress View.

(** The first question of the day's pick, left to expire. *)
Lemma feedback_matches_status_witness :
  exists st' entry',
    run (Fixtures.weekly 15) Fixtures.qs2 [Frame 9000; Frame 13000]
      (fresh_state 1000 (length Fixtures.qs2)) None = Some (st', entry') /\
    showTimesUp st' = true /\
    JS.get (statuses st') (qIndex st') = Some wrong /\
    remainingLabel (Fixtures.weekly 15) st' = 0.
Proof.
  destruct (run (Fixtures.weekly 15) Fixtures.qs2 [Frame 9000; Frame 13000]
              (fresh_state 1000 (length Fixtures.qs2)) None)
    as [[st' entry'] |] eqn:Hrun; [| vm_compute in Hrun; discriminate].
  destruct (feedback_matches_status _ _ _ _ _ _ _ qs2_nonempty Hrun)
    as (q & _ & _ & _ & _ & _ & Hup).
  assert (Hshow : showTimesUp st' = true).
  { vm_compute in Hrun. injection Hrun as <- _. reflexivity. }
  exists st', entry'. split; [reflexivity |]. split; [exact Hshow |].
  destruct (Hup Hshow) as (Hst & _ & _ & Hlabel). now split.
Defined.

Lemma countdown_within_budget_witness :
  exists st' entry',
    run (Fixtures.weekly 15) Fixtures.qs2 [Frame 9000; Frame 9500]
      (fresh_state 1000 (length Fixtures.qs2)) None = Some (st', entry') /\
    0 <= remainingLabel (Fixtures.weekly 15) st' <= 12.
Proof.
  destruct (run (Fixtures.weekly 15) Fixtures.qs2 [Frame 9000; Frame 9500]
              (fresh_state 1000 (length Fixtures.qs2)) None)
    as [[st' entry'] |] eqn:Hrun; [| vm_compute in Hrun; discriminate].
  destruct (countdown_within_budget (Fixtures.weekly 15) Fixtures.qs2
              [Frame 9000; Frame 9500] 1000 None st' entry'
              ltac:(simpl; lia) ltac:(simpl; lia) Hrun) as (_ & Hl & _).
  exists st', entry'. split; [reflexivity | exact Hl].
Defined.

End View_examples.

(** ** The device identifier *)
Section Device_facts.
Import Device.

(** X15.  The device identifier is made once: whatever values the random source
    would give, a second call returns the identifier of the first and leaves
    the storage as the first left it; the first call writes at most the key
    [device_id], and nothing when the key is there. *)
Theorem deviceId_stable (fresh1 fresh2 : string) (ls : gmap string string) :
  let '(id1, ls1) := deviceId fresh1 ls in
  deviceId fresh2 ls1 = (id1, ls1)
  /\ ls1 !! "device_id" = Some id1
  /\ (forall k, k <> "device_id" -> ls1 !! k = ls !! k)
  /\ (forall existing, ls !! "device_id" = Some existing ->
                       id1 = existing /\ ls1 = ls).
Proof.
  unfold deviceId. destruct (ls !! "device_id") as [existing |] eqn:Hls.
  - rewrite Hls. repeat split; try assumption; congruence.
  - rewrite lookup_insert_eq. split; [reflexivity |].
    split; [reflexivity |]. split.
    + intros k Hk. now apply lookup_insert_ne.
    + intros existing Hex. discriminate.
Qed.

End Device_facts.

(** ** Retries of the save *)
Section Attempts_facts.
Import Attempt Attempts.

Lemma attempt_saved w r s : saved s = true -> saveWeeklyAttempt w r s = s.
Proof.
  intros Hs. unfold saveWeeklyAttempt. rewrite Hs.
  now rewrite orb_true_r.
Qed.

Lemma attempts_saved w rs s : saved s = true -> attempts w rs s = s.
Proof.
  intros Hs. unfold attempts. induction rs as [| r rs IH]; [reflexivity |].
  simpl. now rewrite attempt_saved.
Qed.

(** One call, from a state in which no save is under way. *)
Lemma attempt_step r s :
  saving s = false ->
  (saved s = true -> saveError s = None) ->
  let s1 := saveWeeklyAttempt true r s in
  saving s1 = false
  /\ (saved s1 = true -> saveError s1 = None)
  /\ (saved s1 = true <-> saved s = true \/ accepted r).
Proof.
  intros Hsaving Herr. unfold saveWeeklyAttempt. rewrite Hsaving.
  destruct (saved s) eqn:Hs; simpl.
  - rewrite ?Hs. intuition.
  - destruct r as [| e | msg]; simpl.
    + intuition.
    + pose proof (is_duplicate_spec e) as Hdup.
      destruct (is_duplicate e); simpl; rewrite ?Hs; intuition congruence.
    + rewrite ?Hs. intuition congruence.
Qed.

(** X16.  However the inserts of the finish screen end, no call leaves [saving]
    set, "Saved" and an error are never recorded together, the attempt is
    saved exactly when it was saved before or one of the inserts was
    accepted, once it is saved no further call changes anything, and the
    screen shows at most one line about the save. *)
Theorem attempts_settle (rs : list response) (s : SaveState) :
  saving s = false ->
  (saved s = true -> saveError s = None) ->
  let s' := attempts true rs s in
  saving s' = false
  /\ (saved s' = true -> saveError s' = None)
  /\ (saved s' = true <-> saved s = true \/ Exists accepted rs)
  /\ (saved s = true -> s' = s)
  /\ (length (save_status true s') <= 1)%nat.
Proof.
  intros Hsaving Herr s'. subst s'.
  assert (Hmain : saving (attempts true rs s) = false
                  /\ (saved (attempts true rs s) = true
                      -> saveError (attempts true rs s) = None)
                  /\ (saved (attempts true rs s) = true
                      <-> saved s = true \/ Exists accepted rs)).
  { revert s Hsaving Herr.
    induction rs as [| r rs IH]; intros s Hsaving Herr.
    - simpl. split; [exact Hsaving |]. split; [exact Herr |].
      rewrite Exists_nil. tauto.
    - destruct (attempt_step r s Hsaving Herr) as (H1 & H2 & H3).
      change (attempts true (r :: rs) s)
        with (attempts true rs (saveWeeklyAttempt true r s)).
      destruct (IH _ H1 H2) as (H4 & H5 & H6).
      split; [exact H4 |]. split; [exact H5 |].
      rewrite H6, H3, Exists_cons. tauto. }
  destruct Hmain as (H1 & H2 & H3).
  split; [exact H1 |]. split; [exact H2 |]. split; [exact H3 |].
  split; [intros Hs; now apply attempts_saved |].
  unfold save_status. rewrite H1. simpl.
  destruct (saved (attempts true rs s)).
  - rewrite (H2 eq_refl). simpl. lia.
  - simpl. destruct (truthy _); simpl; lia.
Qed.

(** In practice mode no call changes the save state. *)
Lemma attempts_practice rs s : attempts false rs s = s.
Proof.
  unfold attempts. induction rs as [| r rs IH]; [reflexivity |]. simpl.
  exact IH.
Qed.

End Attempts_facts.

(** A failed insert, then a retry that meets the row of the first. *)
Lemma attempts_settle_witness :
  let s := {| Attempt.saving := false; Attempt.saved := false;
              Attempt.saveError := None |} in
  let rs :=
    [Attempt.Thrown (Some "Failed to fetch");
     Attempt.Rejected {| Attempt.code := Some "23505";
                         Attempt.message := "duplicate key value" |}] in
  Attempt.saved (Attempts.attempts true rs s) = true /\
  Attempt.saveError (Attempts.attempts true rs s) = None.
Proof.
  intros s rs.
  destruct (attempts_settle rs s eq_refl ltac:(discriminate))
    as (_ & Herr & Hsaved & _).
  assert (Hs : Attempt.saved (Attempts.attempts true rs s) = true).
  { apply Hsaved. right. apply Exists_cons_tl, Exists_cons_hd. now left. }
  split; [exact Hs | exact (Herr Hs)].
Defined.

(** 83 456 ms are printed as 1:23. *)
Lemma formatMMSS_splits_witness : Finish.formatMMSS 83456 = (1, 23).
Proof.
  pose proof (formatMMSS_splits 83456 ltac:(lia)) as H.
  destruct (Finish.formatMMSS 83456) as [m s].
  destruct H as (Hm & Hs & Hsum & _).
  change (83456 / 1000) with 83 in Hsum.
  f_equal; lia.
Defined.

(** ** The ISO week *)
Section Calendar_facts.
Import Calendar.

Lemma DayFromYear_step y :
  365 <= DayFromYear (y + 1) - DayFromYear y <= 366.
Proof. unfold DayFromYear. Z.to_euclidean_division_equations. lia. Qed.

Lemma year_of_day_spec day :
  DayFromYear (year_of_day day) <= day < DayFromYear (year_of_day day + 1).
Proof.
  unfold year_of_day.
  set (y0 := 1970 + day * 400 / 146097).
  assert (H0 : DayFromYear (y0 - 1) <= day < DayFromYear (y0 + 2)).
  { unfold DayFromYear, y0. Z.to_euclidean_division_equations. lia. }
  destruct (Z.leb_spec (DayFromYear (y0 + 1)) day).
  - replace (y0 + 1 + 1) with (y0 + 2) by lia. lia.
  - destruct (Z.leb_spec (DayFromYear y0) day).
    + lia.
    + replace (y0 - 1 + 1) with y0 by lia. lia.
Qed.

Lemma DayFromYear_mono y1 y2 : y1 <= y2 -> DayFromYear y1 <= DayFromYear y2.
Proof. unfold DayFromYear. intros. Z.to_euclidean_division_equations. lia. Qed.

Lemma DayFromYear_lt y1 y2 : y1 < y2 -> DayFromYear y1 < DayFromYear y2.
Proof. unfold DayFromYear. intros. Z.to_euclidean_division_equations. lia. Qed.

(** [year_of_day] is the year function of the specification. *)
Lemma year_of_day_unique day y :
  DayFromYear y <= day < DayFromYear (y + 1) -> year_of_day day = y.
Proof.
  intros Hy. pose proof (year_of_day_spec day) as Hs.
  destruct (Z.lt_trichotomy (year_of_day day) y) as [Hlt | [Heq | Hgt]];
    [| exact Heq |].
  - pose proof (DayFromYear_mono (year_of_day day + 1) y ltac:(lia)). lia.
  - pose proof (DayFromYear_mono (y + 1) (year_of_day day) ltac:(lia)). lia.
Qed.

Lemma Day_midnight k : Day (msPerDay * k) = k.
Proof. unfold Day, msPerDay. rewrite Z.mul_comm. now apply Z.div_mul. Qed.

Lemma TimeWithinDay_midnight k : TimeWithinDay (msPerDay * k) = 0.
Proof. unfold TimeWithinDay, msPerDay. rewrite Z.mul_comm. apply Z.mod_mul. lia. Qed.

Lemma MonthFromTime_range t : 0 <= MonthFromTime t <= 11.
Proof.
  unfold MonthFromTime.
  destruct (_ <? 31); [lia |].
  destruct (_ <? 59 + _); [lia |].
  destruct (_ <? 90 + _); [lia |].
  destruct (_ <? 120 + _); [lia |].
  destruct (_ <? 151 + _); [lia |].
  destruct (_ <? 181 + _); [lia |].
  destruct (_ <? 212 + _); [lia |].
  destruct (_ <? 243 + _); [lia |].
  destruct (_ <? 273 + _); [lia |].
  destruct (_ <? 304 + _); [lia |].
  destruct (_ <? 334 + _); lia.
Qed.

(** Setting the day of the month moves the date by whole days. *)
Lemma setUTCDate_shift t k :
  setUTCDate t (DateFromTime t + k) = msPerDay * (Day t + k) + TimeWithinDay t.
Proof.
  unfold setUTCDate, MakeDay, DateFromTime, DayWithinYear, InLeapYear.
  pose proof (MonthFromTime_range t) as Hm.
  rewrite (Z.div_small (MonthFromTime t) 12) by lia.
  rewrite (Z.mod_small (MonthFromTime t) 12) by lia.
  rewrite Z.add_0_r. f_equal. f_equal. lia.
Qed.

(** [Math.ceil] of the week quotient, in integers. *)
Lemma week_quotient n :
  Qceiling ((inject_Z (msPerDay * n) / inject_Z 86400000 + 1) / 7)
  = (n + 7) / 7.
Proof.
  assert (Heq : ((inject_Z (msPerDay * n) / inject_Z 86400000 + 1) / 7
                 == (n + 1) # 7)%Q).
  { unfold msPerDay, Qeq, Qdiv, Qmult, Qplus, Qinv, inject_Z. simpl. lia. }
  rewrite Heq. unfold Qceiling, Qfloor, Qopp. simpl.
  Z.to_euclidean_division_equations. lia.
Qed.

(** The day number of a date of year [y]. *)
Lemma MakeDay_range y m d :
  0 <= m <= 11 -> 1 <= d <= 31 ->
  DayFromYear y <= MakeDay y m d <= DayFromYear y + 365.
Proof.
  intros Hm Hd. unfold MakeDay.
  rewrite (Z.div_small m 12), (Z.mod_small m 12), Z.add_0_r by lia.
  pose proof (DayFromYear_step y).
  assert (Hcases : m = 0 \/ m = 1 \/ m = 2 \/ m = 3 \/ m = 4 \/ m = 5 \/ m = 6
                   \/ m = 7 \/ m = 8 \/ m = 9 \/ m = 10 \/ m = 11) by lia.
  repeat (destruct Hcases as [-> | Hcases]); try subst m;
    cbn [month_start Z.leb Z.eqb Z.compare Pos.compare Pos.compare_cont Pos.eqb];
    lia.
Qed.

(** [isoWeek] in day numbers: the Thursday of the week of the date, the year
    of that Thursday, and the week that holds it. *)
Lemma isoWeek_days y m d :
  101 <= y -> 0 <= m <= 11 -> 1 <= d <= 31 ->
  let D0 := MakeDay y m d in
  let dayNum := if (D0 + 4) mod 7 =? 0 then 7 else (D0 + 4) mod 7 in
  let thursday := D0 + 4 - dayNum in
  isoWeek y m d
  = (year_of_day thursday,
     (thursday - DayFromYear (year_of_day thursday) + 7) / 7)
  /\ y - 1 <= year_of_day thursday <= y + 1
  /\ D0 - 3 <= thursday <= D0 + 3
  /\ (thursday + 4) mod 7 = 4.
Proof.
  intros Hy Hm Hd D0 dayNum thursday.
  pose proof (MakeDay_range y m d Hm Hd) as HD0. fold D0 in HD0.
  assert (Hdn : 1 <= dayNum <= 7 /\ (D0 + 4 - dayNum) mod 7 = 0).
  { unfold dayNum. destruct (Z.eqb_spec ((D0 + 4) mod 7) 0);
      Z.to_euclidean_division_equations; lia. }
  assert (Hth : D0 - 3 <= thursday <= D0 + 3) by (unfold thursday; lia).
  pose proof (year_of_day_spec thursday) as Hspec.
  assert (Hyt : y - 1 <= year_of_day thursday <= y + 1).
  { pose proof (DayFromYear_step (y - 1)).
    pose proof (DayFromYear_step y). pose proof (DayFromYear_step (y + 1)).
    replace (y - 1 + 1) with y in * by lia.
    replace (y + 1 + 1) with (y + 2) in * by lia.
    split.
    - destruct (Z.le_gt_cases (y - 1) (year_of_day thursday)); [assumption |].
      pose proof (DayFromYear_mono (year_of_day thursday + 1) (y - 1) ltac:(lia)).
      lia.
    - destruct (Z.le_gt_cases (year_of_day thursday) (y + 1)); [assumption |].
      pose proof (DayFromYear_mono (y + 2) (year_of_day thursday) ltac:(lia)).
      lia. }
  split; [| split; [exact Hyt | split; [exact Hth |]]].
  - unfold isoWeek, Date_UTC.
    destruct (Z.leb_spec y 99); [lia |]. rewrite andb_false_r.
    fold D0. unfold WeekDay. rewrite Day_midnight. fold dayNum.
    replace (DateFromTime (msPerDay * D0) + 4 - dayNum)
      with (DateFromTime (msPerDay * D0) + (4 - dayNum)) by lia.
    rewrite setUTCDate_shift, Day_midnight, TimeWithinDay_midnight, Z.add_0_r.
    replace (D0 + (4 - dayNum)) with thursday by (unfold thursday; lia).
    unfold YearFromTime. rewrite Day_midnight.
    destruct (Z.leb_spec (year_of_day thursday) 99); [lia |].
    rewrite andb_false_r.
    unfold MakeDay at 1. simpl (0 / 12). simpl (0 mod 12).
    unfold month_start at 1. simpl (0 <=? 0).
    rewrite !Z.add_0_r.
    replace (msPerDay * thursday
             - msPerDay * (DayFromYear (year_of_day thursday) + 1 - 1))
      with (msPerDay * (thursday - DayFromYear (year_of_day thursday)))
      by lia.
    rewrite week_quotient. reflexivity.
  - unfold thursday. Z.to_euclidean_division_equations. lia.
Qed.

(** The day number of a date inside its year. *)
Lemma MakeDay_in_year y m d :
  0 <= m <= 11 ->
  exists ms, MakeDay y m d = DayFromYear y + ms + d - 1
             /\ (m = 0 -> ms = 0) /\ (1 <= m -> 31 <= ms)
             /\ (m <= 10 -> ms <= DayFromYear (y + 1) - DayFromYear y - 61)
             /\ (m = 11 -> ms = DayFromYear (y + 1) - DayFromYear y - 31).
Proof.
  intros Hm. unfold MakeDay.
  rewrite (Z.div_small m 12), (Z.mod_small m 12), Z.add_0_r by lia.
  pose proof (DayFromYear_step y).
  eexists. split; [reflexivity |].
  assert (Hcases : m = 0 \/ m = 1 \/ m = 2 \/ m = 3 \/ m = 4 \/ m = 5 \/ m = 6
                   \/ m = 7 \/ m = 8 \/ m = 9 \/ m = 10 \/ m = 11) by lia.
  repeat (destruct Hcases as [-> | Hcases]); try subst m;
    cbn [month_start Z.leb Z.eqb Z.compare Pos.compare Pos.compare_cont Pos.eqb];
    lia.
Qed.

(** X18.  The week number is between 1 and 53, and the week year is the calendar
    year except, at most, in the first three days of January (the year
    before) and in the last three of December (the year after). *)
Theorem isoWeek_range y m d :
  101 <= y <= 275000 -> 0 <= m <= 11 -> 1 <= d <= 31 ->
  1 <= (isoWeek y m d).2 <= 53 /\
  y - 1 <= (isoWeek y m d).1 <= y + 1 /\
  ((isoWeek y m d).1 = y - 1 -> m = 0 /\ d <= 3) /\
  ((isoWeek y m d).1 = y + 1 -> m = 11 /\ 29 <= d).
Proof.
  intros [Hy _] Hm Hd.
  destruct (isoWeek_days y m d Hy Hm Hd) as (-> & Hyt & Hth & _).
  cbn [fst snd].
  set (thursday := MakeDay y m d + 4 - _) in *.
  pose proof (year_of_day_spec thursday) as Hspec.
  pose proof (DayFromYear_step (year_of_day thursday)) as Hstep.
  destruct (MakeDay_in_year y m d Hm) as (ms & HD0 & Hjan & Hlater & Hnov & Hdec).
  pose proof (DayFromYear_step y) as Hlen.
  split; [| split; [exact Hyt | split]].
  - Z.to_euclidean_division_equations. lia.
  - intros Heq. rewrite Heq in Hspec.
    replace (y - 1 + 1) with y in Hspec by lia.
    destruct (Z.eq_dec m 0) as [-> | Hne]; [specialize (Hjan eq_refl) | ]; lia.
  - intros Heq. rewrite Heq in Hspec.
    destruct (Z.eq_dec m 11) as [-> | Hne]; [specialize (Hdec eq_refl) | ]; lia.
Qed.

(** X19.  The seven days from a Monday on share one week id, and the seven days
    after them have the next one: the same year and the week number plus
    one, or week 1 of the next year. *)
Theorem isoWeek_week y1 m1 d1 y2 m2 d2 (k : Z) :
  101 <= y1 <= 275000 -> 0 <= m1 <= 11 -> 1 <= d1 <= 31 ->
  101 <= y2 <= 275000 -> 0 <= m2 <= 11 -> 1 <= d2 <= 31 ->
  WeekDay (Date_UTC y1 m1 d1) = 1 ->
  MakeDay y2 m2 d2 = MakeDay y1 m1 d1 + k ->
  (0 <= k <= 6 -> isoWeek y2 m2 d2 = isoWeek y1 m1 d1) /\
  (7 <= k <= 13 ->
   isoWeek y2 m2 d2 = ((isoWeek y1 m1 d1).1, (isoWeek y1 m1 d1).2 + 1)
   \/ isoWeek y2 m2 d2 = ((isoWeek y1 m1 d1).1 + 1, 1)).
Proof.
  intros [Hy1 _] Hm1 Hd1 [Hy2 _] Hm2 Hd2 Hmon Hk.
  destruct (isoWeek_days y1 m1 d1 Hy1 Hm1 Hd1) as (-> & _ & _ & _).
  destruct (isoWeek_days y2 m2 d2 Hy2 Hm2 Hd2) as (-> & _ & _ & _).
  cbn [fst snd]. rewrite Hk.
  unfold WeekDay, Date_UTC in Hmon.
  destruct (Z.leb_spec y1 99); [lia |]. rewrite andb_false_r in Hmon.
  rewrite Day_midnight in Hmon. rewrite Hmon. simpl (1 =? 0). cbv iota.
  set (D1 := MakeDay y1 m1 d1) in *.
  replace (D1 + 4 - 1) with (D1 + 3) by lia.
  pose proof (year_of_day_spec (D1 + 3)) as Hspec.
  pose proof (DayFromYear_step (year_of_day (D1 + 3))) as Hstep.
  split.
  - intros Hrange.
    assert (Hth : D1 + k + 4
                  - (if (D1 + k + 4) mod 7 =? 0 then 7 else (D1 + k + 4) mod 7)
                  = D1 + 3).
    { destruct (Z.eqb_spec ((D1 + k + 4) mod 7) 0);
        Z.to_euclidean_division_equations; lia. }
    now rewrite Hth.
  - intros Hrange.
    assert (Hth : D1 + k + 4
                  - (if (D1 + k + 4) mod 7 =? 0 then 7 else (D1 + k + 4) mod 7)
                  = D1 + 3 + 7).
    { destruct (Z.eqb_spec ((D1 + k + 4) mod 7) 0);
        Z.to_euclidean_division_equations; lia. }
    rewrite Hth.
    destruct (Z.lt_ge_cases (D1 + 3 + 7)
                (DayFromYear (year_of_day (D1 + 3) + 1))) as [Hsame | Hnext].
    + left.
      rewrite (year_of_day_unique (D1 + 3 + 7) (year_of_day (D1 + 3))) by lia.
      f_equal. Z.to_euclidean_division_equations. lia.
    + right.
      pose proof (DayFromYear_step (year_of_day (D1 + 3) + 1)) as Hstep2.
      rewrite (year_of_day_unique (D1 + 3 + 7) (year_of_day (D1 + 3) + 1)) by lia.
      f_equal. Z.to_euclidean_division_equations. lia.
Qed.

(** X20.  The fourth of January is always in week 1 of its own year, and the
    twenty-eighth of December in the last week, 52 or 53, of its own year. *)
Theorem isoWeek_anchors y :
  101 <= y <= 275000 ->
  isoWeek y 0 4 = (y, 1) /\
  (isoWeek y 11 28 = (y, 52) \/ isoWeek y 11 28 = (y, 53)).
Proof.
  intros [Hy _]. pose proof (DayFromYear_step y) as Hlen. split.
  - destruct (isoWeek_days y 0 4 Hy ltac:(lia) ltac:(lia)) as (-> & _ & Hth & _).
    destruct (MakeDay_in_year y 0 4 ltac:(lia)) as (ms & HD0 & Hjan & _).
    specialize (Hjan eq_refl). subst ms.
    set (thursday := MakeDay y 0 4 + 4 - _) in *.
    rewrite (year_of_day_unique thursday y) by lia.
    f_equal. Z.to_euclidean_division_equations. lia.
  - destruct (isoWeek_days y 11 28 Hy ltac:(lia) ltac:(lia))
      as (-> & _ & Hth & _).
    destruct (MakeDay_in_year y 11 28 ltac:(lia)) as (ms & HD0 & _ & _ & _ & Hdec).
    specialize (Hdec eq_refl). subst ms.
    set (thursday := MakeDay y 11 28 + 4 - _) in *.
    rewrite (year_of_day_unique thursday y) by lia.
    assert (Hw : (thursday - DayFromYear y + 7) / 7 = 52
                 \/ (thursday - DayFromYear y + 7) / 7 = 53)
      by (Z.to_euclidean_division_equations; lia).
    destruct Hw as [-> | ->]; [now left | now right].
Qed.

End Calendar_facts.

(** 10 March 2025 is in week 11 of 2025, the week id of the sample
    session. *)
Lemma isoWeek_range_witness :
  1 <= (Calendar.isoWeek 2025 2 10).2 <= 53 /\
  2024 <= (Calendar.isoWeek 2025 2 10).1 <= 2026.
Proof.
  destruct (isoWeek_range 2025 2 10 ltac:(lia) ltac:(lia) ltac:(lia))
    as (Hw & Hy & _).
  split; [exact Hw | lia].
Defined.

(** Monday 29 December 2025 and Sunday 4 January 2026 have one week id. *)
Lemma isoWeek_week_witness :
  Calendar.WeekDay (Calendar.Date_UTC 2025 11 29) = 1 /\
  Calendar.isoWeek 2026 0 4 = Calendar.isoWeek 2025 11 29.
Proof.
  split; [reflexivity |].
  destruct (isoWeek_week 2025 11 29 2026 0 4 6 ltac:(lia) ltac:(lia) ltac:(lia)
              ltac:(lia) ltac:(lia) ltac:(lia) eq_refl eq_refl) as [Hsame _].
  apply Hsame. lia.
Defined.

Lemma isoWeek_anchors_witness : Calendar.isoWeek 2026 0 4 = (2026, 1).
Proof. exact (proj1 (isoWeek_anchors 2026 ltac:(lia))). Defined.
